(** * GeographicLib geodesic solver: a shallow embedding of Geodesic.cpp

    The C++ type [double] is read as the field of real numbers: every
    operation is exact, there are no NaNs, infinities or signed zeros, so
    what the source does with -0 and with rounding is outside the model.
    A division by zero and a square root of a negative number have a
    value here (x / 0 = 0, sqrt of a negative number is 0) where the
    doubles give an infinity or a NaN: the definitions agree with the
    source only where no such operation is met, and the predicates named
    [..._finite] say where that is for the loops of Inverse.
    Integer sign flags ([lonsign], [swapp], [latsign], [_bsign]) are kept
    as [Z] and injected with [IZR] where the source multiplies them into a
    [double].  Output parameters passed by reference become components of
    the returned value; a variable assigned several times becomes a chain
    of [let]s of the same name.

    Geodesic.hpp and Constants.hpp are not among the sources: the inline
    helpers and constants they declare are modelled from the
    specification and marked so.  The series are taken at order 8, the
    [>= 8] branches of the preprocessor conditionals. *)

From Stdlib Require Import Reals Lra Lia List ZArith Psatz Bool.
Import ListNotations.
Open Scope R_scope.

(** ** Comparisons of doubles, as booleans *)

Definition Rltb (x y : R) : bool := if Rlt_dec x y then true else false.
Definition Rleb (x y : R) : bool := if Rle_dec x y then true else false.
Definition Reqb (x y : R) : bool := if Req_dec_T x y then true else false.

Infix "<?" := Rltb : R_scope.
Infix "<=?" := Rleb : R_scope.
Infix "=?" := Reqb : R_scope.

(** ** The C library functions the source calls *)

(** [std::atan2(y, x)], with values in (-PI, PI]. *)
Definition atan2 (y x : R) : R :=
  if 0 <? x then atan (y / x)
  else if x <? 0 then
         (if 0 <=? y then atan (y / x) + PI else atan (y / x) - PI)
  else if 0 <? y then PI / 2
  else if y <? 0 then - (PI / 2)
  else 0.

(** [std::floor]. *)
Definition floor (x : R) : R := IZR (Int_part x).

(** [cbrt]: the real cube root, odd in its argument. *)
Definition cbrt (x : R) : R :=
  if 0 <? x then Rpower x (/ 3)
  else if x <? 0 then - Rpower (- x) (/ 3)
  else 0.

(** ** Constants.hpp and numeric_limits *)

(** Modelled from the spec: [Constants::pi()] of Constants.hpp (not among
    the sources). *)
Definition pi : R := PI.

(** Modelled from the spec: [Constants::degree()] of Constants.hpp (not
    among the sources); "the factor pi/180". *)
Definition degree : R := PI / 180.

(** [numeric_limits<double>::min()], the least positive normal double. *)
Definition double_min : R := / 2 ^ 1022.

(** [numeric_limits<double>::epsilon()]. *)
Definition double_epsilon : R := / 2 ^ 52.

(** Lines 51-54: the underflow guard and the tolerances. *)
Definition eps2 : R := sqrt double_min.
Definition tol : R := 100 * double_epsilon.
Definition tol1 : R := sqrt double_epsilon.
Definition xthresh : R := 10 * tol1.

(** ** Inline helpers of Geodesic.hpp *)

(** Modelled from the spec: [sq], declared in Geodesic.hpp (not among the
    sources); the square of its argument. *)
Definition sq (x : R) : R := x * x.

(** Modelled from the spec: [hypot], declared in Geodesic.hpp (not among
    the sources); "returns sqrt(x^2+y^2) without intermediate
    overflow/underflow". *)
Definition hypot (x y : R) : R := sqrt (x * x + y * y).

(** Modelled from the spec: [SinCosNorm], declared in Geodesic.hpp (not
    among the sources); "divide both by sqrt(s^2+c^2)".  At the zero pair
    the doubles compute 0/0, a NaN. *)
Definition SinCosNorm (sinx cosx : R) : R * R :=
  let r := hypot sinx cosx in (sinx / r, cosx / r).

(** Modelled from the spec: [AngNormalize], declared in Geodesic.hpp (not
    among the sources); "reduces x by +-360 until it lies in
    (-180, 180]". *)
Definition AngNormalize (x : R) : R := x + 360 * floor ((180 - x) / 360).

(** Modelled from the spec: the threshold of [AngRound], "a small multiple
    of machine epsilon". *)
Definition AngRound_threshold : R := 4 * double_epsilon.

(** Modelled from the spec: [AngRound], declared in Geodesic.hpp (not among
    the sources); below the threshold "snap to 0, preserving sign". *)
Definition AngRound (x : R) : R :=
  if Rabs x <? AngRound_threshold then 0 else x.

(** Modelled from the spec: [azi2sense], declared in Geodesic.hpp (not
    among the sources); "a scalar constant azi2sense = +-1 ...; default
    +1". *)
Definition azi2sense : Z := 1.

(** Modelled from the spec: [maxpow_taucoef] of Geodesic.hpp (not among
    the sources), at "the reference-quality setting N = 8". *)
Definition maxpow_taucoef : nat := 8.

(** Modelled from the spec: [maxpow_sigcoef] of Geodesic.hpp (not among
    the sources), at N = 8. *)
Definition maxpow_sigcoef : nat := 8.

(** Modelled from the spec: [maxpow_lamcoef] of Geodesic.hpp (not among
    the sources), at N = 8. *)
Definition maxpow_lamcoef : nat := 8.

(** ** Geodesic::SinSeries *)

(** The loop [for (int j = n; --j;)]: the body runs for j = n-1 down to 1
    and reads [c[j - 1]]. *)
Fixpoint SinSeries_loop (ar : R) (c : list R) (j : nat) (y0 y1 : R) : R :=
  match j with
  | O => y0
  | S j' =>
      let y2 := y1 in
      let y1 := y0 in
      let y0 := ar * y1 - y2 + nth j' c 0 in
      SinSeries_loop ar c j' y0 y1
  end.

(** The source requires n positive: for n = 0 it reads [c[-1]] and the
    loop does not stop at zero, which is outside this model. *)
Definition SinSeries (sinx cosx : R) (c : list R) (n : nat) : R :=
  let ar := 2 * (sq cosx - sq sinx) in
  let y0 := nth (n - 1) c 0 in
  let y1 := 0 in
  2 * sinx * cosx * SinSeries_loop ar c (n - 1) y0 y1.

(** The sum the evaluator stands for: sum of c[k-1] sin(2 k x), k = 1..n. *)
Fixpoint sin_sum (x : R) (c : list R) (n : nat) : R :=
  match n with
  | O => 0
  | S m => sin_sum x c m + nth m c 0 * sin (2 * INR (S m) * x)
  end.

(** The Clenshaw sequence as the spec words it: y at index n+1 is 0, y at
    index n is c[n-1], and y(k-1) = ar y(k) - y(k+1) + c[k-2] below that.
    [clenshaw_y ar c n d] is the pair (y(n-d), y(n-d+1)). *)
Fixpoint clenshaw_y (ar : R) (c : list R) (n d : nat) : R * R :=
  match d with
  | O => (nth (n - 1) c 0, 0)
  | S d' =>
      let '(yk, yk1) := clenshaw_y ar c n d' in
      (ar * yk - yk1 + nth (n - d' - 2) c 0, yk)
  end.


(** ** The series generated by Maxima, at order 8 (lines 672-1163) *)

(** The scale factor to convert tau to s / b. *)
Definition tauScale (u2 : R) : R :=
  (u2*(u2*(u2*(u2*(u2*(u2*((3624192-2760615*u2)*u2-4967424)+7225344)-
  11468800)+20971520)-50331648)+268435456)+1073741824)/1073741824.

(** Coefficients of the sine series converting sigma to tau. *)
Definition tauCoeff (u2 : R) : list R :=
  let t := u2 in
  let c0 :=
      t*(u2*(u2*(u2*(u2*(u2*(u2*(428731*u2-557402)+748544)-1046528)+1540096)
      -2424832)+4194304)-8388608)/67108864 in
  let t := t * u2 in
  let c1 :=
      t*(u2*(u2*(u2*(u2*((480096-397645*u2)*u2-586016)+720896)-884736)+
      1048576)-1048576)/268435456 in
  let t := t * u2 in
  let c2 :=
      t*(u2*(u2*(u2*(u2*(92295*u2-100482)+106880)-108288)+98304)-65536)/
      201326592 in
  let t := t * u2 in
  let c3 :=
      t*(u2*(u2*((128512-136971*u2)*u2-111104)+81920)-40960)/1073741824 in
  let t := t * u2 in
  let c4 :=
      t*(u2*(u2*(9555*u2-7210)+4480)-1792)/335544320 in
  let t := t * u2 in
  let c5 :=
      t*((672-1251*u2)*u2-224)/268435456 in
  let t := t * u2 in
  let c6 :=
      t*(231*u2-66)/469762048 in
  let t := t * u2 in
  let c7 :=
      -429*t/17179869184 in
  [c0; c1; c2; c3; c4; c5; c6; c7].

(** Coefficients of the sine series converting tau to sigma. *)
Definition sigCoeff (u2 : R) : list R :=
  let t := u2 in
  let d0 :=
      t*(u2*(u2*(u2*(u2*(u2*((15107266-11062823*u2)*u2-21467904)+31944192)-
      50135040)+83755008)-150994944)+301989888)/2415919104 in
  let t := t * u2 in
  let d1 :=
      t*(u2*(u2*(u2*(u2*(u2*(112064929*u2-151134240)+206026080)-281149440)+
      376504320)-471859200)+471859200)/24159191040 in
  let t := t * u2 in
  let d2 :=
      t*(u2*(u2*(u2*((2266302-1841049*u2)*u2-2690560)+2976768)-2850816)+
      1900544)/402653184 in
  let t := t * u2 in
  let d3 :=
      t*(u2*(u2*(u2*(174543337*u2-182201856)+171121152)-132464640)+66232320)
      /48318382080 in
  let t := t * u2 in
  let d4 :=
      t*(u2*((5126290-6292895*u2)*u2-3328320)+1331328)/3019898880 in
  let t := t * u2 in
  let d5 :=
      t*(u2*(45781749*u2-25590432)+8530144)/56371445760 in
  let t := t * u2 in
  let d6 :=
      t*(918970-3216395*u2)/16911433728 in
  let t := t * u2 in
  let d7 :=
      109167851*t/5411658792960 in
  [d0; d1; d2; d3; d4; d5; d6; d7].

(** The scale of the longitude correction. *)
Definition dlamScale (f mu : R) : R :=
  let g :=
      (f*(f*(f*(f*(f*(f*(f*mu*(mu*(mu*(mu*(mu*(mu*(184041*mu-960498)+2063880
      )-2332400)+1459200)-479232)+65536)+mu*(mu*(mu*(mu*((544320-121968*mu)*
      mu-963200)+844800)-368640)+65536))+mu*(mu*(mu*(mu*(84672*mu-313600)+
      435200)-270336)+65536))+mu*(mu*((184320-62720*mu)*mu-184320)+65536))+
      mu*(mu*(51200*mu-110592)+65536))+(65536-49152*mu)*mu)+65536*mu)-262144
      )/262144 in
  f * g.

(** Its derivative with respect to mu. *)
Definition dlamScalemu (f mu : R) : R :=
  let h :=
      (f*(f*(f*(f*(f*(f*(mu*(mu*(mu*(mu*(mu*(1288287*mu-5762988)+10319400)-
      9329600)+4377600)-958464)+65536)+mu*(mu*(mu*((2721600-731808*mu)*mu-
      3852800)+2534400)-737280)+65536)+mu*(mu*(mu*(423360*mu-1254400)+
      1305600)-540672)+65536)+mu*((552960-250880*mu)*mu-368640)+65536)+mu*(
      153600*mu-221184)+65536)-98304*mu+65536)+65536)/262144 in
  h * sq f.

(** Coefficients of the sine series of the longitude correction. *)
Definition dlamCoeff (f mu : R) : list R :=
  let s := f * mu in
  let t := s in
  let e0 :=
      (f*(f*(f*(f*(f*(f*(f*(mu*(mu*(mu*(mu*(mu*((30816920-5080225*mu)*mu-
      79065664)+110840000)-91205632)+43638784)-11010048)+1048576)+mu*(mu*(mu
      *(mu*(mu*(3213004*mu-17049088)+37224832)-42637312)+26828800)-8650752)+
      1048576)+mu*(mu*(mu*((9543424-2100608*mu)*mu-17160192)+15196160)-
      6553600)+1048576)+mu*(mu*(mu*(1435648*mu-5419008)+7626752)-4718592)+
      1048576)+mu*((3129344-1044480*mu)*mu-3145728)+1048576)+mu*(835584*mu-
      1835008)+1048576)-786432*mu+1048576)+1048576)*t/8388608 in
  let t := t * s in
  let e1 :=
      (f*(f*(f*(f*(f*(f*(mu*(mu*(mu*(mu*(mu*(2092939*mu-12074982)+29005488)-
      37129344)+26700800)-10207232)+1605632)+mu*(mu*(mu*((6316264-1270932*mu
      )*mu-12598272)+12618240)-6348800)+1277952)+mu*(mu*(mu*(787136*mu-
      3268608)+5143040)-3645440)+983040)+mu*((1648640-498688*mu)*mu-1859584)
      +720896)+mu*(323584*mu-778240)+491520)-212992*mu+294912)+131072)*t/
      8388608 in
  let t := t * s in
  let e2 :=
      (f*(f*(f*(f*(f*(mu*(mu*(mu*((13101384-2474307*mu)*mu-28018000)+
      30323072)-16658432)+3727360)+mu*(mu*(mu*(1386756*mu-6137024)+10352064)
      -7923712)+2334720)+mu*((2705152-770048*mu)*mu-3254272)+1351680)+mu*(
      416256*mu-1052672)+696320)-208896*mu+294912)+81920)*t/25165824 in
  let t := t * s in
  let e3 :=
      (f*(f*(f*(f*(mu*(mu*(mu*(273437*mu-1265846)+2238200)-1799088)+557760)+
      mu*((492328-134532*mu)*mu-616928)+266560)+mu*(62080*mu-162048)+110080)
      -25088*mu+35840)+7168)*t/8388608 in
  let t := t * s in
  let e4 :=
      (f*(f*(f*(mu*((1333160-353765*mu)*mu-1718160)+761600)+mu*(142140*mu-
      379200)+262080)-48000*mu+69120)+10752)*t/41943040 in
  let t := t * s in
  let e5 :=
      (f*(f*(mu*(39633*mu-107426)+75152)-11484*mu+16632)+2112)*t/25165824 in
  let t := t * s in
  let e6 :=
      (f*(16016-11011*mu)+1716)*t/58720256 in
  let t := t * s in
  let e7 :=
      715*t/67108864 in
  [e0; e1; e2; e3; e4; e5; e6; e7].

(** Their derivatives with respect to mu. *)
Definition dlamCoeffmu (f mu : R) : list R :=
  let s := f * mu in
  let t := f in
  let h0 :=
      (f*(f*(f*(f*(f*(f*(f*(mu*(mu*(mu*(mu*(mu*((53929610-10160450*mu)*mu-
      118598496)+138550000)-91205632)+32729088)-5505024)+262144)+mu*(mu*(mu*
      (mu*(mu*(5622757*mu-25573632)+46531040)-42637312)+20121600)-4325376)+
      262144)+mu*(mu*(mu*((11929280-3150912*mu)*mu-17160192)+11397120)-
      3276800)+262144)+mu*(mu*(mu*(1794560*mu-5419008)+5720064)-2359296)+
      262144)+mu*((2347008-1044480*mu)*mu-1572864)+262144)+mu*(626688*mu-
      917504)+262144)-393216*mu+262144)+262144)*t/2097152 in
  let t := t * s in
  let h1 :=
      (f*(f*(f*(f*(f*(f*(mu*(mu*(mu*(mu*(mu*(8371756*mu-42262437)+87016464)-
      92823360)+53401600)-15310848)+1605632)+mu*(mu*(mu*((18948792-4448262*
      mu)*mu-31495680)+25236480)-9523200)+1277952)+mu*(mu*(mu*(2361408*mu-
      8171520)+10286080)-5468160)+983040)+mu*((3297280-1246720*mu)*mu-
      2789376)+720896)+mu*(647168*mu-1167360)+491520)-319488*mu+294912)+
      131072)*t/4194304 in
  let t := t * s in
  let h2 :=
      (f*(f*(f*(f*(f*(mu*(mu*(mu*((22927422-4948614*mu)*mu-42027000)+
      37903840)-16658432)+2795520)+mu*(mu*(mu*(2426823*mu-9205536)+12940080)
      -7923712)+1751040)+mu*((3381440-1155072*mu)*mu-3254272)+1013760)+mu*(
      520320*mu-1052672)+522240)-208896*mu+221184)+61440)*t/6291456 in
  let t := t * s in
  let h3 :=
      (f*(f*(f*(f*(mu*(mu*(mu*(1093748*mu-4430461)+6714600)-4497720)+1115520
      )+mu*((1476984-470862*mu)*mu-1542320)+533120)+mu*(186240*mu-405120)+
      220160)-62720*mu+71680)+14336)*t/4194304 in
  let t := t * s in
  let h4 :=
      (f*(f*(f*(mu*((466606-141506*mu)*mu-515448)+190400)+mu*(49749*mu-
      113760)+65520)-14400*mu+17280)+2688)*t/2097152 in
  let t := t * s in
  let h5 :=
      (f*(f*(mu*(158532*mu-375991)+225456)-40194*mu+49896)+6336)*t/12582912 in
  let t := t * s in
  let h6 :=
      (f*(4004-3146*mu)+429)*t/2097152 in
  let t := t * s in
  let h7 :=
      715*t/8388608 in
  [h0; h1; h2; h3; h4; h5; h6; h7].
(** ** The ellipsoid: class Geodesic *)

Record Geodesic : Type := mkGeodesic {
  _a : R;     (* equatorial radius *)
  _f : R;     (* flattening *)
  _f1 : R;    (* 1 - f *)
  _e2 : R;    (* eccentricity squared *)
  _ep2 : R;   (* e2 / (1 - e2) *)
  _b : R      (* polar radius *)
}.

(** Geodesic::Geodesic(double a, double r). *)
Definition Geodesic_new (a r : R) : Geodesic :=
  let f := if 0 <? r then 1 / r else 0 in
  let f1 := 1 - f in
  let e2 := f * (2 - f) in
  let ep2 := e2 / sq f1 in
  let b := a * f1 in
  mkGeodesic a f f1 e2 ep2 b.

(** Modelled from the spec: [Constants::WGS84_a()] of Constants.hpp (not
    among the sources), "a = 6378137.0". *)
Definition WGS84_a : R := 6378137.

(** Modelled from the spec: [Constants::WGS84_r()] of Constants.hpp (not
    among the sources), "1/f = 298.257223563". *)
Definition WGS84_r : R := 298.257223563.

Definition WGS84 : Geodesic := Geodesic_new WGS84_a WGS84_r.

(** ** The geodesic line: class GeodesicLine *)

Record GeodesicLine : Type := mkGeodesicLine {
  _bsign : Z;
  _lat1 : R;
  _lon1 : R;
  _azi1 : R;
  _lf1 : R;             (* the line's own copy of _f1 *)
  _salp0 : R;
  _calp0 : R;
  _ssig1 : R;
  _csig1 : R;
  _slam1 : R;
  _clam1 : R;
  _sScale : R;
  _sigCoeff : list R;
  _dtau1 : R;
  _stau1 : R;
  _ctau1 : R;
  _dlamScale : R;
  _dlamCoeff : list R;
  _dchi1 : R
}.

(** GeodesicLine::GeodesicLine(const Geodesic& g, lat1, lon1, azi1). *)
Definition GeodesicLine_new (g : Geodesic) (lat1 lon1 azi1 : R)
  : GeodesicLine :=
  let azi1 := AngNormalize azi1 in
  (* Normalize azimuth at poles. *)
  let '(lon1, azi1) :=
    if lat1 =? 90 then
      (lon1 - (azi1 - (if 0 <=? azi1 then 180 else -180)), -180)
    else if lat1 =? -90 then (lon1 + azi1, 0)
    else (lon1, azi1) in
  (* Guard against underflow in salp0 *)
  let azi1 := AngRound azi1 in
  let lon1 := AngNormalize lon1 in
  let bsign := if 0 <=? azi1 then 1%Z else (-1)%Z in
  let azi1 := azi1 * IZR bsign in
  let f1 := _f1 g in
  let alp1 := azi1 * degree in
  let salp1 := if azi1 =? 180 then 0 else sin alp1 in
  let calp1 := if azi1 =? 90 then 0 else cos alp1 in
  let phi := lat1 * degree in
  (* Ensure cbet1 = +eps at poles *)
  let sbet1 := f1 * sin phi in
  let cbet1 := if Rabs lat1 =? 90 then eps2 else cos phi in
  let '(sbet1, cbet1) := SinCosNorm sbet1 cbet1 in
  let salp0 := salp1 * cbet1 in
  let calp0 := hypot calp1 (salp1 * sbet1) in
  let ssig1 := sbet1 in
  let slam1 := salp0 * sbet1 in
  let csig1 :=
    if negb (sbet1 =? 0) || negb (calp1 =? 0) then cbet1 * calp1 else 1 in
  let clam1 := csig1 in
  let '(ssig1, csig1) := SinCosNorm ssig1 csig1 in
  let '(slam1, clam1) := SinCosNorm slam1 clam1 in
  let mu := sq calp0 in
  let u2 := mu * _ep2 g in
  let sScale := _b g * tauScale u2 in
  let sigCoeff0 := tauCoeff u2 in
  let dtau1 := SinSeries ssig1 csig1 sigCoeff0 maxpow_taucoef in
  let s := sin dtau1 in
  let c := cos dtau1 in
  (* tau1 = sig1 + dtau1 *)
  let stau1 := ssig1 * c + csig1 * s in
  let ctau1 := csig1 * c - ssig1 * s in
  let sigCoeff1 := sigCoeff u2 in
  let dlamScale1 := salp0 * dlamScale (_f g) mu in
  let dlamCoeff1 := dlamCoeff (_f g) mu in
  let dchi1 := SinSeries ssig1 csig1 dlamCoeff1 maxpow_lamcoef in
  mkGeodesicLine bsign lat1 lon1 azi1 f1 salp0 calp0 ssig1 csig1 slam1 clam1
    sScale sigCoeff1 dtau1 stau1 ctau1 dlamScale1 dlamCoeff1 dchi1.

(** A line that was never set up: _sScale is 0, which is what Position
    tests for ("Uninitialized"); the other fields are of no account and
    hold zeros here. *)
Definition GeodesicLine_uninitialized : GeodesicLine :=
  mkGeodesicLine 0 0 0 0 0 0 0 0 0 0 0 0 [] 0 0 0 0 [] 0.

(** GeodesicLine::Position(s12, lat2, lon2, azi2).  The three reference
    arguments come in as [out] and go out as the result. *)
Definition Position (l : GeodesicLine) (s12 : R) (out : R * R * R)
  : R * R * R :=
  if _sScale l =? 0 then
    (* Uninitialized *)
    out
  else
    let tau12 := s12 / _sScale l in
    let s := sin tau12 in
    let c := cos tau12 in
    let sig12 :=
      tau12 + (_dtau1 l +
               SinSeries (_stau1 l * c + _ctau1 l * s)
                         (_ctau1 l * c - _stau1 l * s)
                         (_sigCoeff l) maxpow_sigcoef) in
    let s := sin sig12 in
    let c := cos sig12 in
    (* sig2 = sig1 + sig12 *)
    let ssig2 := _ssig1 l * c + _csig1 l * s in
    let csig2 := _csig1 l * c - _ssig1 l * s in
    (* sin(bet2) = cos(alp0) * sin(sig2) *)
    let sbet2 := _calp0 l * ssig2 in
    let cbet2 := hypot (_salp0 l) (_calp0 l * csig2) in
    (* tan(lam2) = sin(alp0) * tan(sig2) *)
    let slam2 := _salp0 l * ssig2 in
    let clam2 := csig2 in
    (* tan(alp0) = cos(sig2)*tan(alp2) *)
    let salp2 := _salp0 l in
    let calp2 := _calp0 l * csig2 in
    (* lam12 = lam2 - lam1 *)
    let lam12 := atan2 (slam2 * _clam1 l - clam2 * _slam1 l)
                       (clam2 * _clam1 l + slam2 * _slam1 l) in
    let chi12 :=
      lam12 + _dlamScale l *
              (sig12 +
               (SinSeries ssig2 csig2 (_dlamCoeff l) maxpow_lamcoef
                - _dchi1 l)) in
    let lon12 := IZR (_bsign l) * chi12 / degree in
    let lon12 := lon12 - 360 * floor (lon12 / 360 + 0.5) in
    let lat2 := atan2 sbet2 (_lf1 l * cbet2) / degree in
    let lon2 := AngNormalize (_lon1 l + lon12) in
    let azi2 :=
      0 - atan2 (IZR (- azi2sense * _bsign l) * salp2)
                (IZR azi2sense * calp2) / degree in
    (lat2, lon2, azi2).

(** Geodesic::Direct. *)
Definition Direct (g : Geodesic) (lat1 lon1 azi1 s12 : R) (out : R * R * R)
  : R * R * R :=
  let l := GeodesicLine_new g lat1 lon1 azi1 in
  Position l s12 out.

(** ** Geodesic::Chi12 *)

(** What a call of Chi12 leaves in its reference arguments, with the
    returned chi12.  [r_dchi12] is [None] when [diffp] is false: the source
    then leaves [dchi12] unassigned.  The scratch array [c] is left out:
    every reader of it refills all eight entries first. *)
Record Chi12_result : Type := mkChi12 {
  r_chi12 : R;
  r_salp2 : R;
  r_calp2 : R;
  r_sig12 : R;
  r_ssig1 : R;
  r_csig1 : R;
  r_ssig2 : R;
  r_csig2 : R;
  r_u2 : R;
  r_dchi12 : option R
}.

(** The entry guard: break the degeneracy of the equatorial line. *)
Definition Chi12_calp1 (sbet1 calp1 : R) : R :=
  if (sbet1 =? 0) && (calp1 =? 0) then - eps2 else calp1.

(** [calp0], as Chi12 computes it from its arguments. *)
Definition Chi12_calp0 (sbet1 salp1 calp1 : R) : R :=
  hypot (Chi12_calp1 sbet1 calp1) (salp1 * sbet1).

(** Lines 426-544.  Two places where the doubles leave this reading:
    line 474 takes the square root of a negative number, a NaN, when
    |salp0| exceeds cbet2; and at lines 486-487 and 490-491
    [max(x, 0.0)] keeps an x that is -0.0, so that with a negative cosine
    atan2 returns -pi where [Rmax x 0] gives PI. *)
Definition Chi12 (g : Geodesic) (sbet1 cbet1 sbet2 cbet2 salp1 calp1 : R)
  (diffp : bool) : Chi12_result :=
  let calp0 := Chi12_calp0 sbet1 salp1 calp1 in
  let calp1 := Chi12_calp1 sbet1 calp1 in
  (* sin(alp1) * cos(bet1) = sin(alp0) *)
  let salp0 := salp1 * cbet1 in
  (* tan(bet1) = tan(sig1) * cos(alp1) *)
  let ssig1 := sbet1 in
  let slam1 := salp0 * sbet1 in
  let clam1 := calp1 * cbet1 in
  let csig1 := clam1 in
  let '(ssig1, csig1) := SinCosNorm ssig1 csig1 in
  let '(slam1, clam1) := SinCosNorm slam1 clam1 in
  (* sin(alp2) * cos(bet2) = sin(alp0) *)
  let salp2 := if negb (cbet2 =? cbet1) then salp0 / cbet2 else salp1 in
  let calp2 :=
    if negb (cbet2 =? cbet1) || negb (Rabs sbet2 =? - sbet1) then
      sqrt (sq (calp1 * cbet1) +
            (if cbet1 <? - sbet1
             then (cbet2 - cbet1) * (cbet1 + cbet2)
             else (sbet1 - sbet2) * (sbet1 + sbet2))) / cbet2
    else Rabs calp1 in
  (* tan(bet2) = tan(sig2) * cos(alp2) *)
  let ssig2 := sbet2 in
  let slam2 := salp0 * sbet2 in
  let clam2 := calp2 * cbet2 in
  let csig2 := clam2 in
  let '(ssig2, csig2) := SinCosNorm ssig2 csig2 in
  let '(slam2, clam2) := SinCosNorm slam2 clam2 in
  (* sig12 = sig2 - sig1, limit to [0, pi] *)
  let sig12 := atan2 (Rmax (csig1 * ssig2 - ssig1 * csig2) 0)
                     (csig1 * csig2 + ssig1 * ssig2) in
  (* lam12 = lam2 - lam1, limit to [0, pi] *)
  let lam12 := atan2 (Rmax (clam1 * slam2 - slam1 * clam2) 0)
                     (clam1 * clam2 + slam1 * slam2) in
  let mu := sq calp0 in
  let c := dlamCoeff (_f g) mu in
  let eta12 := SinSeries ssig2 csig2 c maxpow_lamcoef -
               SinSeries ssig1 csig1 c maxpow_lamcoef in
  let lamscale := dlamScale (_f g) mu in
  let chi12 := lam12 + salp0 * lamscale * (sig12 + eta12) in
  let dchi12 :=
    if diffp then
      (* Differentiate sin(alp) * cos(bet) = sin(alp0) *)
      let dalp0 := cbet1 * calp1 / calp0 in
      let dalp2 :=
        if negb (calp2 =? 0) then calp1 * cbet1 / (calp2 * cbet2)
        else if 0 <=? calp1 then 1 else -1 in
      let dsig1 := ssig1 * salp0 / calp0 in
      let dsig2 := ssig2 * salp0 / calp0 * dalp2 in
      let dlam1 := sbet1 * sq clam1 + slam1 * salp0 / (calp0 * cbet1) in
      let dlam2 :=
        (sbet2 * sq clam2 + slam2 * salp0 / (calp0 * cbet2)) * dalp2 in
      let c := dlamCoeffmu (_f g) mu in
      let dmu := - 2 * calp0 * salp0 * dalp0 in
      let deta12 := dmu * (SinSeries ssig2 csig2 c maxpow_lamcoef -
                           SinSeries ssig1 csig1 c maxpow_lamcoef) in
      let dlamscale := dlamScalemu (_f g) mu * dmu in
      let dchisig :=
        - _e2 g * salp0 *
        (dsig2 / (sqrt (1 - _e2 g * (1 - mu * sq ssig2)) + 1) -
         dsig1 / (sqrt (1 - _e2 g * (1 - mu * sq ssig1)) + 1)) in
      Some ((dlam2 - dlam1) + dchisig +
            (dalp0 * calp0 * lamscale + salp0 * dlamscale) * (sig12 + eta12) +
            salp0 * lamscale * deta12)
    else None in
  let u2 := mu * _ep2 g in
  mkChi12 chi12 salp2 calp2 sig12 ssig1 csig1 ssig2 csig2 u2 dchi12.
(** ** Geodesic::Inverse *)

(** *** Canonical form of the input *)

Record Canonical : Type := mkCanonical {
  c_lon12 : R;
  c_lat1 : R;
  c_lat2 : R;
  c_lonsign : Z;
  c_swapp : Z;
  c_latsign : Z
}.

(** Lines 102-122 of the source. *)
Definition Inverse_canonical (lat1 lon1 lat2 lon2 : R) : Canonical :=
  let lon1 := AngNormalize lon1 in
  let lon12 := AngNormalize (AngNormalize lon2 - lon1) in
  (* If very close to being on the same meridian, then make it so. *)
  let lon12 := AngRound lon12 in
  (* Make longitude difference positive. *)
  let lonsign := if 0 <=? lon12 then 1%Z else (-1)%Z in
  let lon12 := lon12 * IZR lonsign in
  (* If really close to the equator, treat as on equator. *)
  let lat1 := AngRound lat1 in
  let lat2 := AngRound lat2 in
  (* Swap points so that point with higher (abs) latitude is point 1 *)
  let swapp := if Rabs lat2 <=? Rabs lat1 then 1%Z else (-1)%Z in
  let '(lonsign, lat1, lat2) :=
    if (swapp <? 0)%Z then ((lonsign * -1)%Z, lat2, lat1)
    else (lonsign, lat1, lat2) in
  (* Make lat1 <= 0 *)
  let latsign := if lat1 <? 0 then 1%Z else (-1)%Z in
  let lat1 := lat1 * IZR latsign in
  let lat2 := lat2 * IZR latsign in
  mkCanonical lon12 lat1 lat2 lonsign swapp latsign.

(** *** Starting point for Newton's method *)

(** The loop of at most 30 steps on the astroid equation, lines 254-270. *)
Fixpoint Inverse_astroid_loop (fuel : nat) (x y salp1 calp1 : R) : R * R :=
  match fuel with
  | O => (salp1, calp1)
  | S fuel' =>
      let v := calp1 * (salp1 + x) - y * salp1 in
      let dv := - calp1 * y - salp1 * x + (calp1 - salp1) * (calp1 + salp1) in
      let da := - v / dv in
      let sda := sin da in
      let cda := cos da in
      let nsalp1 := salp1 * cda + calp1 * sda in
      if v =? 0 then (salp1, calp1)
      else
        let calp1 := Rmax 0 (calp1 * cda - salp1 * sda) in
        let salp1 := Rmax 0 nsalp1 in
        let '(salp1, calp1) := SinCosNorm salp1 calp1 in
        if Rabs da <? tol1 then (salp1, calp1)
        else Inverse_astroid_loop fuel' x y salp1 calp1
  end.

(** Where the loop above computes as the doubles do: at every step it
    takes with v <> 0, the divisor dv is not 0 and the clamped pair given
    to SinCosNorm is not the zero pair.  (With v = 0 the quotient is
    computed but never read.) *)
Fixpoint Inverse_astroid_loop_finite (fuel : nat) (x y salp1 calp1 : R)
  : Prop :=
  match fuel with
  | O => True
  | S fuel' =>
      let v := calp1 * (salp1 + x) - y * salp1 in
      let dv := - calp1 * y - salp1 * x + (calp1 - salp1) * (calp1 + salp1) in
      let da := - v / dv in
      let sda := sin da in
      let cda := cos da in
      let nsalp1 := salp1 * cda + calp1 * sda in
      if v =? 0 then True
      else
        let calp1 := Rmax 0 (calp1 * cda - salp1 * sda) in
        let salp1 := Rmax 0 nsalp1 in
        dv <> 0 /\ (salp1 <> 0 \/ calp1 <> 0) /\
        let '(salp1, calp1) := SinCosNorm salp1 calp1 in
        if Rabs da <? tol1 then True
        else Inverse_astroid_loop_finite fuel' x y salp1 calp1
  end.

(** Lines 197-282: the first (salp1, calp1). *)
Definition Inverse_start (g : Geodesic)
  (sbet1 cbet1 sbet2 cbet2 n1 sbet12 sbet12a chi12 cchi12 schi12 : R)
  : R * R :=
  let csig12 := sbet1 * sbet2 + cbet1 * cbet2 * cchi12 in
  let salp1 := cbet2 * schi12 in
  let calp1 :=
    if 0 <=? cchi12
    then sbet12 * _f1 g / n1 + cbet2 * sbet1 * sq schi12 / (1 + cchi12)
    else sbet12a - cbet2 * sbet1 * sq schi12 / (1 - cchi12) in
  let ssig12 := hypot salp1 calp1 in
  let chicrita := - cbet1 * dlamScale (_f g) (sq sbet1) * pi in
  if (0 <=? csig12) || (3 * chicrita * cbet1 <=? ssig12) then
    (* Zeroth order spherical approximation is OK *)
    SinCosNorm salp1 calp1
  else
    let x := (chi12 - pi) / chicrita in
    let y := sbet12a / (chicrita * cbet1) in
    if (- tol <? y) && (-1 - xthresh <? x) then
      (* strip near cut *)
      let salp1 := Rmin 1 (- x) in
      let calp1 := - sqrt (1 - sq salp1) in
      (salp1, calp1)
    else
      (* estimate alp2 *)
      let '(salp1, calp1) :=
        if y =? 0 then (1, 0)
        else if (-0.027 <? y) && (-1.09 <? x) && (x <? -0.91) then
          (* solve t^3 - 2*a*t - 2 = 0 *)
          let a := (x + 1) / sq (cbrt y) in
          let a3 := sq a * a in
          let disc := 27 - 8 * a3 in
          let v := 1 in
          let v :=
            if 0 <=? disc then
              let s := 4 * a3 - 27 in
              let s := s + (if 0 <? s then 1 else -1) * 3 * sqrt 3
                           * sqrt disc in
              let s := s / (4 * a3) in
              let s := cbrt s in
              v + (s + 1 / s)
            else
              let ang := atan2 (3 * sqrt 3 * sqrt (- disc)) (4 * a3 - 27)
                         + 2 * pi in
              v + 2 * cos (ang / 3) in
          let calp1 := cbrt (- y) * -3 / a / v in
          let salp1 := sqrt (1 - sq calp1) in
          (salp1, calp1)
        else (0, 1) in
      let '(salp1, calp1) := Inverse_astroid_loop 30 x y salp1 calp1 in
      (* estimate lam12 *)
      let r := hypot y (salp1 + x) * chicrita * salp1 in
      let schi12 := sin r in
      let cchi12 := - cos r in
      let salp1 := cbet2 * schi12 in
      let calp1 := sbet12a - cbet2 * sbet1 * sq schi12 / (1 - cchi12) in
      SinCosNorm salp1 calp1.

(** *** Newton's method, lines 370-394 *)

(** One step of the rotation: lines 379-392 ([#if 1] branch). *)
Definition Newton_update (salp1 calp1 v dv : R) : R * R :=
  let dalp1 := - v / dv in
  let sdalp1 := sin dalp1 in
  let cdalp1 := cos dalp1 in
  let nsalp1 := salp1 * cdalp1 + calp1 * sdalp1 in
  let calp1 := calp1 * cdalp1 - salp1 * sdalp1 in
  let salp1 := Rmax 0 nsalp1 in
  SinCosNorm salp1 calp1.

(** Where [Newton_update] computes as the doubles do: the divisor dv is
    not 0 and the pair given to SinCosNorm is not the zero pair. *)
Definition Newton_update_finite (salp1 calp1 v dv : R) : Prop :=
  dv <> 0 /\
  (Rmax 0 (salp1 * cos (- v / dv) + calp1 * sin (- v / dv)) <> 0 \/
   calp1 * cos (- v / dv) - salp1 * sin (- v / dv) <> 0).

(** What the loop leaves behind: the pair (salp1, calp1), the outputs of
    the last call of Chi12, and (a ghost) the number of passes through the
    loop body. *)
Record Newton_result : Type := mkNewton {
  n_salp1 : R;
  n_calp1 : R;
  n_last : Chi12_result;
  n_iterations : nat
}.

(** [Newton_loop g ... m i salp1 calp1 trip] runs the loop from counter
    value [i] with [m + 1] passes left before [i < 50] fails. *)
Fixpoint Newton_loop (g : Geodesic) (sbet1 cbet1 sbet2 cbet2 chi12 : R)
  (m : nat) (i : nat) (salp1 calp1 : R) (trip : nat) : Newton_result :=
  let r := Chi12 g sbet1 cbet1 sbet2 cbet2 salp1 calp1 (trip <? 1)%nat in
  let v := r_chi12 r - chi12 in
  if (Rabs v <=? eps2) || negb (trip <? 1)%nat then
    mkNewton salp1 calp1 r (S i)
  else
    match r_dchi12 r with
    | None => mkNewton salp1 calp1 r (S i)   (* dead: diffp was true *)
    | Some dv =>
        let '(salp1, calp1) := Newton_update salp1 calp1 v dv in
        let trip := if Rabs v <? tol then S trip else trip in
        match m with
        | O => mkNewton salp1 calp1 r (S i)
        | S m' =>
            Newton_loop g sbet1 cbet1 sbet2 cbet2 chi12 m' (S i)
                        salp1 calp1 trip
        end
    end.

(** The body of the loop as a step on the state (salp1, calp1, trip):
    [None] when the pass leaves the loop by [break], the state for the
    next pass otherwise. *)
Definition Newton_pass (g : Geodesic) (sbet1 cbet1 sbet2 cbet2 chi12 : R)
  (st : R * R * nat) : option (R * R * nat) :=
  let '(salp1, calp1, trip) := st in
  let r := Chi12 g sbet1 cbet1 sbet2 cbet2 salp1 calp1 (trip <? 1)%nat in
  let v := r_chi12 r - chi12 in
  if (Rabs v <=? eps2) || negb (trip <? 1)%nat then None
  else
    match r_dchi12 r with
    | None => None
    | Some dv =>
        let '(salp1, calp1) := Newton_update salp1 calp1 v dv in
        Some (salp1, calp1, if Rabs v <? tol then S trip else trip)
    end.

(** The state after [k] passes that did not break, if there are as many. *)
Fixpoint Newton_iter (g : Geodesic) (sbet1 cbet1 sbet2 cbet2 chi12 : R)
  (k : nat) (st : R * R * nat) : option (R * R * nat) :=
  match k with
  | O => Some st
  | S k' =>
      match Newton_pass g sbet1 cbet1 sbet2 cbet2 chi12 st with
      | None => None
      | Some st' => Newton_iter g sbet1 cbet1 sbet2 cbet2 chi12 k' st'
      end
  end.

(** *** The three cases *)

(** What the case analysis hands to the final conversion. *)
Record Solution : Type := mkSolution {
  s_s12 : R;
  s_salp1 : R;
  s_calp1 : R;
  s_salp2 : R;
  s_calp2 : R
}.

Inductive Case : Type := Meridional | Equatorial | General.

(** The values lines 135-159 compute from the canonical coordinates. *)
Record Reduced : Type := mkReduced {
  d_sbet1 : R; d_cbet1 : R; d_sbet2 : R; d_cbet2 : R; d_n1 : R;
  d_sbet12 : R; d_sbet12a : R; d_chi12 : R; d_cchi12 : R; d_schi12 : R
}.

Definition Inverse_reduced (g : Geodesic) (lat1 lat2 lon12 : R) : Reduced :=
  let phi := lat1 * degree in
  (* Ensure cbet1 = +eps at poles *)
  let sbet1 := _f1 g * sin phi in
  let cbet1 := if lat1 =? -90 then eps2 else cos phi in
  let n1 := hypot sbet1 cbet1 in
  let sbet1 := sbet1 / n1 in
  let cbet1 := cbet1 / n1 in
  let phi := lat2 * degree in
  (* Ensure cbet2 = +eps at poles *)
  let sbet2 := _f1 g * sin phi in
  let cbet2 := if Rabs lat2 =? 90 then eps2 else cos phi in
  let '(sbet2, cbet2) := SinCosNorm sbet2 cbet2 in
  let sbet12 := sbet2 * cbet1 - cbet2 * sbet1 in
  let sbet12a := sbet2 * cbet1 + cbet2 * sbet1 in
  let chi12 := lon12 * degree in
  let cchi12 := cos chi12 in
  let schi12 := if lon12 =? 180 then 0 else sin chi12 in
  mkReduced sbet1 cbet1 sbet2 cbet2 n1 sbet12 sbet12a chi12 cchi12 schi12.

(** The tests of lines 165 and 186-188. *)
Definition Inverse_case (g : Geodesic) (lat1 lat2 lon12 : R) : Case :=
  let d := Inverse_reduced g lat1 lat2 lon12 in
  if (d_schi12 d =? 0) || (lat1 =? -90) then Meridional
  else if (d_sbet1 d =? 0) && (d_chi12 d <=? pi - _f g * pi) then Equatorial
  else General.

(** Lines 166-185. *)
Definition Inverse_meridional (g : Geodesic) (d : Reduced) : Solution :=
  (* Head to the target longitude *)
  let calp1 := d_cchi12 d in
  let salp1 := d_schi12 d in
  (* At the target we're heading north *)
  let calp2 := 1 in
  let salp2 := 0 in
  let ssig1 := d_sbet1 d in
  let csig1 := calp1 * d_cbet1 d in
  let ssig2 := d_sbet2 d in
  let csig2 := calp2 * d_cbet2 d in
  let '(ssig1, csig1) := SinCosNorm ssig1 csig1 in
  let '(ssig2, csig2) := SinCosNorm ssig2 csig2 in
  (* sig12 = sig2 - sig1 *)
  let sig12 := atan2 (Rmax (csig1 * ssig2 - ssig1 * csig2) 0)
                     (csig1 * csig2 + ssig1 * ssig2) in
  let c := tauCoeff (_ep2 g) in
  let s12 := _b g * tauScale (_ep2 g) *
             (sig12 + (SinSeries ssig2 csig2 c maxpow_taucoef -
                       SinSeries ssig1 csig1 c maxpow_taucoef)) in
  mkSolution s12 salp1 calp1 salp2 calp2.

(** Lines 189-191. *)
Definition Inverse_equatorial (g : Geodesic) (d : Reduced) : Solution :=
  mkSolution (_a g * d_chi12 d) 1 0 1 0.

(** Lines 192-408. *)
Definition Inverse_general (g : Geodesic) (d : Reduced) : Solution :=
  let '(salp1, calp1) :=
    Inverse_start g (d_sbet1 d) (d_cbet1 d) (d_sbet2 d) (d_cbet2 d) (d_n1 d)
                  (d_sbet12 d) (d_sbet12a d) (d_chi12 d) (d_cchi12 d)
                  (d_schi12 d) in
  let n := Newton_loop g (d_sbet1 d) (d_cbet1 d) (d_sbet2 d) (d_cbet2 d)
                       (d_chi12 d) 49 0 salp1 calp1 0 in
  let r := n_last n in
  let c := tauCoeff (r_u2 r) in
  let s12 := _b g * tauScale (r_u2 r) *
             (r_sig12 r +
              (SinSeries (r_ssig2 r) (r_csig2 r) c maxpow_taucoef -
               SinSeries (r_ssig1 r) (r_csig1 r) c maxpow_taucoef)) in
  mkSolution s12 (n_salp1 n) (n_calp1 n) (r_salp2 r) (r_calp2 r).

Definition Inverse_solve (g : Geodesic) (lat1 lat2 lon12 : R) : Solution :=
  let d := Inverse_reduced g lat1 lat2 lon12 in
  match Inverse_case g lat1 lat2 lon12 with
  | Meridional => Inverse_meridional g d
  | Equatorial => Inverse_equatorial g d
  | General => Inverse_general g d
  end.

(** *** Back to the caller's frame, lines 410-422 *)

Definition Inverse_azimuths (lonsign swapp latsign : Z) (s : Solution)
  : R * R :=
  let '(salp1, salp2) :=
    if (swapp <? 0)%Z then (s_salp2 s, s_salp1 s)
    else (s_salp1 s, s_salp2 s) in
  let '(calp1, calp2) :=
    if (swapp <? 0)%Z then (s_calp2 s, s_calp1 s)
    else (s_calp1 s, s_calp2 s) in
  let azi1 :=
    0 - atan2 (IZR (- swapp * lonsign) * salp1)
              (IZR (swapp * latsign) * calp1) / degree in
  let azi2 :=
    0 - atan2 (IZR (- azi2sense * swapp * lonsign) * salp2)
              (IZR (azi2sense * swapp * latsign) * calp2) / degree in
  (azi1, azi2).

(** Geodesic::Inverse: the result is (s12, azi1, azi2). *)
Definition Inverse (g : Geodesic) (lat1 lon1 lat2 lon2 : R) : R * R * R :=
  let k := Inverse_canonical lat1 lon1 lat2 lon2 in
  let s := Inverse_solve g (c_lat1 k) (c_lat2 k) (c_lon12 k) in
  let '(azi1, azi2) :=
    Inverse_azimuths (c_lonsign k) (c_swapp k) (c_latsign k) s in
  (s_s12 s, azi1, azi2).

(** ** Auxiliary definitions for the statements below *)

(** The longitude difference of Inverse before its sign is taken off. *)
Definition lon12_raw (lon1 lon2 : R) : R :=
  AngRound (AngNormalize (AngNormalize lon2 - AngNormalize lon1)).

(** A coefficient array of eight zeros. *)
Definition zeros8 : list R := [0; 0; 0; 0; 0; 0; 0; 0].

(** [reverse_of a b]: the azimuth a is b turned by 180 degrees, modulo
    360 degrees. *)
Definition reverse_of (a b : R) : Prop :=
  exists k : Z, a = b + 180 + 360 * IZR k.

(** The conversion of a direction (sin, cos) to an azimuth in degrees,
    as written at the end of Inverse and of Position. *)
Definition azimuth_of (y x : R) : R := 0 - atan2 y x / degree.

(** [negation_of a b]: the azimuth a is the mirror image -b of b, modulo
    360 degrees. *)
Definition negation_of (a b : R) : Prop :=
  exists k : Z, a = - b + 360 * IZR k.


(** [supplement_of a b]: the azimuth a is the mirror image 180 - b of b in
    the east-west line, modulo 360 degrees. *)
Definition supplement_of (a b : R) : Prop :=
  exists k : Z, a = 180 - b + 360 * IZR k.

(** [GeodesicLine_flip l]: the line l with the sign of its azimuth,
    _bsign, reversed and every other member unchanged. *)
Definition GeodesicLine_flip (l : GeodesicLine) : GeodesicLine :=
  mkGeodesicLine (- _bsign l) (_lat1 l) (_lon1 l) (_azi1 l) (_lf1 l)
    (_salp0 l) (_calp0 l) (_ssig1 l) (_csig1 l) (_slam1 l) (_clam1 l)
    (_sScale l) (_sigCoeff l) (_dtau1 l) (_stau1 l) (_ctau1 l)
    (_dlamScale l) (_dlamCoeff l) (_dchi1 l).





(** * Properties *)

(** ** Boolean comparisons *)

Lemma Rltb_true x y : (x <? y) = true <-> x < y.
Proof. unfold Rltb; destruct (Rlt_dec x y); split; intros; try easy. Qed.

Lemma Rltb_false x y : (x <? y) = false <-> y <= x.
Proof.
  unfold Rltb; destruct (Rlt_dec x y); split; intros; try easy; lra.
Qed.

Lemma Rleb_true x y : (x <=? y) = true <-> x <= y.
Proof. unfold Rleb; destruct (Rle_dec x y); split; intros; try easy. Qed.

Lemma Rleb_false x y : (x <=? y) = false <-> y < x.
Proof.
  unfold Rleb; destruct (Rle_dec x y); split; intros; try easy; lra.
Qed.

Lemma Reqb_true x y : (x =? y) = true <-> x = y.
Proof. unfold Reqb; destruct (Req_dec_T x y); split; intros; try easy. Qed.

Lemma Reqb_false x y : (x =? y) = false <-> x <> y.
Proof. unfold Reqb; destruct (Req_dec_T x y); split; intros; try easy. Qed.

Lemma Reqb_refl x : (x =? x) = true.
Proof. now apply Reqb_true. Qed.

(** Decide a comparison of doubles that [lra] can settle. *)
Ltac rcmp :=
  repeat match goal with
  | |- context [?x <? ?y] =>
      first [ replace (x <? y) with true by (symmetry; apply Rltb_true; lra)
            | replace (x <? y) with false by (symmetry; apply Rltb_false; lra) ]
  | |- context [?x <=? ?y] =>
      first [ replace (x <=? y) with true by (symmetry; apply Rleb_true; lra)
            | replace (x <=? y) with false by (symmetry; apply Rleb_false; lra) ]
  | |- context [?x =? ?y] =>
      first [ replace (x =? y) with true by (symmetry; apply Reqb_true; lra)
            | replace (x =? y) with false by (symmetry; apply Reqb_false; lra) ]
  end.

(** ** Constants *)

Lemma double_min_pos : 0 < double_min.
Proof. unfold double_min. apply Rinv_0_lt_compat, pow_lt; lra. Qed.

Lemma double_epsilon_pos : 0 < double_epsilon.
Proof. unfold double_epsilon. apply Rinv_0_lt_compat, pow_lt; lra. Qed.

Lemma double_epsilon_small : double_epsilon < 1 / 1000.
Proof.
  unfold double_epsilon.
  replace (1 / 1000) with (/ 1000) by lra.
  apply Rinv_lt_contravar.
  - apply Rmult_lt_0_compat; [lra | apply pow_lt; lra].
  - replace (2 ^ 52) with (2 ^ 10 * 2 ^ 42) by (rewrite <- pow_add; reflexivity).
    assert (1 <= 2 ^ 42) by (apply pow_R1_Rle; lra).
    assert (2 ^ 10 = 1024) by (simpl; lra).
    nra.
Qed.

Lemma eps2_pos : 0 < eps2.
Proof. apply sqrt_lt_R0, double_min_pos. Qed.

Lemma tol_pos : 0 < tol.
Proof. unfold tol. pose proof double_epsilon_pos. lra. Qed.

Lemma degree_pos : 0 < degree.
Proof. unfold degree. pose proof PI_RGT_0. lra. Qed.

Lemma AngRound_threshold_pos : 0 < AngRound_threshold.
Proof. unfold AngRound_threshold. pose proof double_epsilon_pos. lra. Qed.

Lemma AngRound_threshold_small : AngRound_threshold < 1.
Proof. unfold AngRound_threshold. pose proof double_epsilon_small. lra. Qed.

(** ** hypot and SinCosNorm *)

Lemma hypot_nonneg x y : 0 <= hypot x y.
Proof. apply sqrt_pos. Qed.

Lemma hypot_pos x y : x <> 0 \/ y <> 0 -> 0 < hypot x y.
Proof.
  intros H. apply sqrt_lt_R0.
  destruct H as [H | H]; nra.
Qed.

Lemma hypot_ge_l x y : Rabs x <= hypot x y.
Proof.
  unfold hypot. rewrite <- (sqrt_Rsqr_abs x).
  apply sqrt_le_1_alt. unfold Rsqr. nra.
Qed.

Lemma hypot_ge_r x y : Rabs y <= hypot x y.
Proof.
  unfold hypot. rewrite <- (sqrt_Rsqr_abs y).
  apply sqrt_le_1_alt. unfold Rsqr. nra.
Qed.

Lemma hypot_0_r x : hypot x 0 = Rabs x.
Proof.
  unfold hypot. rewrite <- (sqrt_Rsqr_abs x). f_equal. unfold Rsqr. ring.
Qed.

Lemma hypot_0_l y : hypot 0 y = Rabs y.
Proof.
  unfold hypot. rewrite <- (sqrt_Rsqr_abs y). f_equal. unfold Rsqr. ring.
Qed.

Lemma hypot_unit x y : x * x + y * y = 1 -> hypot x y = 1.
Proof. intros H. unfold hypot. rewrite H. apply sqrt_1. Qed.

Lemma SinCosNorm_unit x y : x * x + y * y = 1 -> SinCosNorm x y = (x, y).
Proof.
  intros H. unfold SinCosNorm. rewrite (hypot_unit _ _ H).
  f_equal; field.
Qed.

(** ** SinSeries (claim C7) *)

(** The three-term recurrence of sin(2 k x) in k. *)
Lemma sin_2k_recurrence (x : R) (k : nat) :
  sin (2 * INR (S (S k)) * x) =
  2 * cos (2 * x) * sin (2 * INR (S k) * x) - sin (2 * INR k * x).
Proof.
  rewrite !S_INR.
  replace (2 * (INR k + 1 + 1) * x) with (2 * (INR k + 1) * x + 2 * x) by ring.
  replace (2 * INR k * x) with (2 * (INR k + 1) * x - 2 * x) by ring.
  rewrite sin_plus, sin_minus. ring.
Qed.

(** What the loop keeps invariant: with y0, y1 the accumulators on entry
    with counter j, the weighted result is the partial sum up to j plus the
    two boundary terms. *)
Lemma SinSeries_loop_sum (x : R) (c : list R) (j : nat) :
  forall y0 y1 : R,
    sin (2 * x) * SinSeries_loop (2 * cos (2 * x)) c j y0 y1 =
    sin_sum x c j + y0 * sin (2 * INR (S j) * x) - y1 * sin (2 * INR j * x).
Proof.
  induction j as [| j IH]; intros y0 y1.
  - simpl. rewrite !Rmult_0_r, Rmult_0_l, sin_0, Rmult_1_r. ring.
  - cbn [SinSeries_loop sin_sum]. rewrite IH.
    rewrite (sin_2k_recurrence x j). ring.
Qed.

Lemma SinSeries_ar (x : R) : 2 * (sq (cos x) - sq (sin x)) = 2 * cos (2 * x).
Proof. unfold sq. rewrite cos_2a. ring. Qed.

Lemma SinSeries_sum (x : R) (c : list R) (n : nat) :
  (1 <= n)%nat ->
  SinSeries (sin x) (cos x) c n = sin_sum x c n.
Proof.
  intros Hn. destruct n as [| m]; [lia |].
  unfold SinSeries. rewrite SinSeries_ar.
  replace (S m - 1)%nat with m by lia.
  replace (2 * sin x * cos x) with (sin (2 * x)) by (rewrite sin_2a; ring).
  rewrite SinSeries_loop_sum. cbn [sin_sum]. ring.
Qed.

(** The loop computes the Clenshaw sequence of the spec, from the top
    index down. *)
Lemma SinSeries_loop_clenshaw (ar : R) (c : list R) (n : nat) :
  forall j d : nat,
    (j + d + 1 = n)%nat ->
    SinSeries_loop ar c j (fst (clenshaw_y ar c n d))
                          (snd (clenshaw_y ar c n d)) =
    fst (clenshaw_y ar c n (n - 1)).
Proof.
  induction j as [| j IH]; intros d Hd.
  - simpl. replace (n - 1)%nat with d by lia. reflexivity.
  - cbn [SinSeries_loop].
    specialize (IH (S d) ltac:(lia)).
    cbn [clenshaw_y] in IH.
    destruct (clenshaw_y ar c n d) as [yk yk1] eqn:E.
    cbn [fst snd] in *.
    replace (n - d - 2)%nat with j in IH by lia.
    exact IH.
Qed.

(** Every point of the unit circle is (sin x, cos x) for some x. *)
Lemma unit_pair_angle (s c : R) :
  s * s + c * c = 1 -> exists x : R, sin x = s /\ cos x = c.
Proof.
  intros H.
  assert (Hc : -1 <= c <= 1) by (split; nra).
  assert (Hs : sin (acos c) = Rabs s).
  { rewrite sin_acos by exact Hc.
    rewrite <- (sqrt_Rsqr_abs s). f_equal. unfold Rsqr. nra. }
  destruct (Rle_lt_dec 0 s) as [Hs0 | Hs0].
  - exists (acos c). split.
    + rewrite Hs. apply Rabs_pos_eq; exact Hs0.
    + apply cos_acos; exact Hc.
  - exists (- acos c). split.
    + rewrite sin_neg, Hs. rewrite Rabs_left by exact Hs0. ring.
    + rewrite cos_neg. apply cos_acos; exact Hc.
Qed.

(** C7.  For n >= 1, an array c of at least n coefficients and a pair
    (sinx, cosx) on the unit circle, the pair is (sin x, cos x) for some x,
    SinSeries(sinx, cosx, c, n) is the sum of c[k-1] sin(2 k x) over
    k = 1..n for every such x, and it is 2 sinx cosx times the first term
    of the Clenshaw sequence started from y = 0 and y = c[n-1] with the
    multiplier 2 (cosx^2 - sinx^2). *)
Theorem SinSeries_clenshaw_sum (n : nat) (c : list R) (sinx cosx : R) :
  (1 <= n)%nat ->
  (n <= length c)%nat ->
  sinx * sinx + cosx * cosx = 1 ->
  (exists x : R, sin x = sinx /\ cos x = cosx) /\
  (forall x : R, sin x = sinx -> cos x = cosx ->
     SinSeries sinx cosx c n = sin_sum x c n) /\
  SinSeries sinx cosx c n =
    2 * sinx * cosx *
    fst (clenshaw_y (2 * (cosx * cosx - sinx * sinx)) c n (n - 1)).
Proof.
  intros Hn Hlen Hunit. split; [| split].
  - apply unit_pair_angle; exact Hunit.
  - intros x Hs Hc. subst sinx cosx. apply SinSeries_sum; exact Hn.
  - unfold SinSeries, sq. f_equal.
    apply (SinSeries_loop_clenshaw _ c n (n - 1) 0). lia.
Qed.

Lemma SinSeries_clenshaw_sum_witness :
  (exists x : R, sin x = 0 /\ cos x = 1) /\
  (forall x : R, sin x = 0 -> cos x = 1 ->
     SinSeries 0 1 [3; 5] 2 = sin_sum x [3; 5] 2) /\
  SinSeries 0 1 [3; 5] 2 =
    2 * 0 * 1 * fst (clenshaw_y (2 * (1 * 1 - 0 * 0)) [3; 5] 2 (2 - 1)).
Proof.
  apply (SinSeries_clenshaw_sum 2 [3; 5] 0 1).
  - lia.
  - simpl; lia.
  - lra.
Defined.

(** ** GeodesicLine::Position on an uninitialized line (claim C9) *)

(** C9.  On a line whose _sScale is 0, Position returns at once: for every
    s12 the three output arguments keep the values they came in with, and
    the result does not depend on any other field of the line. *)
Theorem Position_uninitialized (l : GeodesicLine) (s12 lat2 lon2 azi2 : R) :
  _sScale l = 0 ->
  Position l s12 (lat2, lon2, azi2) = (lat2, lon2, azi2) /\
  (forall l' : GeodesicLine,
     _sScale l' = 0 ->
     Position l' s12 (lat2, lon2, azi2) = Position l s12 (lat2, lon2, azi2)).
Proof.
  intros H.
  assert (E : forall k, _sScale k = 0 ->
                        Position k s12 (lat2, lon2, azi2) = (lat2, lon2, azi2)).
  { intros k Hk. unfold Position. rewrite Hk, Reqb_refl. reflexivity. }
  split.
  - apply E; exact H.
  - intros l' H'. rewrite (E l H), (E l' H'). reflexivity.
Qed.

Lemma Position_uninitialized_witness :
  Position GeodesicLine_uninitialized 1000 (10, 20, 30) = (10, 20, 30) /\
  (forall l' : GeodesicLine,
     _sScale l' = 0 ->
     Position l' 1000 (10, 20, 30) =
     Position GeodesicLine_uninitialized 1000 (10, 20, 30)).
Proof.
  apply (Position_uninitialized GeodesicLine_uninitialized 1000 10 20 30).
  reflexivity.
Defined.

(** ** The entry guard of Chi12 (claim C10) *)

Lemma Chi12_calp1_guard : Chi12_calp1 0 0 = - eps2.
Proof. unfold Chi12_calp1. rewrite !Reqb_refl. reflexivity. Qed.




(** ** floor, AngNormalize and AngRound *)

Lemma floor_spec (x : R) : floor x <= x < floor x + 1.
Proof. unfold floor. pose proof (base_Int_part x). lra. Qed.

Lemma floor_unique (x : R) (k : Z) : IZR k <= x < IZR k + 1 -> floor x = IZR k.
Proof.
  intros H. unfold floor. f_equal. symmetry. apply Int_part_spec. lra.
Qed.

Lemma AngNormalize_range (x : R) : -180 < AngNormalize x <= 180.
Proof. unfold AngNormalize. pose proof (floor_spec ((180 - x) / 360)). lra. Qed.

Lemma AngNormalize_unique (x : R) (k : Z) :
  -180 < x + 360 * IZR k <= 180 -> AngNormalize x = x + 360 * IZR k.
Proof.
  intros H. unfold AngNormalize.
  rewrite (floor_unique ((180 - x) / 360) k); [reflexivity | lra].
Qed.

Lemma AngNormalize_id (x : R) : -180 < x <= 180 -> AngNormalize x = x.
Proof.
  intros H. rewrite (AngNormalize_unique x 0); simpl; lra.
Qed.

Lemma AngNormalize_shift (x : R) :
  exists k : Z, AngNormalize x = x + 360 * IZR k.
Proof. exists (Int_part ((180 - x) / 360)). reflexivity. Qed.

(** The map is odd except at the closed end of its range. *)
Lemma AngNormalize_opp (x : R) :
  AngNormalize (- x) = - AngNormalize x \/
  (AngNormalize x = 180 /\ AngNormalize (- x) = 180).
Proof.
  pose proof (AngNormalize_range x) as Hr.
  destruct (AngNormalize_shift x) as [k Hk].
  destruct (Req_dec_T (AngNormalize x) 180) as [E | NE].
  - right. split; [exact E |].
    rewrite (AngNormalize_unique (- x) (1 - k)%Z); rewrite minus_IZR; lra.
  - left.
    rewrite (AngNormalize_unique (- x) (- k)%Z); rewrite opp_IZR; lra.
Qed.

Lemma AngRound_cases (x : R) : AngRound x = 0 \/ AngRound x = x.
Proof. unfold AngRound. destruct (_ <? _); auto. Qed.

Lemma AngRound_keeps (x : R) : AngRound_threshold <= Rabs x -> AngRound x = x.
Proof.
  intros H. unfold AngRound.
  replace (_ <? _) with false by (symmetry; apply Rltb_false; exact H).
  reflexivity.
Qed.

Lemma AngRound_0 : AngRound 0 = 0.
Proof. destruct (AngRound_cases 0); lra. Qed.

Lemma AngRound_opp (x : R) : AngRound (- x) = - AngRound x.
Proof.
  unfold AngRound. rewrite Rabs_Ropp. destruct (_ <? _); lra.
Qed.

Lemma AngRound_abs (x : R) : Rabs (AngRound x) <= Rabs x.
Proof.
  destruct (AngRound_cases x) as [E | E]; rewrite E.
  - rewrite Rabs_R0. apply Rabs_pos.
  - lra.
Qed.

(** ** Canonical form (claim C6) *)

(** Split on the comparisons of doubles in the goal. *)
Ltac case_cmp :=
  match goal with
  | |- context [?x <=? ?y] =>
      let H := fresh "Hc" in
      destruct (x <=? y) eqn:H;
      [apply Rleb_true in H | apply Rleb_false in H]
  | |- context [?x <? ?y] =>
      let H := fresh "Hc" in
      destruct (x <? y) eqn:H;
      [apply Rltb_true in H | apply Rltb_false in H]
  | |- context [?x =? ?y] =>
      let H := fresh "Hc" in
      destruct (x =? y) eqn:H;
      [apply Reqb_true in H | apply Reqb_false in H]
  end.

Ltac split_abs :=
  unfold Rabs in *;
  repeat match goal with
  | H : context [Rcase_abs ?x] |- _ => destruct (Rcase_abs x)
  | |- context [Rcase_abs ?x] => destruct (Rcase_abs x)
  end.

Lemma lon12_raw_range (lon1 lon2 : R) : -180 <= lon12_raw lon1 lon2 <= 180.
Proof.
  unfold lon12_raw.
  pose proof (AngNormalize_range (AngNormalize lon2 - AngNormalize lon1)) as H.
  destruct (AngRound_cases (AngNormalize (AngNormalize lon2 - AngNormalize lon1)))
    as [E | E]; rewrite E; lra.
Qed.

(** The canonical coordinates, one case of the sign tests at a time. *)
Lemma Inverse_canonical_facts (lat1 lon1 lat2 lon2 : R) :
  Rabs lat1 <= 90 -> Rabs lat2 <= 90 ->
  let k := Inverse_canonical lat1 lon1 lat2 lon2 in
  (0 <= c_lon12 k <= 180) /\
  (-90 <= c_lat1 k <= 0) /\
  (c_lat1 k <= c_lat2 k <= - c_lat1 k) /\
  (c_lonsign k = 1 \/ c_lonsign k = -1)%Z /\
  (c_swapp k = 1 \/ c_swapp k = -1)%Z /\
  (c_latsign k = 1 \/ c_latsign k = -1)%Z /\
  lon12_raw lon1 lon2 = IZR (c_lonsign k * c_swapp k) * c_lon12 k /\
  (c_swapp k = 1%Z ->
     AngRound lat1 = IZR (c_latsign k) * c_lat1 k /\
     AngRound lat2 = IZR (c_latsign k) * c_lat2 k) /\
  (c_swapp k = (-1)%Z ->
     AngRound lat2 = IZR (c_latsign k) * c_lat1 k /\
     AngRound lat1 = IZR (c_latsign k) * c_lat2 k).
Proof.
  intros H1 H2.
  pose proof (lon12_raw_range lon1 lon2) as HL.
  pose proof (AngRound_abs lat1) as HA1.
  pose proof (AngRound_abs lat2) as HA2.
  unfold Inverse_canonical.
  fold (lon12_raw lon1 lon2).
  set (N := lon12_raw lon1 lon2) in *.
  set (A1 := AngRound lat1) in *.
  set (A2 := AngRound lat2) in *.
  clearbody N A1 A2.
  cbv zeta.
  destruct (0 <=? N) eqn:EN;
    [apply Rleb_true in EN | apply Rleb_false in EN];
  (destruct (Rabs A2 <=? Rabs A1) eqn:ES;
    [apply Rleb_true in ES | apply Rleb_false in ES]);
  cbn [Z.ltb Z.compare Z.mul Pos.mul];
  cbv iota beta;
  case_cmp; cbn [c_lon12 c_lat1 c_lat2 c_lonsign c_swapp c_latsign];
  cbn [Z.mul Pos.mul Z.opp];
  repeat split; try (left; reflexivity); try (right; reflexivity);
  try discriminate; try (intros _);
  try (split_abs; lra).
Qed.

(** C6.  After the canonicalization of Inverse, for latitudes within 90
    degrees of the equator: 0 <= lon12 <= 180, -90 <= lat1 <= 0 and
    lat1 <= lat2 <= -lat1; the three flags are signs, and they record the
    transformation: lonsign * swapp gives back the signed longitude
    difference, latsign gives back the rounded latitudes, exchanged when
    swapp is -1. *)
Theorem Inverse_canonical_invariant (lat1 lon1 lat2 lon2 : R) :
  Rabs lat1 <= 90 -> Rabs lat2 <= 90 ->
  let k := Inverse_canonical lat1 lon1 lat2 lon2 in
  (0 <= c_lon12 k <= 180) /\
  (-90 <= c_lat1 k <= 0) /\
  (c_lat1 k <= c_lat2 k <= - c_lat1 k) /\
  (c_lonsign k = 1 \/ c_lonsign k = -1)%Z /\
  (c_swapp k = 1 \/ c_swapp k = -1)%Z /\
  (c_latsign k = 1 \/ c_latsign k = -1)%Z /\
  AngRound (AngNormalize (AngNormalize lon2 - AngNormalize lon1)) =
    IZR (c_lonsign k * c_swapp k) * c_lon12 k /\
  (c_swapp k = 1%Z ->
     AngRound lat1 = IZR (c_latsign k) * c_lat1 k /\
     AngRound lat2 = IZR (c_latsign k) * c_lat2 k) /\
  (c_swapp k = (-1)%Z ->
     AngRound lat2 = IZR (c_latsign k) * c_lat1 k /\
     AngRound lat1 = IZR (c_latsign k) * c_lat2 k).
Proof.
  intros H1 H2. exact (Inverse_canonical_facts lat1 lon1 lat2 lon2 H1 H2).
Qed.

(** Absolute values of numerals. *)
Ltac abs_numeral :=
  repeat match goal with
  | |- context [Rabs ?x] =>
      first [ rewrite (Rabs_pos_eq x) by lra
            | rewrite (Rabs_left x) by lra ]
  end.

Lemma Inverse_canonical_invariant_witness :
  let k := Inverse_canonical 10 20 (-30) 50 in
  (0 <= c_lon12 k <= 180) /\
  (-90 <= c_lat1 k <= 0) /\
  (c_lat1 k <= c_lat2 k <= - c_lat1 k) /\
  (c_lonsign k = 1 \/ c_lonsign k = -1)%Z /\
  (c_swapp k = 1 \/ c_swapp k = -1)%Z /\
  (c_latsign k = 1 \/ c_latsign k = -1)%Z /\
  AngRound (AngNormalize (AngNormalize 50 - AngNormalize 20)) =
    IZR (c_lonsign k * c_swapp k) * c_lon12 k /\
  (c_swapp k = 1%Z ->
     AngRound 10 = IZR (c_latsign k) * c_lat1 k /\
     AngRound (-30) = IZR (c_latsign k) * c_lat2 k) /\
  (c_swapp k = (-1)%Z ->
     AngRound (-30) = IZR (c_latsign k) * c_lat1 k /\
     AngRound 10 = IZR (c_latsign k) * c_lat2 k).
Proof.
  apply (Inverse_canonical_invariant 10 20 (-30) 50).
  - abs_numeral; lra.
  - abs_numeral; lra.
Defined.

(** ** atan2 *)

Lemma atan_nonpos (x : R) : x <= 0 -> atan x <= 0.
Proof.
  intros [H | H].
  - left. rewrite <- atan_0. apply atan_increasing; exact H.
  - subst x. rewrite atan_0. lra.
Qed.

Lemma atan2_range (y x : R) : - PI < atan2 y x <= PI.
Proof.
  pose proof PI_RGT_0 as HPI.
  pose proof (atan_bound (y / x)) as Ha.
  unfold atan2.
  destruct (0 <? x) eqn:E1; [lra |].
  destruct (x <? 0) eqn:E2.
  - apply Rltb_true in E2.
    destruct (0 <=? y) eqn:E3.
    + apply Rleb_true in E3.
      assert (y / x <= 0).
      { replace (y / x) with (- (y * / (- x))) by (field; lra).
        assert (0 <= y * / - x); [| lra].
        apply Rmult_le_pos; [lra |].
        left. apply Rinv_0_lt_compat; lra. }
      pose proof (atan_nonpos _ H). lra.
    + apply Rleb_false in E3.
      assert (0 < y / x).
      { replace (y / x) with ((- y) * / (- x)) by (field; lra).
        apply Rmult_lt_0_compat; [lra |].
        apply Rinv_0_lt_compat; lra. }
      assert (0 < atan (y / x)).
      { rewrite <- atan_0. apply atan_increasing; assumption. }
      lra.
  - destruct (0 <? y); [lra |].
    destruct (y <? 0); lra.
Qed.

Lemma atan2_0_pos (x : R) : 0 < x -> atan2 0 x = 0.
Proof.
  intros H. unfold atan2.
  replace (0 <? x) with true by (symmetry; apply Rltb_true; lra).
  unfold Rdiv. rewrite Rmult_0_l. apply atan_0.
Qed.

Lemma atan2_0_neg (x : R) : x < 0 -> atan2 0 x = PI.
Proof.
  intros H. unfold atan2.
  replace (0 <? x) with false by (symmetry; apply Rltb_false; lra).
  replace (x <? 0) with true by (symmetry; apply Rltb_true; lra).
  replace (0 <=? 0) with true by (symmetry; apply Rleb_true; lra).
  unfold Rdiv. rewrite Rmult_0_l, atan_0. ring.
Qed.

Lemma atan2_pos_0 (y : R) : 0 < y -> atan2 y 0 = PI / 2.
Proof.
  intros H. unfold atan2.
  replace (0 <? 0) with false by (symmetry; apply Rltb_false; lra).
  replace (0 <? y) with true by (symmetry; apply Rltb_true; lra).
  reflexivity.
Qed.

Lemma atan2_neg_0 (y : R) : y < 0 -> atan2 y 0 = - (PI / 2).
Proof.
  intros H. unfold atan2.
  replace (0 <? 0) with false by (symmetry; apply Rltb_false; lra).
  replace (0 <? y) with false by (symmetry; apply Rltb_false; lra).
  replace (y <? 0) with true by (symmetry; apply Rltb_true; lra).
  reflexivity.
Qed.

(** Reversing a direction turns its angle by half a turn. *)
Lemma atan2_reverse (y x : R) :
  x <> 0 \/ y <> 0 ->
  atan2 (- y) (- x) = atan2 y x + PI \/ atan2 (- y) (- x) = atan2 y x - PI.
Proof.
  intros H. unfold atan2.
  destruct (Rtotal_order x 0) as [Hx | [Hx | Hx]].
  - (* x < 0 *)
    assert (E : - y / - x = y / x) by (field; lra).
    rewrite E.
    replace (0 <? - x) with true by (symmetry; apply Rltb_true; lra).
    replace (0 <? x) with false by (symmetry; apply Rltb_false; lra).
    replace (x <? 0) with true by (symmetry; apply Rltb_true; lra).
    destruct (0 <=? y); [right | left]; lra.
  - (* x = 0 *)
    subst x. rewrite Ropp_0.
    replace (0 <? 0) with false by (symmetry; apply Rltb_false; lra).
    destruct H as [H | H]; [lra |].
    destruct (Rtotal_order y 0) as [Hy | [Hy | Hy]]; [| lra |].
    + replace (0 <? - y) with true by (symmetry; apply Rltb_true; lra).
      replace (0 <? y) with false by (symmetry; apply Rltb_false; lra).
      replace (y <? 0) with true by (symmetry; apply Rltb_true; lra).
      left; lra.
    + replace (0 <? - y) with false by (symmetry; apply Rltb_false; lra).
      replace (- y <? 0) with true by (symmetry; apply Rltb_true; lra).
      replace (0 <? y) with true by (symmetry; apply Rltb_true; lra).
      right; lra.
  - (* 0 < x *)
    assert (E : - y / - x = y / x) by (field; lra).
    rewrite E.
    replace (0 <? - x) with false by (symmetry; apply Rltb_false; lra).
    replace (- x <? 0) with true by (symmetry; apply Rltb_true; lra).
    replace (0 <? x) with true by (symmetry; apply Rltb_true; lra).
    destruct (0 <=? - y); [left | right]; lra.
Qed.

(** The conversion of a direction to degrees used for every azimuth. *)
Lemma azimuth_range (y x : R) : -180 <= 0 - atan2 y x / degree < 180.
Proof.
  pose proof (atan2_range y x) as H.
  pose proof PI_RGT_0 as HPI.
  unfold degree.
  replace (atan2 y x / (PI / 180)) with (180 * (atan2 y x / PI))
    by (field; lra).
  assert (-1 < atan2 y x / PI <= 1).
  { split.
    - apply Rmult_lt_reg_r with PI; [lra |].
      unfold Rdiv. rewrite Rmult_assoc, Rinv_l by lra. lra.
    - apply Rmult_le_reg_r with PI; [lra |].
      unfold Rdiv. rewrite Rmult_assoc, Rinv_l by lra. lra. }
  lra.
Qed.

(** ** Unfolding Inverse *)

Lemma Inverse_eq (g : Geodesic) (lat1 lon1 lat2 lon2 : R) :
  Inverse g lat1 lon1 lat2 lon2 =
  let k := Inverse_canonical lat1 lon1 lat2 lon2 in
  let s := Inverse_solve g (c_lat1 k) (c_lat2 k) (c_lon12 k) in
  (s_s12 s,
   fst (Inverse_azimuths (c_lonsign k) (c_swapp k) (c_latsign k) s),
   snd (Inverse_azimuths (c_lonsign k) (c_swapp k) (c_latsign k) s)).
Proof.
  unfold Inverse. cbv zeta.
  destruct (Inverse_azimuths _ _ _ _). reflexivity.
Qed.

Lemma Inverse_azimuths_noswap (lonsign latsign : Z) (s : Solution) :
  Inverse_azimuths lonsign 1 latsign s =
  (0 - atan2 (IZR (- lonsign) * s_salp1 s) (IZR latsign * s_calp1 s) / degree,
   0 - atan2 (IZR (- lonsign) * s_salp2 s) (IZR latsign * s_calp2 s) / degree).
Proof.
  unfold Inverse_azimuths, azi2sense. cbn [Z.ltb Z.compare].
  cbv iota beta.
  repeat (f_equal; try lia).
Qed.



(** ** Evaluating the canonical form at given coordinates *)

Ltac norm_angles :=
  repeat match goal with
  | |- context [AngNormalize ?x] => rewrite (AngNormalize_id x) by lra
  | |- context [AngRound ?x] =>
      first [ replace (AngRound x) with 0
                by (replace x with 0 by lra; symmetry; apply AngRound_0)
            | rewrite (AngRound_keeps x)
                by (abs_numeral; pose proof AngRound_threshold_small; lra) ]
  end.


Lemma Inverse_canonical_opposite_meridian :
  Inverse_canonical (-30) 0 20 180 = mkCanonical 180 (-30) 20 1 1 1.
Proof.
  unfold Inverse_canonical.
  norm_angles.
  rcmp. abs_numeral. rcmp. cbn [Z.ltb Z.compare]. cbv iota beta.
  rcmp. f_equal; simpl; lra.
Qed.


(** ** The meridional case (claim C4) *)

Lemma sin_degrees_zero (lon12 : R) :
  0 <= lon12 <= 180 ->
  (sin (lon12 * degree) = 0 <-> lon12 = 0 \/ lon12 = 180).
Proof.
  intros H. pose proof PI_RGT_0 as HPI. unfold degree. split.
  - intros Hs.
    assert (H0 : 0 <= lon12 * (PI / 180)) by nra.
    assert (H1 : lon12 * (PI / 180) <= 2 * PI) by nra.
    destruct (sin_eq_O_2PI_0 _ H0 H1 Hs) as [E | [E | E]].
    + left. nra.
    + right. nra.
    + exfalso. nra.
  - intros [-> | ->].
    + rewrite Rmult_0_l. apply sin_0.
    + replace (180 * (PI / 180)) with PI by field. apply sin_PI.
Qed.

Lemma d_schi12_eq (g : Geodesic) (lat1 lat2 lon12 : R) :
  d_schi12 (Inverse_reduced g lat1 lat2 lon12) = sin (lon12 * degree).
Proof.
  unfold Inverse_reduced, SinCosNorm. cbn [d_schi12].
  case_cmp; [| reflexivity].
  subst lon12. unfold degree.
  replace (180 * (PI / 180)) with PI by field. symmetry; apply sin_PI.
Qed.

Lemma d_cchi12_eq (g : Geodesic) (lat1 lat2 lon12 : R) :
  d_cchi12 (Inverse_reduced g lat1 lat2 lon12) = cos (lon12 * degree).
Proof. unfold Inverse_reduced, SinCosNorm. reflexivity. Qed.

Lemma Inverse_case_meridional (g : Geodesic) (lat1 lat2 lon12 : R) :
  0 <= lon12 <= 180 ->
  (Inverse_case g lat1 lat2 lon12 = Meridional <->
   lon12 = 0 \/ lon12 = 180 \/ lat1 = -90).
Proof.
  intros H. unfold Inverse_case. cbv zeta.
  rewrite d_schi12_eq.
  pose proof (sin_degrees_zero lon12 H) as Hs.
  destruct (sin (lon12 * degree) =? 0) eqn:E1;
    [apply Reqb_true in E1 | apply Reqb_false in E1];
  (destruct (lat1 =? -90) eqn:E2;
    [apply Reqb_true in E2 | apply Reqb_false in E2]);
  cbn [orb].
  - tauto.
  - tauto.
  - tauto.
  - split.
    + destruct (_ && _); discriminate.
    + intros [E | [E | E]]; tauto.
Qed.

Lemma Inverse_solve_meridional (g : Geodesic) (lat1 lat2 lon12 : R) :
  Inverse_case g lat1 lat2 lon12 = Meridional ->
  Inverse_solve g lat1 lat2 lon12 =
  Inverse_meridional g (Inverse_reduced g lat1 lat2 lon12).
Proof. intros H. unfold Inverse_solve. rewrite H. reflexivity. Qed.

Lemma Inverse_meridional_directions (g : Geodesic) (d : Reduced) :
  s_salp1 (Inverse_meridional g d) = d_schi12 d /\
  s_calp1 (Inverse_meridional g d) = d_cchi12 d /\
  s_salp2 (Inverse_meridional g d) = 0 /\
  s_calp2 (Inverse_meridional g d) = 1.
Proof. unfold Inverse_meridional, SinCosNorm. cbn. auto. Qed.

(** The antipodal meridian is a meridional case too: lon12 = 180 with
    lat1 = -30 takes the branch. *)
Lemma Inverse_meridional_at_180 :
  let k := Inverse_canonical (-30) 0 20 180 in
  Inverse_case WGS84 (c_lat1 k) (c_lat2 k) (c_lon12 k) = Meridional /\
  c_lon12 k <> 0 /\ c_lat1 k <> -90.
Proof.
  rewrite Inverse_canonical_opposite_meridian.
  cbn [c_lat1 c_lat2 c_lon12 c_lonsign c_swapp c_latsign].
  split; [| split; lra].
  apply Inverse_case_meridional; [lra | auto].
Qed.

(** C4, as the code has it.  For latitudes within 90 degrees, Inverse
    takes the meridional branch exactly when the canonical longitude
    difference is 0 or 180 or the canonical lat1 is -90; the branch sets
    sin alpha1 = sin lon12, cos alpha1 = cos lon12, sin alpha2 = 0,
    cos alpha2 = 1 and takes s12 from the tau series at u2 = ep2:
    s12 = b tauScale(ep2) (sig12 + S(sig2) - S(sig1)), where S is the sine
    series with the coefficients tauCoeff(ep2), (ssig1, csig1) is the
    normalized pair (sbet1, cos lon12 cbet1), (ssig2, csig2) the normalized
    pair (sbet2, cbet2), and sig12 the angle from sig1 to sig2 by atan2,
    its sine clamped at 0. *)
Theorem Inverse_meridional_branch (g : Geodesic) (lat1 lon1 lat2 lon2 : R) :
  Rabs lat1 <= 90 -> Rabs lat2 <= 90 ->
  let k := Inverse_canonical lat1 lon1 lat2 lon2 in
  let d := Inverse_reduced g (c_lat1 k) (c_lat2 k) (c_lon12 k) in
  let s := Inverse_solve g (c_lat1 k) (c_lat2 k) (c_lon12 k) in
  (Inverse_case g (c_lat1 k) (c_lat2 k) (c_lon12 k) = Meridional <->
   c_lon12 k = 0 \/ c_lon12 k = 180 \/ c_lat1 k = -90) /\
  (Inverse_case g (c_lat1 k) (c_lat2 k) (c_lon12 k) = Meridional ->
   s_salp1 s = sin (c_lon12 k * degree) /\
   s_calp1 s = cos (c_lon12 k * degree) /\
   s_salp2 s = 0 /\
   s_calp2 s = 1 /\
   let '(ssig1, csig1) :=
     SinCosNorm (d_sbet1 d) (cos (c_lon12 k * degree) * d_cbet1 d) in
   let '(ssig2, csig2) := SinCosNorm (d_sbet2 d) (d_cbet2 d) in
   let sig12 := atan2 (Rmax (csig1 * ssig2 - ssig1 * csig2) 0)
                      (csig1 * csig2 + ssig1 * ssig2) in
   s_s12 s =
   _b g * tauScale (_ep2 g) *
   (sig12 + (SinSeries ssig2 csig2 (tauCoeff (_ep2 g)) maxpow_taucoef -
             SinSeries ssig1 csig1 (tauCoeff (_ep2 g)) maxpow_taucoef))).
Proof.
  intros H1 H2 k d s.
  destruct (Inverse_canonical_facts lat1 lon1 lat2 lon2 H1 H2) as [Hlon _].
  fold k in Hlon.
  split.
  - apply Inverse_case_meridional; exact Hlon.
  - intros Hm. subst s.
    rewrite (Inverse_solve_meridional _ _ _ _ Hm). fold d.
    destruct (Inverse_meridional_directions g d) as (E1 & E2 & E3 & E4).
    rewrite E1, E2, E3, E4.
    unfold d at 1 2. rewrite d_schi12_eq, d_cchi12_eq.
    repeat split; try reflexivity.
    unfold Inverse_meridional.
    rewrite (d_cchi12_eq g (c_lat1 k) (c_lat2 k) (c_lon12 k) : d_cchi12 d = _).
    rewrite (Rmult_1_l (d_cbet2 d)).
    destruct (SinCosNorm (d_sbet1 d) _) as [ssig1 csig1].
    destruct (SinCosNorm (d_sbet2 d) (d_cbet2 d)) as [ssig2 csig2].
    reflexivity.
Qed.

Lemma Inverse_meridional_branch_witness :
  let k := Inverse_canonical (-30) 0 20 180 in
  let d := Inverse_reduced WGS84 (c_lat1 k) (c_lat2 k) (c_lon12 k) in
  let s := Inverse_solve WGS84 (c_lat1 k) (c_lat2 k) (c_lon12 k) in
  (Inverse_case WGS84 (c_lat1 k) (c_lat2 k) (c_lon12 k) = Meridional <->
   c_lon12 k = 0 \/ c_lon12 k = 180 \/ c_lat1 k = -90) /\
  (Inverse_case WGS84 (c_lat1 k) (c_lat2 k) (c_lon12 k) = Meridional ->
   s_salp1 s = sin (c_lon12 k * degree) /\
   s_calp1 s = cos (c_lon12 k * degree) /\
   s_salp2 s = 0 /\
   s_calp2 s = 1 /\
   let '(ssig1, csig1) :=
     SinCosNorm (d_sbet1 d) (cos (c_lon12 k * degree) * d_cbet1 d) in
   let '(ssig2, csig2) := SinCosNorm (d_sbet2 d) (d_cbet2 d) in
   let sig12 := atan2 (Rmax (csig1 * ssig2 - ssig1 * csig2) 0)
                      (csig1 * csig2 + ssig1 * ssig2) in
   s_s12 s =
   _b WGS84 * tauScale (_ep2 WGS84) *
   (sig12 + (SinSeries ssig2 csig2 (tauCoeff (_ep2 WGS84)) maxpow_taucoef -
             SinSeries ssig1 csig1 (tauCoeff (_ep2 WGS84)) maxpow_taucoef))).
Proof.
  apply (Inverse_meridional_branch WGS84 (-30) 0 20 180).
  - abs_numeral; lra.
  - abs_numeral; lra.
Defined.

(** ** Range of the azimuths (claim C3) *)





(** ** The series at the equatorial geodesic (mu = 0, u2 = 0) *)

Lemma tauScale_0 : tauScale 0 = 1.
Proof. unfold tauScale. field. Qed.

Lemma tauCoeff_0 : tauCoeff 0 = zeros8.
Proof. unfold tauCoeff, zeros8. cbv zeta. repeat (f_equal; try field). Qed.

Lemma sigCoeff_0 : sigCoeff 0 = zeros8.
Proof. unfold sigCoeff, zeros8. cbv zeta. repeat (f_equal; try field). Qed.

Lemma dlamScale_0 (f : R) : dlamScale f 0 = - f.
Proof. unfold dlamScale. cbv zeta. field. Qed.

Lemma dlamCoeff_0 (f : R) : dlamCoeff f 0 = zeros8.
Proof. unfold dlamCoeff, zeros8. cbv zeta. repeat (f_equal; try field). Qed.

Lemma SinSeries_zeros8 (sinx cosx : R) : SinSeries sinx cosx zeros8 8 = 0.
Proof. unfold SinSeries, zeros8. simpl. ring. Qed.

(** ** The geodesic line along the equator *)

Lemma sin_90_degree : sin (90 * degree) = 1.
Proof.
  unfold degree. replace (90 * (PI / 180)) with (PI / 2) by field.
  apply sin_PI2.
Qed.

Lemma SinCosNorm_0_1 : SinCosNorm 0 1 = (0, 1).
Proof. apply SinCosNorm_unit. lra. Qed.

Lemma GeodesicLine_new_equator (g : Geodesic) (lon1 : R) :
  GeodesicLine_new g 0 lon1 90 =
  mkGeodesicLine 1 0 (AngNormalize lon1) 90 (_f1 g) 1 0 0 1 0 1 (_b g)
                 zeros8 0 0 1 (- _f g) zeros8 0.
Proof.
  unfold GeodesicLine_new.
  rewrite (AngNormalize_id 90) by lra.
  rcmp. cbv iota beta.
  rewrite (AngRound_keeps 90)
    by (abs_numeral; pose proof AngRound_threshold_small; lra).
  rcmp. replace (90 * 1) with 90 by lra.
  rewrite sin_90_degree.
  rewrite Rmult_0_l, sin_0, cos_0, Rmult_0_r.
  abs_numeral. rcmp.
  rewrite SinCosNorm_0_1.
  rcmp. cbn [negb orb].
  rewrite SinCosNorm_0_1.
  replace (1 * 1 * 0) with 0 by ring.
  rewrite SinCosNorm_0_1.
  replace (hypot 0 (1 * 0)) with 0
    by (rewrite hypot_0_l, Rmult_0_r, Rabs_R0; reflexivity).
  replace (sq 0 * _ep2 g) with 0 by (unfold sq; ring).
  replace (sq 0) with 0 by (unfold sq; ring).
  unfold maxpow_taucoef, maxpow_lamcoef.
  rewrite tauCoeff_0, sigCoeff_0, dlamCoeff_0, dlamScale_0, tauScale_0.
  rewrite !SinSeries_zeros8, sin_0, cos_0.
  f_equal; ring.
Qed.

(** atan2 gives back the angle of a point of the unit circle. *)
Lemma atan2_sin_cos (t : R) : - PI < t <= PI -> atan2 (sin t) (cos t) = t.
Proof.
  intros [Hlo Hhi]. pose proof PI_RGT_0 as HPI.
  destruct (Rtotal_order t (- (PI / 2))) as [H1 | [H1 | H1]].
  - (* -PI < t < -PI/2 *)
    assert (Hc : cos t < 0).
    { rewrite <- cos_neg. apply cos_lt_0; lra. }
    assert (Hs : sin t < 0).
    { assert (0 < sin (- t)) by (apply sin_gt_0; lra).
      rewrite sin_neg in H. lra. }
    unfold atan2.
    replace (0 <? cos t) with false by (symmetry; apply Rltb_false; lra).
    replace (cos t <? 0) with true by (symmetry; apply Rltb_true; lra).
    replace (0 <=? sin t) with false by (symmetry; apply Rleb_false; lra).
    replace (sin t / cos t) with (tan (t + PI)).
    + rewrite atan_tan by lra. ring.
    + unfold tan. rewrite sin_plus, cos_plus, sin_PI, cos_PI. field. lra.
  - (* t = -PI/2 *)
    subst t. rewrite sin_neg, cos_neg, sin_PI2, cos_PI2.
    apply atan2_neg_0. lra.
  - destruct (Rtotal_order t (PI / 2)) as [H2 | [H2 | H2]].
    + (* -PI/2 < t < PI/2 *)
      assert (Hc : 0 < cos t) by (apply cos_gt_0; lra).
      unfold atan2.
      replace (0 <? cos t) with true by (symmetry; apply Rltb_true; lra).
      fold (tan t). apply atan_tan. lra.
    + (* t = PI/2 *)
      subst t. rewrite sin_PI2, cos_PI2. apply atan2_pos_0. lra.
    + (* PI/2 < t <= PI *)
      assert (Hc : cos t < 0) by (apply cos_lt_0; lra).
      assert (Hs : 0 <= sin t) by (apply sin_ge_0; lra).
      unfold atan2.
      replace (0 <? cos t) with false by (symmetry; apply Rltb_false; lra).
      replace (cos t <? 0) with true by (symmetry; apply Rltb_true; lra).
      replace (0 <=? sin t) with true by (symmetry; apply Rleb_true; lra).
      replace (sin t / cos t) with (tan (t - PI)).
      * rewrite atan_tan by lra. ring.
      * unfold tan. rewrite sin_minus, cos_minus, sin_PI, cos_PI. field. lra.
Qed.

Lemma floor_0 (x : R) : 0 <= x < 1 -> floor x = 0.
Proof. intros H. apply (floor_unique x 0). lra. Qed.

(** Position along the equator: latitude 0, azimuth 90, and a longitude
    that moves by s12 / (a degree) when the ellipsoid has b = a f1. *)
Lemma Position_equator (g : Geodesic) (lon1 s12 : R) (out : R * R * R) :
  0 < _b g -> 0 < _f1 g ->
  - PI < s12 / _b g <= PI ->
  -180 <= s12 / _b g * (1 - _f g) / degree < 180 ->
  Position (GeodesicLine_new g 0 lon1 90) s12 out =
  (0, AngNormalize (AngNormalize lon1 + s12 / _b g * (1 - _f g) / degree), 90).
Proof.
  intros Hb Hf1 Ht Hl. pose proof PI_RGT_0 as HPI.
  rewrite GeodesicLine_new_equator.
  unfold Position.
  cbn [_sScale _dtau1 _stau1 _ctau1 _sigCoeff _ssig1 _csig1 _calp0 _salp0
       _clam1 _slam1 _dlamScale _dlamCoeff _dchi1 _bsign _lf1 _lon1].
  replace (_b g =? 0) with false by (symmetry; apply Reqb_false; lra).
  unfold maxpow_sigcoef, maxpow_lamcoef.
  cbv zeta.
  rewrite !SinSeries_zeros8.
  set (t := s12 / _b g) in *.
  replace (t + (0 + 0)) with t by ring.
  replace (0 * cos t + 1 * sin t) with (sin t) by ring.
  replace (1 * cos t - 0 * sin t) with (cos t) by ring.
  replace (0 * sin t) with 0 by ring.
  replace (0 * cos t) with 0 by ring.
  replace (1 * sin t * 1 - cos t * 0) with (sin t) by ring.
  replace (cos t * 1 + 1 * sin t * 0) with (cos t) by ring.
  rewrite (atan2_sin_cos t Ht).
  replace (hypot 1 0) with 1 by (rewrite hypot_0_r; abs_numeral; reflexivity).
  replace (t + - _f g * (t + (0 - 0))) with (t * (1 - _f g)) by ring.
  replace (1 * (t * (1 - _f g)) / degree) with (t * (1 - _f g) / degree)
    by (unfold Rdiv; ring).
  set (lon12 := t * (1 - _f g) / degree) in *.
  rewrite (floor_0 (lon12 / 360 + 0.5)) by lra.
  replace (lon12 - 360 * 0) with lon12 by ring.
  rewrite atan2_0_pos by lra.
  unfold azi2sense. simpl (IZR (- (1) * 1)). simpl (IZR 1).
  replace (-1 * 1) with (-1) by ring.
  replace (1 * 0) with 0 by ring.
  rewrite atan2_neg_0 by lra.
  f_equal; [f_equal |].
  - unfold Rdiv; ring.
  - unfold degree. field. lra.
Qed.

(** ** Inverse between two points of the equator *)

Lemma Inverse_canonical_equator (lon1 lon2 : R) :
  Inverse_canonical 0 lon1 0 lon2 =
  mkCanonical (Rabs (lon12_raw lon1 lon2)) 0 0
              (if 0 <=? lon12_raw lon1 lon2 then 1%Z else (-1)%Z) 1 (-1).
Proof.
  unfold Inverse_canonical. fold (lon12_raw lon1 lon2).
  set (N := lon12_raw lon1 lon2). clearbody N.
  rewrite AngRound_0. rcmp. cbn [Z.ltb Z.compare]. cbv iota beta. rcmp.
  destruct (0 <=? N) eqn:E;
    [apply Rleb_true in E | apply Rleb_false in E];
    f_equal; simpl; split_abs; lra.
Qed.

Lemma d_sbet1_equator (g : Geodesic) (lat2 lon12 : R) :
  d_sbet1 (Inverse_reduced g 0 lat2 lon12) = 0.
Proof.
  unfold Inverse_reduced, SinCosNorm. cbn [d_sbet1].
  rewrite Rmult_0_l, sin_0, Rmult_0_r. unfold Rdiv. ring.
Qed.

Lemma d_chi12_eq (g : Geodesic) (lat1 lat2 lon12 : R) :
  d_chi12 (Inverse_reduced g lat1 lat2 lon12) = lon12 * degree.
Proof. unfold Inverse_reduced, SinCosNorm. reflexivity. Qed.

Lemma Inverse_case_equator (g : Geodesic) (lon12 : R) :
  0 < lon12 < 180 ->
  lon12 * degree <= pi - _f g * pi ->
  Inverse_case g 0 0 lon12 = Equatorial.
Proof.
  intros H Hc. unfold Inverse_case. cbv zeta.
  rewrite d_schi12_eq, d_sbet1_equator, d_chi12_eq.
  assert (sin (lon12 * degree) <> 0).
  { intros E. apply sin_degrees_zero in E; lra. }
  replace (sin (lon12 * degree) =? 0) with false
    by (symmetry; apply Reqb_false; assumption).
  rcmp. cbn [orb andb].
  replace (lon12 * degree <=? pi - _f g * pi) with true
    by (symmetry; apply Rleb_true; assumption).
  reflexivity.
Qed.

(** Two points of the equator less than half a turn apart, far enough
    apart not to be rounded together, and within the equatorial bound:
    the distance is a times the longitude difference, the azimuths are
    due east or due west. *)
Lemma Inverse_equator (g : Geodesic) (lon1 lon2 : R) :
  let d := AngNormalize (AngNormalize lon2 - AngNormalize lon1) in
  AngRound_threshold <= Rabs d -> Rabs d < 180 ->
  Rabs d * degree <= pi - _f g * pi ->
  Inverse g 0 lon1 0 lon2 =
  (_a g * (Rabs d * degree),
   if 0 <=? d then 90 else -90,
   if 0 <=? d then 90 else -90).
Proof.
  intros d Hthr H180 Hc. pose proof PI_RGT_0 as HPI.
  pose proof AngRound_threshold_pos as Hpos.
  rewrite Inverse_eq. cbv zeta.
  rewrite Inverse_canonical_equator.
  unfold lon12_raw. fold d. rewrite (AngRound_keeps d Hthr).
  cbn [c_lon12 c_lat1 c_lat2 c_lonsign c_swapp c_latsign].
  rewrite Inverse_azimuths_noswap. cbn [fst snd].
  unfold Inverse_solve.
  rewrite Inverse_case_equator by (try split; lra).
  unfold Inverse_equatorial. cbn [s_s12 s_salp1 s_calp1 s_salp2 s_calp2].
  rewrite d_chi12_eq.
  simpl (IZR (-1)).
  replace (-1 * 0) with 0 by ring.
  destruct (0 <=? d) eqn:E.
  - simpl (IZR (- (1))). replace (-1 * 1) with (-1) by ring.
    rewrite atan2_neg_0 by lra.
    f_equal; [f_equal |]; unfold degree; field; lra.
  - simpl (IZR (- (-1))). replace (1 * 1) with 1 by ring.
    rewrite atan2_pos_0 by lra.
    f_equal; [f_equal |]; unfold degree; field; lra.
Qed.

(** ** WGS84 *)

Lemma WGS84_fields :
  _a WGS84 = 6378137 /\
  _f WGS84 = 1 / 298.257223563 /\
  _f1 WGS84 = 1 - _f WGS84 /\
  _b WGS84 = _a WGS84 * _f1 WGS84.
Proof.
  unfold WGS84, Geodesic_new, WGS84_a, WGS84_r. cbv zeta.
  rcmp. cbn. repeat split.
Qed.

Lemma WGS84_bounds :
  0 < _f WGS84 < 1 / 298 /\ 0 < _f1 WGS84 < 1 /\
  6356752 < _b WGS84 < 6356753.
Proof.
  destruct WGS84_fields as (Ea & Ef & Ef1 & Eb).
  rewrite Eb, Ef1, Ea, Ef. repeat split; lra.
Qed.

(** ** Direct followed by Inverse along the WGS84 equator *)

Lemma AngNormalize_idem (x : R) : AngNormalize (AngNormalize x) = AngNormalize x.
Proof. apply AngNormalize_id, AngNormalize_range. Qed.

(** The longitude difference Inverse sees after a move by [delta]. *)
Lemma lon12_after_move (lon1 delta : R) :
  -180 < delta <= 180 ->
  AngNormalize (AngNormalize (AngNormalize (AngNormalize lon1 + delta))
                - AngNormalize lon1) = delta.
Proof.
  intros H. rewrite AngNormalize_idem.
  destruct (AngNormalize_shift (AngNormalize lon1 + delta)) as [k Hk].
  rewrite Hk.
  rewrite (AngNormalize_unique _ (- k)%Z); rewrite opp_IZR; lra.
Qed.

(** East along the equator by s12 (west when s12 is negative), then the
    inverse problem between the two end points: Inverse gives the length
    |s12| of the shorter way and the azimuth of that way. *)
Lemma Direct_Inverse_equator_signed (lon1 s12 : R) (out : R * R * R) :
  _a WGS84 * degree * AngRound_threshold <= Rabs s12 ->
  - (PI * _b WGS84) < s12 <= PI * _b WGS84 ->
  exists lon2 : R,
    Direct WGS84 0 lon1 90 s12 out = (0, lon2, 90) /\
    Inverse WGS84 0 lon1 0 lon2 =
    (Rabs s12, if 0 <=? s12 then 90 else -90, if 0 <=? s12 then 90 else -90).
Proof.
  intros Hthr Hs. pose proof PI_RGT_0 as HPI.
  destruct WGS84_fields as (Ea & Ef & Ef1 & Eb).
  destruct WGS84_bounds as (Hf & Hf1 & Hb).
  pose proof degree_pos as Hdeg.
  pose proof AngRound_threshold_pos as Hpos.
  set (t := s12 / _b WGS84).
  assert (Est : s12 = t * _b WGS84) by (unfold t; field; lra).
  assert (Ht : - PI < t <= PI).
  { split.
    - apply Rmult_lt_reg_r with (_b WGS84); [lra |]. rewrite <- Est. lra.
    - apply Rmult_le_reg_r with (_b WGS84); [lra |]. rewrite <- Est. lra. }
  set (delta := t * (1 - _f WGS84) / degree).
  assert (Ed : delta * degree = t * _f1 WGS84).
  { unfold delta. rewrite Ef1. field. lra. }
  assert (Habs : Rabs delta * degree = Rabs t * _f1 WGS84).
  { rewrite <- (Rabs_pos_eq degree) at 1 by lra.
    rewrite <- Rabs_mult, Ed, Rabs_mult.
    rewrite (Rabs_pos_eq (_f1 WGS84)) by lra. reflexivity. }
  assert (Hat : Rabs t <= PI) by (split_abs; lra).
  assert (Habs_s : Rabs s12 = Rabs t * _b WGS84).
  { rewrite Est, Rabs_mult, (Rabs_pos_eq (_b WGS84)) by lra. reflexivity. }
  assert (Hd180 : Rabs delta < 180).
  { apply Rmult_lt_reg_r with degree; [lra |].
    rewrite Habs. unfold degree.
    replace (180 * (PI / 180)) with PI by field. nra. }
  assert (Hdthr : AngRound_threshold <= Rabs delta).
  { apply Rmult_le_reg_r with (_a WGS84 * degree); [nra |].
    replace (Rabs delta * (_a WGS84 * degree))
      with (_a WGS84 * (Rabs delta * degree)) by ring.
    rewrite Habs.
    replace (_a WGS84 * (Rabs t * _f1 WGS84))
      with (Rabs t * _b WGS84) by (rewrite Eb; ring).
    rewrite <- Habs_s. lra. }
  assert (Hsign : (0 <=? delta) = (0 <=? s12)).
  { assert (0 <= delta <-> 0 <= s12).
    { split; intros H0.
      - assert (0 <= t * _f1 WGS84) by (rewrite <- Ed; nra). nra.
      - assert (0 <= t) by nra.
        assert (0 <= delta * degree) by (rewrite Ed; nra). nra. }
    destruct (0 <=? s12) eqn:E;
      [apply Rleb_true in E; apply Rleb_true; tauto
      | apply Rleb_false in E; apply Rleb_false; lra]. }
  exists (AngNormalize (AngNormalize lon1 + delta)). split.
  - unfold Direct.
    apply Position_equator; try lra; fold t; fold delta; split_abs; lra.
  - pose proof (Inverse_equator WGS84 lon1
                  (AngNormalize (AngNormalize lon1 + delta))) as HI.
    cbv zeta in HI.
    rewrite lon12_after_move in HI by (split_abs; lra).
    rewrite HI; try assumption.
    + rewrite Hsign. f_equal. f_equal.
      rewrite Habs, Habs_s, Eb. ring.
    + rewrite Habs. unfold pi.
      replace (PI - _f WGS84 * PI) with (PI * _f1 WGS84) by (rewrite Ef1; ring).
      nra.
Qed.

(** X22.  A negative distance does not come back from the round trip: after
    Direct with s12 = -1000 from (0, 0) at azimuth 90 on WGS84, Inverse
    between the two end points returns the distance 1000 and the azimuths
    -90, off by far more than one micrometre and 1e-12 degree. *)
Lemma Direct_Inverse_negative_distance :
  let '(lat2, lon2, azi2) := Direct WGS84 0 0 90 (-1000) (0, 0, 0) in
  let '(s12, azi1', azi2') := Inverse WGS84 0 0 lat2 lon2 in
  ~ (Rabs (s12 - -1000) <= 1 / 1000000 /\
     Rabs (azi1' - 90) <= 1 / 10 ^ 12 /\
     Rabs (azi2' - azi2) <= 1 / 10 ^ 12).
Proof.
  destruct (Direct_Inverse_equator_signed 0 (-1000) (0, 0, 0))
    as (lon2 & ED & EI).
  - destruct WGS84_fields as (Ea & _).
    rewrite Ea. abs_numeral.
    pose proof PI_4. pose proof PI_RGT_0.
    pose proof double_epsilon_small.
    unfold degree, AngRound_threshold. nra.
  - destruct WGS84_bounds as (_ & _ & Hb).
    pose proof PI2_3_2. nra.
  - rewrite ED, EI.
    replace (0 <=? -1000) with false by (symmetry; apply Rleb_false; lra).
    intros (H & _). abs_numeral.
    revert H. abs_numeral. lra.
Qed.

(** X17.  The round trip along the WGS84 equator.  Starting at latitude 0 and
    any longitude with azimuth 90, for every distance s from the rounding
    distance a * degree * threshold up to PI * b: Direct returns latitude
    0 and azimuth 90, and Inverse between the start and the point Direct
    returns gives back (s, 90, 90), in exact arithmetic without any
    error. *)
Theorem Direct_Inverse_equator (lon1 s : R) (out : R * R * R) :
  _a WGS84 * degree * AngRound_threshold <= s ->
  s <= PI * _b WGS84 ->
  let '(lat2, lon2, azi2) := Direct WGS84 0 lon1 90 s out in
  lat2 = 0 /\ azi2 = 90 /\
  Inverse WGS84 0 lon1 lat2 lon2 = (s, 90, azi2).
Proof.
  intros Hlo Hhi.
  assert (Hs : 0 < s).
  { destruct WGS84_fields as (Ea & _).
    pose proof degree_pos. pose proof AngRound_threshold_pos.
    rewrite Ea in Hlo. nra. }
  destruct (Direct_Inverse_equator_signed lon1 s out) as (lon2 & ED & EI).
  - rewrite Rabs_pos_eq by lra. exact Hlo.
  - destruct WGS84_bounds as (_ & _ & Hb). pose proof PI_RGT_0. split; nra.
  - rewrite ED. repeat split.
    rewrite EI, Rabs_pos_eq by lra.
    replace (0 <=? s) with true by (symmetry; apply Rleb_true; lra).
    reflexivity.
Qed.

Lemma Direct_Inverse_equator_witness :
  let '(lat2, lon2, azi2) := Direct WGS84 0 0 90 1000 (0, 0, 0) in
  lat2 = 0 /\ azi2 = 90 /\
  Inverse WGS84 0 0 lat2 lon2 = (1000, 90, azi2).
Proof.
  apply (Direct_Inverse_equator 0 1000 (0, 0, 0)).
  - destruct WGS84_fields as (Ea & _).
    rewrite Ea.
    pose proof PI_4. pose proof PI_RGT_0.
    pose proof double_epsilon_small.
    unfold degree, AngRound_threshold. nra.
  - destruct WGS84_bounds as (_ & _ & Hb).
    pose proof PI2_3_2. nra.
Defined.

(** ** One pass of the Newton loop *)

Lemma Newton_update_eq (salp1 calp1 v dv : R) :
  Newton_update salp1 calp1 v dv =
  SinCosNorm (Rmax 0 (salp1 * cos (- v / dv) + calp1 * sin (- v / dv)))
             (calp1 * cos (- v / dv) - salp1 * sin (- v / dv)).
Proof. reflexivity. Qed.

(** A quarter turn from due east: the cosine comes out negative, it is
    not clamped. *)
Lemma Newton_update_negative_cos :
  snd (Newton_update 1 0 (- (PI / 2)) 1) < 0.
Proof.
  rewrite Newton_update_eq.
  replace (- - (PI / 2) / 1) with (PI / 2) by field.
  rewrite sin_PI2, cos_PI2.
  replace (1 * 0 + 0 * 1) with 0 by ring.
  replace (0 * 0 - 1 * 1) with (-1) by ring.
  rewrite Rmax_left by lra.
  unfold SinCosNorm. rewrite hypot_0_l. abs_numeral. cbn [snd].
  replace (- (-1)) with 1 by lra. lra.
Qed.

Section NewtonLoop.

Variable g : Geodesic.
Variables sbet1 cbet1 sbet2 cbet2 chi12 : R.

Let chi12_at (salp1 calp1 : R) (diffp : bool) : Chi12_result :=
  Chi12 g sbet1 cbet1 sbet2 cbet2 salp1 calp1 diffp.

Let run : nat -> nat -> R -> R -> nat -> Newton_result :=
  Newton_loop g sbet1 cbet1 sbet2 cbet2 chi12.

Lemma Chi12_dchi12_diffp (salp1 calp1 : R) :
  exists dv : R, r_dchi12 (chi12_at salp1 calp1 true) = Some dv.
Proof.
  unfold chi12_at, Chi12, SinCosNorm. cbv zeta. cbn [r_dchi12].
  eexists. reflexivity.
Qed.

Lemma Newton_loop_eq (m i : nat) (salp1 calp1 : R) (trip : nat) :
  run m i salp1 calp1 trip =
  let r := chi12_at salp1 calp1 (trip <? 1)%nat in
  let v := r_chi12 r - chi12 in
  if (Rabs v <=? eps2) || negb (trip <? 1)%nat then
    mkNewton salp1 calp1 r (S i)
  else
    match r_dchi12 r with
    | None => mkNewton salp1 calp1 r (S i)
    | Some dv =>
        let '(salp1, calp1) := Newton_update salp1 calp1 v dv in
        let trip := if Rabs v <? tol then S trip else trip in
        match m with
        | O => mkNewton salp1 calp1 r (S i)
        | S m' => run m' (S i) salp1 calp1 trip
        end
    end.
Proof. destruct m; reflexivity. Qed.

Lemma Newton_loop_iterations (m : nat) :
  forall (i : nat) (salp1 calp1 : R) (trip : nat),
    (S i <= n_iterations (run m i salp1 calp1 trip) <= S i + m)%nat.
Proof.
  induction m as [| m IH]; intros i salp1 calp1 trip;
    rewrite Newton_loop_eq; cbv zeta;
    destruct (_ || _); cbn [n_iterations]; try lia;
    destruct (r_dchi12 _); cbn [n_iterations]; try lia;
    destruct (Newton_update _ _ _ _) as [s c]; cbn [n_iterations]; try lia.
  match goal with
  | |- context [run m (S i) s c ?t] => specialize (IH (S i) s c t)
  end.
  lia.
Qed.

End NewtonLoop.

(** ** The general case and the Newton loop *)

Lemma Inverse_solve_general (g : Geodesic) (lat1 lat2 lon12 : R) :
  Inverse_case g lat1 lat2 lon12 = General ->
  Inverse_solve g lat1 lat2 lon12 =
  Inverse_general g (Inverse_reduced g lat1 lat2 lon12).
Proof. intros H. unfold Inverse_solve. rewrite H. reflexivity. Qed.

Lemma Inverse_general_eq (g : Geodesic) (d : Reduced) :
  let start :=
    Inverse_start g (d_sbet1 d) (d_cbet1 d) (d_sbet2 d) (d_cbet2 d) (d_n1 d)
                  (d_sbet12 d) (d_sbet12a d) (d_chi12 d) (d_cchi12 d)
                  (d_schi12 d) in
  let n := Newton_loop g (d_sbet1 d) (d_cbet1 d) (d_sbet2 d) (d_cbet2 d)
                       (d_chi12 d) 49 0 (fst start) (snd start) 0 in
  let r := n_last n in
  Inverse_general g d =
  mkSolution
    (_b g * tauScale (r_u2 r) *
     (r_sig12 r +
      (SinSeries (r_ssig2 r) (r_csig2 r) (tauCoeff (r_u2 r)) maxpow_taucoef -
       SinSeries (r_ssig1 r) (r_csig1 r) (tauCoeff (r_u2 r)) maxpow_taucoef)))
    (n_salp1 n) (n_calp1 n) (r_salp2 r) (r_calp2 r).
Proof.
  cbv zeta. unfold Inverse_general.
  destruct (Inverse_start _ _ _ _ _ _ _ _ _ _ _) as [s c].
  reflexivity.
Qed.

(** ** Reversed azimuths, and Inverse from a point to itself *)



Lemma Inverse_reduced_same_latitude (g : Geodesic) (lat lon12 : R) :
  lat <> -90 -> Rabs lat <> 90 ->
  let d := Inverse_reduced g lat lat lon12 in
  d_sbet2 d = d_sbet1 d /\ d_cbet2 d = d_cbet1 d /\
  d_cbet1 d = cos (lat * degree) /
              hypot (_f1 g * sin (lat * degree)) (cos (lat * degree)).
Proof.
  intros H1 H2. unfold Inverse_reduced, SinCosNorm.
  replace (lat =? -90) with false by (symmetry; apply Reqb_false; exact H1).
  replace (Rabs lat =? 90) with false
    by (symmetry; apply Reqb_false; exact H2).
  cbn. auto.
Qed.

(** Two points at one place on a meridian are at distance 0. *)
Lemma Inverse_meridional_s12_zero (g : Geodesic) (d : Reduced) :
  d_sbet2 d = d_sbet1 d -> d_cbet2 d = d_cbet1 d -> d_cchi12 d = 1 ->
  0 < d_cbet1 d ->
  s_s12 (Inverse_meridional g d) = 0.
Proof.
  intros Es Ec E1 Hpos.
  unfold Inverse_meridional. rewrite Es, Ec, E1, !Rmult_1_l.
  destruct (SinCosNorm (d_sbet1 d) (d_cbet1 d)) as [s c] eqn:E.
  cbn [s_s12].
  assert (Hc : 0 < c).
  { unfold SinCosNorm in E. injection E as _ E. subst c.
    apply Rdiv_lt_0_compat; [exact Hpos |].
    apply hypot_pos. right. lra. }
  replace (c * s - s * c) with 0 by ring.
  rewrite Rmax_left by lra.
  rewrite atan2_0_pos by nra.
  ring.
Qed.




(** The canonical form when the first point is kept first. *)
Lemma Inverse_canonical_noswap (lat1 lon1 lat2 lon2 : R) :
  Rabs (AngRound lat2) <= Rabs (AngRound lat1) ->
  Inverse_canonical lat1 lon1 lat2 lon2 =
  mkCanonical
    (Rabs (lon12_raw lon1 lon2))
    (AngRound lat1 * IZR (if AngRound lat1 <? 0 then 1 else -1))
    (AngRound lat2 * IZR (if AngRound lat1 <? 0 then 1 else -1))
    (if 0 <=? lon12_raw lon1 lon2 then 1 else -1)
    1
    (if AngRound lat1 <? 0 then 1 else -1).
Proof.
  intros H. unfold Inverse_canonical. fold (lon12_raw lon1 lon2).
  replace (Rabs (AngRound lat2) <=? Rabs (AngRound lat1)) with true
    by (symmetry; apply Rleb_true; exact H).
  cbn [Z.ltb Z.compare]. cbv iota beta.
  f_equal.
  destruct (0 <=? lon12_raw lon1 lon2) eqn:E;
    [apply Rleb_true in E | apply Rleb_false in E];
    simpl; split_abs; lra.
Qed.

(** The canonical form when the two points are exchanged. *)
Lemma Inverse_canonical_swap (lat1 lon1 lat2 lon2 : R) :
  Rabs (AngRound lat1) < Rabs (AngRound lat2) ->
  Inverse_canonical lat1 lon1 lat2 lon2 =
  mkCanonical
    (Rabs (lon12_raw lon1 lon2))
    (AngRound lat2 * IZR (if AngRound lat2 <? 0 then 1 else -1))
    (AngRound lat1 * IZR (if AngRound lat2 <? 0 then 1 else -1))
    (if 0 <=? lon12_raw lon1 lon2 then -1 else 1)
    (-1)
    (if AngRound lat2 <? 0 then 1 else -1).
Proof.
  intros H. unfold Inverse_canonical. fold (lon12_raw lon1 lon2).
  replace (Rabs (AngRound lat2) <=? Rabs (AngRound lat1)) with false
    by (symmetry; apply Rleb_false; exact H).
  cbn [Z.ltb Z.compare]. cbv iota beta.
  destruct (0 <=? lon12_raw lon1 lon2) eqn:E;
    [apply Rleb_true in E | apply Rleb_false in E];
    f_equal; simpl; split_abs; lra.
Qed.

(** In the meridional and equatorial cases the two direction pairs are
    proper directions. *)
Lemma Inverse_solve_directions (g : Geodesic) (lat1 lat2 lon12 : R) :
  Inverse_case g lat1 lat2 lon12 <> General ->
  let s := Inverse_solve g lat1 lat2 lon12 in
  (s_calp1 s <> 0 \/ s_salp1 s <> 0) /\ (s_calp2 s <> 0 \/ s_salp2 s <> 0).
Proof.
  intros H. unfold Inverse_solve.
  destruct (Inverse_case g lat1 lat2 lon12) eqn:E.
  - destruct (Inverse_meridional_directions g
                (Inverse_reduced g lat1 lat2 lon12)) as (E1 & E2 & E3 & E4).
    cbv zeta. rewrite E1, E2, E3, E4, d_schi12_eq, d_cchi12_eq.
    split; [| left; lra].
    apply cos_sin_0_var.
  - unfold Inverse_equatorial. cbn. split; right; lra.
  - congruence.
Qed.






(** * Further properties of the code *)

(** ** The constructor of Geodesic (lines 56-63) *)

(** X1.  An ellipsoid given by its inverse flattening r > 1: the flattening is
    1/r, strictly between 0 and 1; e2 = 1 - f1^2 lies strictly between 0
    and 1; ep2 is e2 / (1 - e2), as the comment at line 61 says, and is
    positive; b = a f1 lies strictly between 0 and a. *)
Theorem Geodesic_new_ellipsoid (a r : R) :
  0 < a -> 1 < r ->
  let g := Geodesic_new a r in
  _a g = a /\
  _f g = 1 / r /\ 0 < _f g < 1 /\
  _f1 g = 1 - _f g /\ 0 < _f1 g < 1 /\
  _e2 g = 1 - sq (_f1 g) /\ 0 < _e2 g < 1 /\
  _ep2 g = _e2 g / (1 - _e2 g) /\ 0 < _ep2 g /\
  _b g = a * _f1 g /\ 0 < _b g < a.
Proof.
  intros Ha Hr. unfold Geodesic_new. cbv zeta.
  replace (0 <? r) with true by (symmetry; apply Rltb_true; lra).
  cbn [_a _f _f1 _e2 _ep2 _b].
  assert (Hf : 0 < 1 / r < 1).
  { split.
    - apply Rdiv_lt_0_compat; lra.
    - apply Rmult_lt_reg_r with r; [lra |].
      unfold Rdiv. rewrite Rmult_assoc, Rinv_l by lra. lra. }
  set (f := 1 / r) in *.
  assert (He : 0 < f * (2 - f) < 1) by nra.
  assert (Hq : 0 < sq (1 - f)) by (unfold sq; nra).
  assert (E1 : 1 - f * (2 - f) = sq (1 - f)) by (unfold sq; ring).
  assert (E2 : 0 < f * (2 - f) / sq (1 - f))
    by (apply Rdiv_lt_0_compat; lra).
  repeat split; try lra; try nra.
  rewrite E1. reflexivity.
Qed.

Lemma Geodesic_new_ellipsoid_witness :
  let g := Geodesic_new 6378137 298.257223563 in
  _a g = 6378137 /\
  _f g = 1 / 298.257223563 /\ 0 < _f g < 1 /\
  _f1 g = 1 - _f g /\ 0 < _f1 g < 1 /\
  _e2 g = 1 - sq (_f1 g) /\ 0 < _e2 g < 1 /\
  _ep2 g = _e2 g / (1 - _e2 g) /\ 0 < _ep2 g /\
  _b g = 6378137 * _f1 g /\ 0 < _b g < 6378137.
Proof. apply (Geodesic_new_ellipsoid 6378137 298.257223563); lra. Defined.

Lemma Geodesic_new_round (a r : R) :
  r <= 0 -> Geodesic_new a r = mkGeodesic a 0 1 0 0 a.
Proof.
  intros Hr. unfold Geodesic_new. cbv zeta.
  replace (0 <? r) with false by (symmetry; apply Rltb_false; lra).
  unfold sq. f_equal; field.
Qed.

(** X2.  With r <= 0 the constructor builds a sphere of radius a: f, e2 and
    ep2 are 0, f1 is 1 and b is a, whatever the value of r. *)
Theorem Geodesic_new_sphere (a r : R) :
  r <= 0 ->
  let g := Geodesic_new a r in
  _a g = a /\ _f g = 0 /\ _f1 g = 1 /\ _e2 g = 0 /\ _ep2 g = 0 /\
  _b g = a /\ g = Geodesic_new a 0.
Proof.
  intros Hr. cbv zeta.
  rewrite (Geodesic_new_round a r Hr), (Geodesic_new_round a 0) by lra.
  cbn [_a _f _f1 _e2 _ep2 _b]. repeat split.
Qed.

Lemma Geodesic_new_sphere_witness :
  let g := Geodesic_new 6371000 (-1) in
  _a g = 6371000 /\ _f g = 0 /\ _f1 g = 1 /\ _e2 g = 0 /\ _ep2 g = 0 /\
  _b g = 6371000 /\ g = Geodesic_new 6371000 0.
Proof. apply (Geodesic_new_sphere 6371000 (-1)). lra. Defined.

Lemma dl_const (c x : R) : derivable_pt_lim (fun _ => c) x 0.
Proof. apply derivable_pt_lim_const. Qed.

Lemma dl_id (x : R) : derivable_pt_lim (fun t => t) x 1.
Proof. apply derivable_pt_lim_id. Qed.

Lemma dl_plus (f g : R -> R) (x a b : R) :
  derivable_pt_lim f x a -> derivable_pt_lim g x b ->
  derivable_pt_lim (fun t => f t + g t) x (a + b).
Proof. apply derivable_pt_lim_plus. Qed.

Lemma dl_minus (f g : R -> R) (x a b : R) :
  derivable_pt_lim f x a -> derivable_pt_lim g x b ->
  derivable_pt_lim (fun t => f t - g t) x (a - b).
Proof. apply derivable_pt_lim_minus. Qed.

Lemma dl_opp (f : R -> R) (x a : R) :
  derivable_pt_lim f x a -> derivable_pt_lim (fun t => - f t) x (- a).
Proof. apply derivable_pt_lim_opp. Qed.

Lemma dl_mult (f g : R -> R) (x a b : R) :
  derivable_pt_lim f x a -> derivable_pt_lim g x b ->
  derivable_pt_lim (fun t => f t * g t) x (a * g x + f x * b).
Proof. apply derivable_pt_lim_mult. Qed.

Lemma dl_div_const (f : R -> R) (c x a : R) :
  derivable_pt_lim f x a ->
  derivable_pt_lim (fun t => f t / c) x (a / c).
Proof.
  intros H. unfold Rdiv.
  replace (a * / c) with (a * / c + f x * 0) by ring.
  apply (dl_mult f (fun _ => / c)); [exact H | apply dl_const].
Qed.

Lemma dl_value (f : R -> R) (x a b : R) :
  derivable_pt_lim f x a -> a = b -> derivable_pt_lim f x b.
Proof. intros H <-. exact H. Qed.

(** Differentiate a polynomial expression term by term. *)
Ltac dl_poly :=
  repeat first
    [ apply dl_id | apply dl_const
    | apply dl_minus | apply dl_plus | apply dl_opp
    | apply dl_div_const | apply dl_mult ].

(** X3.  dlamScalemu(f, mu) is the derivative of dlamScale(f, mu) with respect
    to mu, at every f and mu. *)
Theorem dlamScalemu_derivative (f mu : R) :
  derivable_pt_lim (fun m => dlamScale f m) mu (dlamScalemu f mu).
Proof.
  unfold dlamScale. cbv zeta.
  eapply dl_value.
  - dl_poly.
  - unfold dlamScalemu, sq. cbv zeta beta. field.
Qed.

Lemma dlamCoeff_nth_derivative (f mu : R) (k : nat) :
  derivable_pt_lim (fun m => nth k (dlamCoeff f m) 0) mu
                   (nth k (dlamCoeffmu f mu) 0).
Proof.
  unfold dlamCoeff, dlamCoeffmu. cbv zeta.
  do 8 (destruct k as [| k];
        [cbn [nth]; eapply dl_value; [dl_poly | cbv beta; field] |]).
  destruct k; cbn [nth]; apply dl_const.
Qed.

(** X4.  dlamCoeffmu is the derivative of dlamCoeff with respect to mu: each
    of its eight coefficients is the derivative of the coefficient of
    dlamCoeff of the same index, and so the sine series with the
    coefficients of dlamCoeffmu is the derivative of the sine series with
    the coefficients of dlamCoeff, which is how Chi12 gets deta12. *)
Theorem dlamCoeffmu_derivative (f mu : R) :
  (forall k : nat,
     derivable_pt_lim (fun m => nth k (dlamCoeff f m) 0) mu
                      (nth k (dlamCoeffmu f mu) 0)) /\
  (forall sinx cosx : R,
     derivable_pt_lim
       (fun m => SinSeries sinx cosx (dlamCoeff f m) maxpow_lamcoef) mu
       (SinSeries sinx cosx (dlamCoeffmu f mu) maxpow_lamcoef)).
Proof.
  split; [exact (dlamCoeff_nth_derivative f mu) |].
  intros sinx cosx.
  unfold maxpow_lamcoef, SinSeries. cbv zeta.
  cbn [Nat.sub SinSeries_loop].
  eapply dl_value.
  - apply dl_mult; [apply dl_const |].
    repeat first
      [ apply (dlamCoeff_nth_derivative f mu)
      | apply dl_const | apply dl_minus | apply dl_plus | apply dl_mult ].
  - cbv beta. ring.
Qed.

(** ** The constructor of GeodesicLine (lines 546-626) *)

(** The azimuth the constructor works with, after the normalization, the
    folding at the poles and the rounding, before its sign is taken off. *)
Lemma line_azimuth_cases (lat1 azi1 : R) :
  let x := if lat1 =? 90 then -180
           else if lat1 =? -90 then 0 else AngNormalize azi1 in
  -180 <= AngRound x <= 180.
Proof.
  cbv zeta.
  pose proof (AngNormalize_range azi1) as Hn.
  set (x := if lat1 =? 90 then -180 else _).
  assert (Hx : -180 <= x <= 180).
  { unfold x. destruct (lat1 =? 90); [lra |].
    destruct (lat1 =? -90); lra. }
  destruct (AngRound_cases x) as [E | E]; rewrite E; lra.
Qed.

Ltac line_unfold :=
  unfold GeodesicLine_new, SinCosNorm;
  match goal with
  | |- context [if ?lat =? 90 then _ else _] =>
      destruct (lat =? 90) eqn:?;
      [| destruct (lat =? -90) eqn:?]
  end;
  cbv beta iota zeta.

(** X5.  The constructor of GeodesicLine folds the azimuth into [0, 180] and
    keeps its sign in _bsign, which is 1 or -1; the stored longitude lies
    in (-180, 180] and the latitude is stored as given.  Off the poles
    _bsign * _azi1 is the given azimuth, normalized and rounded, and _lon1
    is the given longitude, normalized. *)
Theorem GeodesicLine_new_azimuth (g : Geodesic) (lat1 lon1 azi1 : R) :
  let l := GeodesicLine_new g lat1 lon1 azi1 in
  (_bsign l = 1 \/ _bsign l = -1)%Z /\
  0 <= _azi1 l <= 180 /\
  -180 < _lon1 l <= 180 /\
  _lat1 l = lat1 /\
  (lat1 <> 90 -> lat1 <> -90 ->
   IZR (_bsign l) * _azi1 l = AngRound (AngNormalize azi1) /\
   _lon1 l = AngNormalize lon1).
Proof.
  cbv zeta.
  pose proof (line_azimuth_cases lat1 azi1) as Hx. cbv zeta in Hx.
  line_unfold; cbn [_bsign _azi1 _lon1 _lat1];
    rewrite ?Heqb, ?Heqb0 in Hx.
  all: match goal with
       | |- context [0 <=? AngRound ?x] =>
           set (z := AngRound x) in *;
           destruct (0 <=? z) eqn:Ez;
           [apply Rleb_true in Ez | apply Rleb_false in Ez]
       end.
  all: repeat split; auto; try apply AngNormalize_range; simpl; try lra.
  all: try (apply Reqb_true in Heqb; contradiction).
  all: try (apply Reqb_true in Heqb0; contradiction).
Qed.

Lemma hypot_sq (x y : R) : hypot x y * hypot x y = x * x + y * y.
Proof. unfold hypot. apply sqrt_sqrt. nra. Qed.

Lemma SinCosNorm_unit_out (x y : R) :
  x <> 0 \/ y <> 0 ->
  sq (x / hypot x y) + sq (y / hypot x y) = 1.
Proof.
  intros H. pose proof (hypot_pos x y H) as Hp.
  pose proof (hypot_sq x y) as Hs.
  unfold sq.
  replace (x / hypot x y * (x / hypot x y) + y / hypot x y * (y / hypot x y))
    with ((x * x + y * y) / (hypot x y * hypot x y)) by (field; lra).
  rewrite Hs. field. nra.
Qed.

Lemma sin_forced (a : R) :
  (if a =? 180 then 0 else sin (a * degree)) = sin (a * degree).
Proof.
  case_cmp; [| reflexivity]. subst a. unfold degree.
  replace (180 * (PI / 180)) with PI by field. symmetry; apply sin_PI.
Qed.

Lemma cos_forced (a : R) :
  (if a =? 90 then 0 else cos (a * degree)) = cos (a * degree).
Proof.
  case_cmp; [| reflexivity]. subst a. unfold degree.
  replace (90 * (PI / 180)) with (PI / 2) by field. symmetry; apply cos_PI2.
Qed.

Lemma sin_degrees_nonneg (a : R) : 0 <= a <= 180 -> 0 <= sin (a * degree).
Proof.
  intros H. pose proof PI_RGT_0. apply sin_ge_0; unfold degree; nra.
Qed.

Lemma cos_degrees_pos (lat : R) : Rabs lat < 90 -> 0 < cos (lat * degree).
Proof.
  intros H. pose proof PI_RGT_0.
  apply cos_gt_0; unfold degree; split_abs; nra.
Qed.

(** The cosine the constructors normalize with: eps2 at the poles, the
    cosine of the latitude elsewhere; positive whenever the latitude is
    within 90 degrees. *)
Lemma cbet_raw_pos (lat : R) :
  Rabs lat <= 90 ->
  0 < (if Rabs lat =? 90 then eps2 else cos (lat * degree)).
Proof.
  intros H. case_cmp.
  - apply eps2_pos.
  - apply cos_degrees_pos. lra.
Qed.

Lemma GeodesicLine_new_pairs (g : Geodesic) (lat1 lon1 azi1 : R) :
  Rabs lat1 <= 90 ->
  let l := GeodesicLine_new g lat1 lon1 azi1 in
  0 <= _salp0 l /\ 0 <= _calp0 l /\
  sq (_salp0 l) + sq (_calp0 l) = 1 /\
  sq (_ssig1 l) + sq (_csig1 l) = 1 /\
  sq (_slam1 l) + sq (_clam1 l) = 1 /\
  sq (_stau1 l) + sq (_ctau1 l) = 1.
Proof.
  intros Hlat. cbv zeta.
  pose proof (line_azimuth_cases lat1 azi1) as Hx. cbv zeta in Hx.
  pose proof (cbet_raw_pos lat1 Hlat) as Hq.
  line_unfold;
    cbn [_salp0 _calp0 _ssig1 _csig1 _slam1 _clam1 _stau1 _ctau1];
    rewrite ?Heqb, ?Heqb0 in Hx.
  all: match goal with
       | |- context [0 <=? AngRound ?x] =>
           set (z := AngRound x) in *;
           set (a := z * IZR (if 0 <=? z then 1%Z else (-1)%Z))
       end.
  all: assert (Ha : 0 <= a <= 180)
         by (unfold a; destruct (0 <=? z) eqn:Ez;
             [apply Rleb_true in Ez | apply Rleb_false in Ez]; simpl; lra).
  all: clearbody a; clear Hx; clearbody z.
  all: rewrite !sin_forced, !cos_forced.
  all: pose proof (sin_degrees_nonneg a Ha) as Hs.
  all: pose proof (sin2_cos2 (a * degree)) as Hsc; unfold Rsqr in Hsc.
  all: set (sa := sin (a * degree)) in *; set (ca := cos (a * degree)) in *.
  all: set (p := _f1 g * sin (lat1 * degree)) in *.
  all: set (q := if Rabs lat1 =? 90 then eps2 else cos (lat1 * degree)) in *.
  all: clearbody sa ca p q.
  all: pose proof (SinCosNorm_unit_out p q (or_intror (Rgt_not_eq _ _ Hq)))
         as Hb; unfold sq in Hb.
  all: assert (Hcb : 0 < q / hypot p q)
         by (apply Rdiv_lt_0_compat;
             [exact Hq | apply hypot_pos; right; lra]).
  all: set (sb := p / hypot p q) in *; set (cb := q / hypot p q) in *.
  all: clearbody sb cb.
  all: set (cs := if negb (sb =? 0) || negb (ca =? 0) then cb * ca else 1).
  all: assert (Hcs : (sb = 0 -> ca = 0 -> cs = 1) /\
                     (sb <> 0 \/ ca <> 0 -> cs = cb * ca))
         by (unfold cs;
             destruct (sb =? 0) eqn:E1;
             [apply Reqb_true in E1 | apply Reqb_false in E1];
             (destruct (ca =? 0) eqn:E2;
              [apply Reqb_true in E2 | apply Reqb_false in E2]);
             cbn [negb orb]; split; intros; try reflexivity; tauto).
  all: destruct Hcs as [Hcs1 Hcs2]; clearbody cs.
  all: assert (Hn1 : sb <> 0 \/ cs <> 0)
         by (destruct (Req_dec_T sb 0) as [E | E]; [right | left; exact E];
             destruct (Req_dec_T ca 0) as [E' | E'];
             [rewrite (Hcs1 E E'); lra
             | rewrite (Hcs2 (or_intror E'));
               apply Rmult_integral_contrapositive_currified; lra]).
  all: assert (Hn2 : sa * cb * sb <> 0 \/ cs <> 0)
         by (destruct (Req_dec_T cs 0) as [E | E]; [left | right; exact E];
             destruct (Req_dec_T ca 0) as [E' | E'];
             [ assert (sb <> 0) by (intros Hsb; rewrite (Hcs1 Hsb E') in E; lra);
               assert (sa <> 0) by nra;
               repeat apply Rmult_integral_contrapositive_currified; lra
             | exfalso; rewrite (Hcs2 (or_intror E')) in E;
               apply Rmult_integral in E; lra ]).
  all: pose proof (SinCosNorm_unit_out sb cs Hn1) as U1.
  all: pose proof (SinCosNorm_unit_out (sa * cb * sb) cs Hn2) as U2.
  all: split; [apply Rmult_le_pos; lra |].
  all: split; [apply hypot_nonneg |].
  all: split; [unfold sq; rewrite hypot_sq; nra |].
  all: split; [exact U1 |].
  all: split; [exact U2 |].
  all: match goal with
       | |- context [cos ?d] =>
           pose proof (sin2_cos2 d) as Hd; unfold Rsqr in Hd;
           set (sd := sin d) in *; set (cd := cos d) in *; clearbody sd cd
       end.
  all: unfold sq in *.
  all: set (s1 := sb / hypot sb cs) in *; set (c1 := cs / hypot sb cs) in *.
  all: clearbody s1 c1.
  all: replace ((s1 * cd + c1 * sd) * (s1 * cd + c1 * sd) +
                (c1 * cd - s1 * sd) * (c1 * cd - s1 * sd))
         with ((s1 * s1 + c1 * c1) * (sd * sd + cd * cd)) by ring.
  all: rewrite U1, Hd; ring.
Qed.

Lemma GeodesicLine_new_tau1 (g : Geodesic) (lat1 lon1 azi1 : R) :
  let l := GeodesicLine_new g lat1 lon1 azi1 in
  _stau1 l = _ssig1 l * cos (_dtau1 l) + _csig1 l * sin (_dtau1 l) /\
  _ctau1 l = _csig1 l * cos (_dtau1 l) - _ssig1 l * sin (_dtau1 l).
Proof. cbv zeta. line_unfold; split; reflexivity. Qed.

(** X6.  For a latitude within 90 degrees the constructor of GeodesicLine
    leaves sin alpha0 and cos alpha0 not negative with squares adding up to
    1; (ssig1, csig1) is the sine and cosine of an angle sig1, and
    (stau1, ctau1) is the sine and cosine of sig1 + dtau1, as the comment
    "tau1 = sig1 + dtau1" says; (slam1, clam1) is the sine and cosine of
    an angle too.  The poles, where cbet1 is forced to eps2, and the
    equatorial line, where csig1 is forced to 1, are included. *)
Theorem GeodesicLine_new_unit_pairs (g : Geodesic) (lat1 lon1 azi1 : R) :
  Rabs lat1 <= 90 ->
  let l := GeodesicLine_new g lat1 lon1 azi1 in
  0 <= _salp0 l /\ 0 <= _calp0 l /\
  sq (_salp0 l) + sq (_calp0 l) = 1 /\
  (exists sig1 : R,
     _ssig1 l = sin sig1 /\ _csig1 l = cos sig1 /\
     _stau1 l = sin (sig1 + _dtau1 l) /\
     _ctau1 l = cos (sig1 + _dtau1 l)) /\
  (exists lam1 : R, _slam1 l = sin lam1 /\ _clam1 l = cos lam1).
Proof.
  intros Hlat. cbv zeta.
  destruct (GeodesicLine_new_pairs g lat1 lon1 azi1 Hlat)
    as (Hs0 & Hc0 & Hu & Hsig & Hlam & _).
  destruct (GeodesicLine_new_tau1 g lat1 lon1 azi1) as [Es Ec].
  set (l := GeodesicLine_new g lat1 lon1 azi1) in *.
  repeat split; try assumption.
  - destruct (unit_pair_angle (_ssig1 l) (_csig1 l) Hsig) as (x & Sx & Cx).
    exists x. rewrite sin_plus, cos_plus, Sx, Cx, Es, Ec.
    repeat split; ring.
  - destruct (unit_pair_angle (_slam1 l) (_clam1 l) Hlam) as (x & Sx & Cx).
    exists x. split; congruence.
Qed.

Lemma GeodesicLine_new_unit_pairs_witness :
  let l := GeodesicLine_new WGS84 (-90) 10 135 in
  0 <= _salp0 l /\ 0 <= _calp0 l /\
  sq (_salp0 l) + sq (_calp0 l) = 1 /\
  (exists sig1 : R,
     _ssig1 l = sin sig1 /\ _csig1 l = cos sig1 /\
     _stau1 l = sin (sig1 + _dtau1 l) /\
     _ctau1 l = cos (sig1 + _dtau1 l)) /\
  (exists lam1 : R, _slam1 l = sin lam1 /\ _clam1 l = cos lam1).
Proof.
  apply (GeodesicLine_new_unit_pairs WGS84 (-90) 10 135).
  abs_numeral. lra.
Defined.

(** ** The distance scale of a line is positive *)

Lemma tauScale_ge_1 (u : R) : 0 <= u <= 1 -> 1 <= tauScale u.
Proof.
  intros [H0 H1].
  assert (E : tauScale u =
              1 + u * ((268435456 - 50331648 * u) +
                       u ^ 2 * (20971520 - 11468800 * u) +
                       u ^ 4 * (7225344 - 4967424 * u) +
                       u ^ 6 * (3624192 - 2760615 * u)) / 1073741824)
    by (unfold tauScale; field).
  rewrite E.
  assert (0 <= u ^ 2) by (apply pow_le; exact H0).
  assert (0 <= u ^ 4) by (apply pow_le; exact H0).
  assert (0 <= u ^ 6) by (apply pow_le; exact H0).
  assert (0 <= u ^ 2 * (20971520 - 11468800 * u))
    by (apply Rmult_le_pos; lra).
  assert (0 <= u ^ 4 * (7225344 - 4967424 * u))
    by (apply Rmult_le_pos; lra).
  assert (0 <= u ^ 6 * (3624192 - 2760615 * u))
    by (apply Rmult_le_pos; lra).
  assert (0 <= u * ((268435456 - 50331648 * u) +
                    u ^ 2 * (20971520 - 11468800 * u) +
                    u ^ 4 * (7225344 - 4967424 * u) +
                    u ^ 6 * (3624192 - 2760615 * u)))
    by (apply Rmult_le_pos; lra).
  lra.
Qed.

Lemma GeodesicLine_new_sScale (g : Geodesic) (lat1 lon1 azi1 : R) :
  let l := GeodesicLine_new g lat1 lon1 azi1 in
  _sScale l = _b g * tauScale (sq (_calp0 l) * _ep2 g) /\
  _lf1 l = _f1 g.
Proof. cbv zeta. line_unfold; split; reflexivity. Qed.

Lemma GeodesicLine_new_initialized (g : Geodesic) (lat1 lon1 azi1 : R) :
  0 < _b g -> 0 <= _ep2 g <= 1 -> Rabs lat1 <= 90 ->
  _b g <= _sScale (GeodesicLine_new g lat1 lon1 azi1).
Proof.
  intros Hb Hep Hlat.
  destruct (GeodesicLine_new_pairs g lat1 lon1 azi1 Hlat)
    as (_ & Hc0 & Hu & _).
  destruct (GeodesicLine_new_sScale g lat1 lon1 azi1) as [Es _].
  set (l := GeodesicLine_new g lat1 lon1 azi1) in *.
  assert (Hmu : 0 <= sq (_calp0 l) <= 1).
  { unfold sq in *. split; nra. }
  assert (Hu2 : 0 <= sq (_calp0 l) * _ep2 g <= 1) by nra.
  pose proof (tauScale_ge_1 _ Hu2) as Ht.
  rewrite Es; nra.
Qed.

(** X7.  A line built on an ellipsoid with b > 0 and 0 <= ep2 <= 1, from a
    latitude within 90 degrees, is initialized: its _sScale is at least b,
    so Position does not take the early return and Direct assigns its
    three outputs whatever they held before. *)
Theorem Direct_assigns_outputs (g : Geodesic) (lat1 lon1 azi1 s12 : R) :
  0 < _b g -> 0 <= _ep2 g <= 1 -> Rabs lat1 <= 90 ->
  _b g <= _sScale (GeodesicLine_new g lat1 lon1 azi1) /\
  forall out out' : R * R * R,
    Direct g lat1 lon1 azi1 s12 out = Direct g lat1 lon1 azi1 s12 out'.
Proof.
  intros Hb Hep Hlat.
  pose proof (GeodesicLine_new_initialized g lat1 lon1 azi1 Hb Hep Hlat)
    as Hs.
  split; [exact Hs |].
  intros out out'. unfold Direct.
  set (l := GeodesicLine_new g lat1 lon1 azi1) in *.
  unfold Position.
  replace (_sScale l =? 0) with false
    by (symmetry; apply Reqb_false; lra).
  reflexivity.
Qed.

Lemma WGS84_ep2_bounds : 0 <= _ep2 WGS84 <= 1.
Proof.
  unfold WGS84, Geodesic_new, WGS84_r. cbv zeta. rcmp. cbn [_ep2].
  set (f := 1 / 298.257223563).
  assert (Hf : 0 < f < 1 / 298) by (unfold f; split; lra).
  clearbody f.
  assert (Hq : 0 < sq (1 - f)) by (unfold sq; nra).
  split.
  - apply Rmult_le_pos; [nra | left; apply Rinv_0_lt_compat; exact Hq].
  - apply Rmult_le_reg_r with (sq (1 - f)); [exact Hq |].
    unfold Rdiv. rewrite Rmult_assoc, Rinv_l by lra.
    unfold sq. nra.
Qed.

Lemma Direct_assigns_outputs_witness :
  _b WGS84 <= _sScale (GeodesicLine_new WGS84 40 0 30) /\
  forall out out' : R * R * R,
    Direct WGS84 40 0 30 10000000 out = Direct WGS84 40 0 30 10000000 out'.
Proof.
  apply (Direct_assigns_outputs WGS84 40 0 30 10000000).
  - destruct WGS84_bounds as (_ & _ & Hb). lra.
  - exact WGS84_ep2_bounds.
  - abs_numeral. lra.
Defined.

(** ** Ranges of what Position and Direct return *)

Lemma atan2_right_half (y x : R) :
  0 <= x -> - (PI / 2) <= atan2 y x <= PI / 2.
Proof.
  intros Hx. pose proof PI_RGT_0 as HPI.
  pose proof (atan_bound (y / x)) as Ha.
  unfold atan2.
  destruct (0 <? x) eqn:E1; [lra |].
  apply Rltb_false in E1.
  replace (x <? 0) with false by (symmetry; apply Rltb_false; lra).
  destruct (0 <? y); [lra |].
  destruct (y <? 0); lra.
Qed.

Lemma atan2_upper_half (y x : R) : 0 <= y -> 0 <= atan2 y x <= PI.
Proof.
  intros Hy. pose proof PI_RGT_0 as HPI.
  pose proof (atan2_range y x) as Hr.
  split; [| lra].
  pose proof (atan_bound (y / x)) as Ha.
  unfold atan2.
  destruct (0 <? x) eqn:E1.
  - apply Rltb_true in E1.
    rewrite <- atan_0.
    destruct Hy as [Hy | <-].
    + left. apply atan_increasing. apply Rdiv_lt_0_compat; lra.
    + unfold Rdiv. rewrite Rmult_0_l. lra.
  - destruct (x <? 0) eqn:E2.
    + replace (0 <=? y) with true by (symmetry; apply Rleb_true; lra). lra.
    + destruct (0 <? y); [lra |].
      replace (y <? 0) with false by (symmetry; apply Rltb_false; lra). lra.
Qed.

Lemma degrees_of_right_half (t : R) :
  - (PI / 2) <= t <= PI / 2 -> -90 <= t / degree <= 90.
Proof.
  intros H. pose proof PI_RGT_0 as HPI. unfold degree.
  replace (t / (PI / 180)) with (180 * (t / PI)) by (field; lra).
  assert (- (1 / 2) <= t / PI <= 1 / 2).
  { split.
    - apply Rmult_le_reg_r with PI; [lra |].
      unfold Rdiv at 2. rewrite Rmult_assoc, Rinv_l by lra. lra.
    - apply Rmult_le_reg_r with PI; [lra |].
      unfold Rdiv at 1. rewrite Rmult_assoc, Rinv_l by lra. lra. }
  lra.
Qed.

Lemma Position_ranges (l : GeodesicLine) (s12 : R) (out : R * R * R) :
  _sScale l <> 0 -> 0 <= _lf1 l ->
  let '(lat2, lon2, azi2) := Position l s12 out in
  -90 <= lat2 <= 90 /\ -180 < lon2 <= 180 /\ -180 <= azi2 < 180.
Proof.
  intros Hs Hf. unfold Position.
  replace (_sScale l =? 0) with false by (symmetry; apply Reqb_false; exact Hs).
  cbv zeta. split; [| split].
  - apply degrees_of_right_half, atan2_right_half.
    apply Rmult_le_pos; [exact Hf | apply hypot_nonneg].
  - apply AngNormalize_range.
  - apply azimuth_range.
Qed.

(** X8.  On an ellipsoid with b > 0, f1 >= 0 and 0 <= ep2 <= 1, from a latitude
    within 90 degrees, Direct returns a latitude between -90 and 90, a
    longitude in (-180, 180] and an azimuth between -180 and 180, for
    every azimuth and every distance, negative ones included. *)
Theorem Direct_ranges (g : Geodesic) (lat1 lon1 azi1 s12 : R)
  (out : R * R * R) :
  0 < _b g -> 0 <= _f1 g -> 0 <= _ep2 g <= 1 -> Rabs lat1 <= 90 ->
  let '(lat2, lon2, azi2) := Direct g lat1 lon1 azi1 s12 out in
  -90 <= lat2 <= 90 /\ -180 < lon2 <= 180 /\ -180 <= azi2 <= 180.
Proof.
  intros Hb Hf1 Hep Hlat.
  pose proof (Position_ranges (GeodesicLine_new g lat1 lon1 azi1) s12 out)
    as HP.
  unfold Direct.
  destruct (Position (GeodesicLine_new g lat1 lon1 azi1) s12 out)
    as [[lat2 lon2] azi2].
  destruct HP as (H1 & H2 & H3).
  - destruct (GeodesicLine_new_pairs g lat1 lon1 azi1 Hlat)
      as (_ & Hc0 & Hu & _).
    destruct (GeodesicLine_new_sScale g lat1 lon1 azi1) as [Es _].
    rewrite Es.
    assert (Hu2 : 0 <= sq (_calp0 (GeodesicLine_new g lat1 lon1 azi1))
                       * _ep2 g <= 1) by (unfold sq in *; nra).
    pose proof (tauScale_ge_1 _ Hu2). nra.
  - destruct (GeodesicLine_new_sScale g lat1 lon1 azi1) as [_ Ef].
    rewrite Ef. exact Hf1.
  - repeat split; lra.
Qed.

Lemma Direct_ranges_witness :
  let '(lat2, lon2, azi2) := Direct WGS84 40 0 30 (-10000000) (0, 0, 0) in
  -90 <= lat2 <= 90 /\ -180 < lon2 <= 180 /\ -180 <= azi2 <= 180.
Proof.
  apply (Direct_ranges WGS84 40 0 30 (-10000000) (0, 0, 0)).
  - destruct WGS84_bounds as (_ & _ & Hb). lra.
  - destruct WGS84_bounds as (_ & Hf1 & _). lra.
  - exact WGS84_ep2_bounds.
  - abs_numeral. lra.
Defined.

(** ** What Chi12 returns (lines 426-544) *)

Lemma Chi12_calp1_unguarded (sbet1 calp1 : R) :
  sbet1 <> 0 \/ calp1 <> 0 -> Chi12_calp1 sbet1 calp1 = calp1.
Proof.
  intros H. unfold Chi12_calp1.
  destruct (sbet1 =? 0) eqn:E1; [apply Reqb_true in E1 | reflexivity].
  destruct (calp1 =? 0) eqn:E2; [apply Reqb_true in E2 | reflexivity].
  tauto.
Qed.

(** X9.  For reduced latitudes given as unit pairs with positive cosines, an
    azimuth given as a unit pair and |sin alpha1 cos beta1| <= cos beta2
    (so that the square root of line 474 is that of a number that is not
    negative): the arc sig12 that Chi12 returns is at most pi in absolute
    value, and lies in [0, pi] unless the sine given to atan2 is a zero
    and the cosine negative (there the doubles return pi or -pi with the
    sign of that zero); cos alpha2 is not negative; sin alpha2 cos beta2
    equals sin alpha1 cos beta1 (the relation sin(alp) cos(bet) =
    sin(alp0) of the comments); and when the guard of the first lines
    does not fire, (sin alpha2, cos alpha2) is a unit pair. *)
Theorem Chi12_directions (g : Geodesic)
  (sbet1 cbet1 sbet2 cbet2 salp1 calp1 : R) (diffp : bool) :
  sbet1 * sbet1 + cbet1 * cbet1 = 1 -> 0 < cbet1 ->
  sbet2 * sbet2 + cbet2 * cbet2 = 1 -> 0 < cbet2 ->
  salp1 * salp1 + calp1 * calp1 = 1 ->
  Rabs (salp1 * cbet1) <= cbet2 ->
  let r := Chi12 g sbet1 cbet1 sbet2 cbet2 salp1 calp1 diffp in
  Rabs (r_sig12 r) <= PI /\
  (r_csig1 r * r_ssig2 r - r_ssig1 r * r_csig2 r <> 0 \/
   0 <= r_csig1 r * r_csig2 r + r_ssig1 r * r_ssig2 r ->
   0 <= r_sig12 r <= PI) /\
  0 <= r_calp2 r /\
  r_salp2 r * cbet2 = salp1 * cbet1 /\
  (sbet1 <> 0 \/ calp1 <> 0 ->
   r_salp2 r * r_salp2 r + r_calp2 r * r_calp2 r = 1).
Proof.
  intros Hb1 Hc1 Hb2 Hc2 Ha Hreach. cbv zeta.
  assert (Hsig : 0 <= r_sig12 (Chi12 g sbet1 cbet1 sbet2 cbet2 salp1 calp1
                                     diffp) <= PI).
  { unfold Chi12, SinCosNorm. cbv zeta. cbn [r_sig12].
    apply atan2_upper_half, Rmax_r. }
  split; [apply Rabs_le; pose proof PI_RGT_0; lra |].
  split; [intros _; exact Hsig |]. clear Hsig.
  unfold Chi12, SinCosNorm. cbv zeta.
  cbn [r_sig12 r_salp2 r_calp2].
  split.
  { destruct (negb (cbet2 =? cbet1) || negb (Rabs sbet2 =? - sbet1)).
    - apply Rmult_le_pos; [apply sqrt_pos | left; apply Rinv_0_lt_compat; lra].
    - apply Rabs_pos. }
  split.
  { destruct (cbet2 =? cbet1) eqn:E; cbn [negb].
    - apply Reqb_true in E. subst cbet2. reflexivity.
    - field. lra. }
  intros Hg.
  rewrite (Chi12_calp1_unguarded _ _ Hg).
  assert (Hrad : 0 <= sq (calp1 * cbet1) + (cbet2 - cbet1) * (cbet1 + cbet2)).
  { unfold sq.
    assert (salp1 * cbet1 * (salp1 * cbet1) <= cbet2 * cbet2).
    { rewrite <- (Rabs_pos_eq cbet2) in Hreach by lra.
      apply Rsqr_le_abs_1 in Hreach. unfold Rsqr in Hreach. exact Hreach. }
    nra. }
  assert (Esame : (sbet1 - sbet2) * (sbet1 + sbet2) =
                  (cbet2 - cbet1) * (cbet1 + cbet2)) by nra.
  replace (if cbet1 <? - sbet1
           then (cbet2 - cbet1) * (cbet1 + cbet2)
           else (sbet1 - sbet2) * (sbet1 + sbet2))
    with ((cbet2 - cbet1) * (cbet1 + cbet2))
    by (destruct (cbet1 <? - sbet1); [reflexivity | symmetry; exact Esame]).
  set (rad := sq (calp1 * cbet1) + (cbet2 - cbet1) * (cbet1 + cbet2)) in *.
  assert (Esq : sqrt rad * sqrt rad = rad) by (apply sqrt_sqrt; exact Hrad).
  assert (Eabs : Rabs calp1 * Rabs calp1 = calp1 * calp1).
  { rewrite <- Rabs_mult. apply Rabs_pos_eq. nra. }
  destruct (cbet2 =? cbet1) eqn:E;
    [apply Reqb_true in E | apply Reqb_false in E]; cbn [negb orb].
  - subst cbet2.
    destruct (negb (Rabs sbet2 =? - sbet1)).
    + replace (sqrt rad / cbet1 * (sqrt rad / cbet1))
        with (sqrt rad * sqrt rad / (cbet1 * cbet1)) by (field; lra).
      rewrite Esq. unfold rad, sq.
      replace (salp1 * salp1 +
               (calp1 * cbet1 * (calp1 * cbet1) +
                (cbet1 - cbet1) * (cbet1 + cbet1)) / (cbet1 * cbet1))
        with (salp1 * salp1 + calp1 * calp1) by (field; lra).
      exact Ha.
    + rewrite Eabs. exact Ha.
  - replace (salp1 * cbet1 / cbet2 * (salp1 * cbet1 / cbet2) +
             sqrt rad / cbet2 * (sqrt rad / cbet2))
      with ((salp1 * cbet1 * (salp1 * cbet1) + sqrt rad * sqrt rad)
            / (cbet2 * cbet2)) by (field; lra).
    rewrite Esq. unfold rad, sq.
    replace (salp1 * cbet1 * (salp1 * cbet1) +
             (calp1 * cbet1 * (calp1 * cbet1) +
              (cbet2 - cbet1) * (cbet1 + cbet2)))
      with ((salp1 * salp1 + calp1 * calp1 - 1) * (cbet1 * cbet1)
            + cbet2 * cbet2) by ring.
    rewrite Ha. field. lra.
Qed.

Lemma Chi12_directions_witness :
  let r := Chi12 WGS84 (-3 / 5) (4 / 5) 0 1 (3 / 5) (4 / 5) true in
  Rabs (r_sig12 r) <= PI /\
  (r_csig1 r * r_ssig2 r - r_ssig1 r * r_csig2 r <> 0 \/
   0 <= r_csig1 r * r_csig2 r + r_ssig1 r * r_ssig2 r ->
   0 <= r_sig12 r <= PI) /\
  0 <= r_calp2 r /\
  r_salp2 r * 1 = 3 / 5 * (4 / 5) /\
  (-3 / 5 <> 0 \/ 4 / 5 <> 0 ->
   r_salp2 r * r_salp2 r + r_calp2 r * r_calp2 r = 1).
Proof.
  apply (Chi12_directions WGS84 (-3 / 5) (4 / 5) 0 1 (3 / 5) (4 / 5) true);
    try lra.
  replace (3 / 5 * (4 / 5)) with (12 / 25) by lra. abs_numeral. lra.
Defined.

(** ** Inverse on coincident points *)

Lemma Inverse_reduced_same_canonical (g : Geodesic) (lat lon12 : R) :
  -90 <= lat <= 0 ->
  let d := Inverse_reduced g lat lat lon12 in
  d_sbet2 d = d_sbet1 d /\ d_cbet2 d = d_cbet1 d /\ 0 < d_cbet1 d.
Proof.
  intros H. unfold Inverse_reduced, SinCosNorm. cbv zeta.
  cbn [d_sbet1 d_cbet1 d_sbet2 d_cbet2].
  assert (Hq : 0 < (if Rabs lat =? 90 then eps2 else cos (lat * degree))).
  { apply cbet_raw_pos. split_abs; lra. }
  assert (E : (lat =? -90) = (Rabs lat =? 90)).
  { rewrite Rabs_left1 by lra.
    destruct (lat =? -90) eqn:E1;
      [apply Reqb_true in E1 | apply Reqb_false in E1]; symmetry.
    - apply Reqb_true. lra.
    - apply Reqb_false. lra. }
  rewrite E. repeat split.
  apply Rdiv_lt_0_compat; [exact Hq | apply hypot_pos; right; lra].
Qed.

Lemma lon12_raw_same (lon : R) : lon12_raw lon lon = 0.
Proof.
  unfold lon12_raw.
  replace (AngNormalize lon - AngNormalize lon) with 0 by ring.
  rewrite AngNormalize_id by lra. apply AngRound_0.
Qed.

(** X10.  For a point with latitude within 90 degrees, Inverse from the point to
    itself returns the distance 0 and two equal azimuths. *)
Theorem Inverse_coincident (g : Geodesic) (lat lon : R) :
  Rabs lat <= 90 ->
  let '(s12, azi1, azi2) := Inverse g lat lon lat lon in
  s12 = 0 /\ azi1 = azi2.
Proof.
  intros Hlat.
  pose proof (Inverse_canonical_facts lat lon lat lon Hlat Hlat) as HF.
  cbv zeta in HF. destruct HF as (_ & H1 & _).
  rewrite Inverse_eq. cbv zeta.
  rewrite (Inverse_canonical_noswap lat lon lat lon) in * by lra.
  cbn [c_lon12 c_lat1 c_lat2 c_lonsign c_swapp c_latsign] in *.
  rewrite lon12_raw_same, Rabs_R0.
  set (latsign := if AngRound lat <? 0 then 1%Z else (-1)%Z) in *.
  set (B := AngRound lat * IZR latsign) in *.
  rewrite Inverse_azimuths_noswap. cbn [fst snd].
  rewrite Inverse_solve_meridional
    by (apply Inverse_case_meridional; [lra | auto]).
  destruct (Inverse_meridional_directions g (Inverse_reduced g B B 0))
    as (E1 & E2 & E3 & E4).
  rewrite E1, E2, E3, E4, d_schi12_eq, d_cchi12_eq.
  rewrite Rmult_0_l, sin_0, cos_0.
  split; [| reflexivity].
  destruct (Inverse_reduced_same_canonical g B 0 H1) as (Es & Ec & Hpos).
  apply Inverse_meridional_s12_zero; try assumption.
  rewrite d_cchi12_eq, Rmult_0_l. apply cos_0.
Qed.

Lemma Inverse_coincident_witness :
  let '(s12, azi1, azi2) := Inverse WGS84 48 11 48 11 in
  s12 = 0 /\ azi1 = azi2.
Proof.
  apply (Inverse_coincident WGS84 48 11). abs_numeral. lra.
Defined.

(** ** East-west mirror symmetry of Inverse *)

Lemma AngNormalize_period (x : R) (m : Z) :
  AngNormalize (x + 360 * IZR m) = AngNormalize x.
Proof.
  destruct (AngNormalize_shift x) as [k Hk].
  pose proof (AngNormalize_range x) as Hr.
  rewrite (AngNormalize_unique (x + 360 * IZR m) (k - m)%Z);
    rewrite minus_IZR; lra.
Qed.

Lemma lon12_raw_mirror (lon1 lon2 : R) :
  lon12_raw (- lon1) (- lon2) = - lon12_raw lon1 lon2 \/
  (lon12_raw lon1 lon2 = 180 /\ lon12_raw (- lon1) (- lon2) = 180).
Proof.
  unfold lon12_raw.
  assert (Hm : forall x, exists j : Z,
               AngNormalize (- x) = - AngNormalize x + 360 * IZR j).
  { intros x.
    destruct (AngNormalize_shift x) as [k Hk].
    destruct (AngNormalize_shift (- x)) as [k' Hk'].
    exists (k' + k)%Z. rewrite plus_IZR. lra. }
  destruct (Hm lon1) as [j1 E1]. destruct (Hm lon2) as [j2 E2].
  replace (AngNormalize (- lon2) - AngNormalize (- lon1))
    with (- (AngNormalize lon2 - AngNormalize lon1) + 360 * IZR (j2 - j1))
    by (rewrite E1, E2, minus_IZR; ring).
  rewrite AngNormalize_period.
  destruct (AngNormalize_opp (AngNormalize lon2 - AngNormalize lon1))
    as [E | [Ea Eb]].
  - left. rewrite E. apply AngRound_opp.
  - right. rewrite Ea, Eb.
    rewrite AngRound_keeps
      by (abs_numeral; pose proof AngRound_threshold_small; lra).
    auto.
Qed.

Lemma atan2_mirror (y x : R) :
  atan2 (- y) x = - atan2 y x \/ (atan2 (- y) x = PI /\ atan2 y x = PI).
Proof.
  unfold atan2.
  replace (- y / x) with (- (y / x)) by (unfold Rdiv; ring).
  rewrite atan_opp.
  destruct (0 <? x) eqn:E1; [left; reflexivity |].
  destruct (x <? 0) eqn:E2.
  - destruct (Rtotal_order y 0) as [Hy | [Hy | Hy]].
    + replace (0 <=? - y) with true by (symmetry; apply Rleb_true; lra).
      replace (0 <=? y) with false by (symmetry; apply Rleb_false; lra).
      left. ring.
    + subst y. rewrite Ropp_0.
      replace (0 <=? 0) with true by (symmetry; apply Rleb_true; lra).
      right. unfold Rdiv. rewrite Rmult_0_l, atan_0. split; ring.
    + replace (0 <=? - y) with false by (symmetry; apply Rleb_false; lra).
      replace (0 <=? y) with true by (symmetry; apply Rleb_true; lra).
      left. ring.
  - destruct (Rtotal_order y 0) as [Hy | [Hy | Hy]].
    + replace (0 <? - y) with true by (symmetry; apply Rltb_true; lra).
      replace (0 <? y) with false by (symmetry; apply Rltb_false; lra).
      replace (y <? 0) with true by (symmetry; apply Rltb_true; lra).
      left. ring.
    + subst y. rewrite Ropp_0.
      replace (0 <? 0) with false by (symmetry; apply Rltb_false; lra).
      left. ring.
    + replace (0 <? - y) with false by (symmetry; apply Rltb_false; lra).
      replace (- y <? 0) with true by (symmetry; apply Rltb_true; lra).
      replace (0 <? y) with true by (symmetry; apply Rltb_true; lra).
      left. reflexivity.
Qed.

Lemma azimuth_of_mirror (y x : R) :
  negation_of (azimuth_of (- y) x) (azimuth_of y x).
Proof.
  pose proof PI_RGT_0 as HPI. unfold azimuth_of.
  destruct (atan2_mirror y x) as [E | [E1 E2]].
  - rewrite E. exists 0%Z. simpl (IZR 0). unfold Rdiv. ring.
  - rewrite E1, E2. exists (-1)%Z. simpl (IZR (-1)).
    unfold degree. field. lra.
Qed.

Lemma negation_of_zero_sine (x : R) :
  negation_of (azimuth_of 0 x) (azimuth_of 0 x).
Proof.
  pose proof (azimuth_of_mirror 0 x) as H. rewrite Ropp_0 in H. exact H.
Qed.

Lemma Inverse_azimuths_mirror (lonsign lonsign' swapp latsign : Z)
  (s : Solution) :
  lonsign' = (- lonsign)%Z \/
  (lonsign' = lonsign /\ s_salp1 s = 0 /\ s_salp2 s = 0) ->
  let '(azi1, azi2) := Inverse_azimuths lonsign swapp latsign s in
  let '(azi1', azi2') := Inverse_azimuths lonsign' swapp latsign s in
  negation_of azi1' azi1 /\ negation_of azi2' azi2.
Proof.
  intros H. unfold Inverse_azimuths.
  fold (azimuth_of
          (IZR (- swapp * lonsign) *
           fst (if (swapp <? 0)%Z then (s_salp2 s, s_salp1 s)
                else (s_salp1 s, s_salp2 s)))
          (IZR (swapp * latsign) *
           fst (if (swapp <? 0)%Z then (s_calp2 s, s_calp1 s)
                else (s_calp1 s, s_calp2 s)))).
  destruct H as [E | (E & Z1 & Z2)].
  - subst lonsign'.
    destruct (swapp <? 0)%Z; cbv iota beta;
      split;
      match goal with
      | |- negation_of (0 - atan2 (IZR ?a * ?u) ?v / degree)
                       (0 - atan2 (IZR ?b * ?u) ?v / degree) =>
          replace (IZR a * u) with (- (IZR b * u))
            by (replace a with (- b)%Z by lia; rewrite opp_IZR; ring);
          apply azimuth_of_mirror
      end.
  - subst lonsign'. rewrite Z1, Z2.
    destruct (swapp <? 0)%Z; cbv iota beta;
      rewrite !Rmult_0_r; split; apply negation_of_zero_sine.
Qed.

(** Either the sign test of the longitude difference flips, or the
    difference is 0 or 180, the case is the meridional one and both sines
    are 0. *)
Lemma lon_sign_mirror (g : Geodesic) (N N' lat1 lat2 : R) :
  N' = - N \/ (N = 180 /\ N' = 180) ->
  let s := Inverse_solve g lat1 lat2 (Rabs N) in
  (0 <=? N') = negb (0 <=? N) \/
  ((0 <=? N') = (0 <=? N) /\ s_salp1 s = 0 /\ s_salp2 s = 0).
Proof.
  intros H s.
  assert (Hmer : Rabs N = 0 \/ Rabs N = 180 ->
                 s_salp1 s = 0 /\ s_salp2 s = 0).
  { intros HN. unfold s.
    rewrite Inverse_solve_meridional.
    - destruct (Inverse_meridional_directions g
                  (Inverse_reduced g lat1 lat2 (Rabs N)))
        as (E1 & _ & E3 & _).
      rewrite E1, E3, d_schi12_eq. split; [| reflexivity].
      apply sin_degrees_zero; [| exact HN].
      pose proof (Rabs_pos N). destruct HN as [HN | HN]; rewrite HN; lra.
    - apply Inverse_case_meridional.
      + pose proof (Rabs_pos N). destruct HN as [HN | HN]; rewrite HN; lra.
      + tauto. }
  destruct H as [E | [E1 E2]].
  - destruct (Req_dec_T N 0) as [E0 | NE0].
    + right. subst N'. rewrite E0, Ropp_0. split; [reflexivity |].
      apply Hmer. left. rewrite E0. apply Rabs_R0.
    + left. subst N'.
      destruct (0 <=? N) eqn:EN;
        [apply Rleb_true in EN | apply Rleb_false in EN]; cbn [negb].
      * apply Rleb_false. lra.
      * apply Rleb_true. lra.
  - right. rewrite E1, E2. split; [reflexivity |].
    apply Hmer. right. rewrite E1. abs_numeral. reflexivity.
Qed.

(** X11.  Mirroring both longitudes (lon -> -lon) leaves the distance returned
    by Inverse unchanged and turns each azimuth into its negative, modulo
    360 degrees; this holds for every input. *)
Theorem Inverse_mirror_longitude (g : Geodesic) (lat1 lon1 lat2 lon2 : R) :
  let '(s12, azi1, azi2) := Inverse g lat1 lon1 lat2 lon2 in
  let '(s12', azi1', azi2') := Inverse g lat1 (- lon1) lat2 (- lon2) in
  s12' = s12 /\ negation_of azi1' azi1 /\ negation_of azi2' azi2.
Proof.
  rewrite !Inverse_eq. cbv zeta.
  pose proof (lon12_raw_mirror lon1 lon2) as Hraw.
  assert (Habs : Rabs (lon12_raw (- lon1) (- lon2)) =
                 Rabs (lon12_raw lon1 lon2)).
  { destruct Hraw as [E | [E1 E2]].
    - rewrite E. apply Rabs_Ropp.
    - rewrite E1, E2. reflexivity. }
  set (N := lon12_raw lon1 lon2) in *.
  set (N' := lon12_raw (- lon1) (- lon2)) in *.
  destruct (Rlt_le_dec (Rabs (AngRound lat1)) (Rabs (AngRound lat2)))
    as [Hlt | Hge].
  - rewrite (Inverse_canonical_swap lat1 lon1 lat2 lon2) by exact Hlt.
    rewrite (Inverse_canonical_swap lat1 (- lon1) lat2 (- lon2)) by exact Hlt.
    cbn [c_lon12 c_lat1 c_lat2 c_lonsign c_swapp c_latsign].
    fold N N'. rewrite Habs.
    set (la := if AngRound lat2 <? 0 then 1%Z else (-1)%Z).
    pose proof (lon_sign_mirror g N N' (AngRound lat2 * IZR la)
                  (AngRound lat1 * IZR la) Hraw) as HS.
    cbv zeta in HS.
    set (s := Inverse_solve g (AngRound lat2 * IZR la)
                (AngRound lat1 * IZR la) (Rabs N)) in *.
    pose proof (Inverse_azimuths_mirror
                  (if 0 <=? N then (-1)%Z else 1%Z)
                  (if 0 <=? N' then (-1)%Z else 1%Z) (-1) la s) as HM.
    destruct (Inverse_azimuths (if 0 <=? N then (-1)%Z else 1%Z) (-1) la s)
      as [azi1 azi2].
    destruct (Inverse_azimuths (if 0 <=? N' then (-1)%Z else 1%Z) (-1) la s)
      as [azi1' azi2'].
    cbn [fst snd]. split; [reflexivity |]. apply HM.
    destruct HS as [HS | (HS & Z1 & Z2)]; rewrite HS.
    + left. destruct (0 <=? N); reflexivity.
    + right. auto.
  - rewrite (Inverse_canonical_noswap lat1 lon1 lat2 lon2) by exact Hge.
    rewrite (Inverse_canonical_noswap lat1 (- lon1) lat2 (- lon2))
      by exact Hge.
    cbn [c_lon12 c_lat1 c_lat2 c_lonsign c_swapp c_latsign].
    fold N N'. rewrite Habs.
    set (la := if AngRound lat1 <? 0 then 1%Z else (-1)%Z).
    pose proof (lon_sign_mirror g N N' (AngRound lat1 * IZR la)
                  (AngRound lat2 * IZR la) Hraw) as HS.
    cbv zeta in HS.
    set (s := Inverse_solve g (AngRound lat1 * IZR la)
                (AngRound lat2 * IZR la) (Rabs N)) in *.
    pose proof (Inverse_azimuths_mirror
                  (if 0 <=? N then 1%Z else (-1)%Z)
                  (if 0 <=? N' then 1%Z else (-1)%Z) 1 la s) as HM.
    destruct (Inverse_azimuths (if 0 <=? N then 1%Z else (-1)%Z) 1 la s)
      as [azi1 azi2].
    destruct (Inverse_azimuths (if 0 <=? N' then 1%Z else (-1)%Z) 1 la s)
      as [azi1' azi2'].
    cbn [fst snd]. split; [reflexivity |]. apply HM.
    destruct HS as [HS | (HS & Z1 & Z2)]; rewrite HS.
    + left. destruct (0 <=? N); reflexivity.
    + right. auto.
Qed.

(** ** Geodesics along the equator *)

(** X12.  Between two points of the equator whose longitudes, both in
    (-180, 180], differ by less than 180 degrees, by at least the rounding
    threshold and by no more than (1 - f) * 180 degrees, Inverse returns
    the length of the equatorial arc, a times the difference in radians,
    and the azimuths 90 (eastwards) or -90 (westwards). *)
Theorem Inverse_along_equator (g : Geodesic) (lon1 lon2 : R) :
  -180 < lon1 <= 180 -> -180 < lon2 <= 180 ->
  AngRound_threshold <= Rabs (lon2 - lon1) < 180 ->
  Rabs (lon2 - lon1) <= (1 - _f g) * 180 ->
  Inverse g 0 lon1 0 lon2 =
  (_a g * (Rabs (lon2 - lon1) * degree),
   if 0 <=? lon2 - lon1 then 90 else -90,
   if 0 <=? lon2 - lon1 then 90 else -90).
Proof.
  intros H1 H2 [Hthr Hd] Hf.
  pose proof degree_pos as Hdeg.
  assert (Ed : AngNormalize (AngNormalize lon2 - AngNormalize lon1) =
               lon2 - lon1).
  { rewrite (AngNormalize_id lon1), (AngNormalize_id lon2) by lra.
    apply AngNormalize_id.
    unfold Rabs in Hd. destruct (Rcase_abs (lon2 - lon1)); lra. }
  pose proof (Inverse_equator g lon1 lon2) as HI. cbv zeta in HI.
  rewrite Ed in HI. apply HI; try assumption.
  unfold pi, degree in *.
  replace (PI - _f g * PI) with ((1 - _f g) * 180 * (PI / 180)) by field.
  apply Rmult_le_compat_r; lra.
Qed.

Lemma Inverse_along_equator_witness :
  Inverse WGS84 0 (-100) 0 30 =
  (_a WGS84 * (Rabs (30 - -100) * degree),
   if 0 <=? 30 - -100 then 90 else -90,
   if 0 <=? 30 - -100 then 90 else -90).
Proof.
  apply (Inverse_along_equator WGS84 (-100) 30); try lra.
  - replace (30 - -100) with 130 by lra. abs_numeral.
    pose proof AngRound_threshold_small. lra.
  - replace (30 - -100) with 130 by lra. abs_numeral.
    destruct WGS84_bounds as (Hf & _). lra.
Defined.

(** X13.  On an ellipsoid built with a > 0 and r > 1, Direct from a point of the
    equator due east (azimuth 90) stays on the equator, keeps the azimuth
    90 and moves the longitude by s12 / a radians, for every distance
    s12 (negative ones, that is westwards, included) with |s12| < pi * b
    that does not take the longitude out of (-180, 180]. *)
Theorem Direct_along_equator (a r lon1 s12 : R) (out : R * R * R) :
  0 < a -> 1 < r ->
  -180 < lon1 <= 180 ->
  Rabs s12 < PI * _b (Geodesic_new a r) ->
  -180 < lon1 + s12 / (a * degree) <= 180 ->
  Direct (Geodesic_new a r) 0 lon1 90 s12 out =
  (0, lon1 + s12 / (a * degree), 90).
Proof.
  intros Ha Hr Hl Hs Hrange.
  pose proof degree_pos as Hdeg. pose proof PI_RGT_0 as HPI.
  set (g := Geodesic_new a r) in *.
  assert (Hg : _a g = a /\ _f g = 1 / r /\ _f1 g = 1 - 1 / r /\
               _b g = a * (1 - 1 / r)).
  { unfold g, Geodesic_new. cbv zeta.
    replace (0 <? r) with true by (symmetry; apply Rltb_true; lra).
    cbn [_a _f _f1 _b]. repeat split. }
  destruct Hg as (Ea & Ef & Ef1 & Eb).
  assert (Hf : 0 < 1 / r < 1).
  { split.
    - apply Rdiv_lt_0_compat; lra.
    - apply Rmult_lt_reg_r with r; [lra |].
      unfold Rdiv. rewrite Rmult_assoc, Rinv_l by lra. lra. }
  assert (Hb : 0 < _b g) by (rewrite Eb; nra).
  assert (Hf1 : 0 < _f1 g) by (rewrite Ef1; lra).
  assert (Et : s12 / _b g * (1 - _f g) / degree = s12 / (a * degree)).
  { rewrite Eb, Ef. field. repeat split; lra. }
  assert (Hq : - PI < s12 / _b g < PI).
  { unfold Rabs in Hs. split.
    - apply Rmult_lt_reg_r with (_b g); [exact Hb |].
      unfold Rdiv. rewrite Rmult_assoc, Rinv_l by lra.
      destruct (Rcase_abs s12); lra.
    - apply Rmult_lt_reg_r with (_b g); [exact Hb |].
      unfold Rdiv. rewrite Rmult_assoc, Rinv_l by lra.
      destruct (Rcase_abs s12); lra. }
  assert (Hd : -180 < s12 / (a * degree) < 180).
  { replace (s12 / (a * degree))
      with (s12 / _b g * ((1 - 1 / r) / degree))
      by (rewrite Eb; field; repeat split; lra).
    assert (Hk : 0 < (1 - 1 / r) / degree < 180 / PI).
    { unfold degree. split.
      - apply Rdiv_lt_0_compat; lra.
      - replace ((1 - 1 / r) / (PI / 180)) with ((1 - 1 / r) * (180 / PI))
          by (field; lra).
        assert (0 < 180 / PI) by (apply Rdiv_lt_0_compat; lra).
        nra. }
    assert (HP : 180 / PI * PI = 180) by (field; lra).
    split; nra. }
  unfold Direct.
  rewrite (Position_equator g lon1 s12 out Hb Hf1) by lra.
  rewrite Et, (AngNormalize_id lon1) by lra.
  rewrite AngNormalize_id by lra. reflexivity.
Qed.

Lemma Direct_along_equator_witness :
  Direct (Geodesic_new 6378137 298.257223563) 0 10 90 (-1000000) (0, 0, 0) =
  (0, 10 + -1000000 / (6378137 * degree), 90).
Proof.
  pose proof PI_RGT_0 as HPI. pose proof PI2_3_2 as H32.
  pose proof PI_4 as H4.
  assert (E : -1000000 / (6378137 * degree) =
              - (1000000 / 6378137 * 180) / PI)
    by (unfold degree; field; lra).
  assert (Hq : 0 < 1000000 / 6378137 * 180 / PI < 10).
  { split.
    - apply Rdiv_lt_0_compat; lra.
    - apply Rmult_lt_reg_r with PI; [lra |].
      unfold Rdiv at 1. rewrite Rmult_assoc, Rinv_l by lra. lra. }
  apply (Direct_along_equator 6378137 298.257223563 10 (-1000000) (0, 0, 0));
    try lra.
  unfold Geodesic_new. cbv zeta. rcmp. cbn [_b].
  rewrite Rabs_left by lra. lra.
Defined.

(** ** Lines from a pole, lines on a sphere *)

Lemma cos_180_degree : cos (180 * degree) = -1.
Proof.
  unfold degree. replace (180 * (PI / 180)) with PI by field.
  apply cos_PI.
Qed.

(** X14.  At a pole the constructor of GeodesicLine trades the azimuth for a
    longitude: from the north pole the line is stored with azimuth 180
    and _bsign -1, from the south pole with azimuth 0 and _bsign 1, the
    azimuth given is moved into _lon1, and the line is a meridian:
    sin alpha0 is 0 and cos alpha0 is 1. *)
Theorem GeodesicLine_new_poles (g : Geodesic) (lon1 azi1 : R) :
  let n := GeodesicLine_new g 90 lon1 azi1 in
  let s := GeodesicLine_new g (-90) lon1 azi1 in
  let a := AngNormalize azi1 in
  (_bsign n = (-1)%Z /\ _azi1 n = 180 /\
   _lon1 n = AngNormalize (lon1 - (a - (if 0 <=? a then 180 else -180))) /\
   _salp0 n = 0 /\ _calp0 n = 1) /\
  (_bsign s = 1%Z /\ _azi1 s = 0 /\
   _lon1 s = AngNormalize (lon1 + a) /\
   _salp0 s = 0 /\ _calp0 s = 1).
Proof.
  cbv zeta. pose proof AngRound_threshold_small as Hthr.
  unfold GeodesicLine_new, SinCosNorm. cbv zeta.
  rewrite (Reqb_refl 90).
  replace (-90 =? 90) with false by (symmetry; apply Reqb_false; lra).
  rewrite (Reqb_refl (-90)).
  cbv beta iota.
  rewrite (AngRound_keeps (-180)) by (abs_numeral; lra).
  rewrite AngRound_0.
  replace (0 <=? -180) with false by (symmetry; apply Rleb_false; lra).
  replace (0 <=? 0) with true by (symmetry; apply Rleb_true; lra).
  replace (-180 * -1) with 180 by lra.
  replace (0 * 1) with 0 by lra.
  rewrite (Reqb_refl 180).
  replace (180 =? 90) with false by (symmetry; apply Reqb_false; lra).
  replace (0 =? 180) with false by (symmetry; apply Reqb_false; lra).
  replace (0 =? 90) with false by (symmetry; apply Reqb_false; lra).
  cbn [_bsign _azi1 _lon1 _salp0 _calp0].
  rewrite cos_180_degree, (Rmult_0_l degree), sin_0, cos_0, !Rmult_0_l.
  replace (hypot (-1) 0) with 1
    by (rewrite hypot_0_r; abs_numeral; lra).
  replace (hypot 1 0) with 1
    by (rewrite hypot_0_r; abs_numeral; lra).
  repeat split; reflexivity.
Qed.

Lemma dlamScale_sphere (mu : R) : dlamScale 0 mu = 0.
Proof. unfold dlamScale. cbv zeta. ring. Qed.

Lemma dlamCoeff_sphere (mu : R) : dlamCoeff 0 mu = zeros8.
Proof.
  unfold dlamCoeff, zeros8. cbv zeta. repeat (f_equal; try field).
Qed.

Lemma GeodesicLine_new_round (g : Geodesic) (lat1 lon1 azi1 : R) :
  _f g = 0 -> _ep2 g = 0 ->
  let l := GeodesicLine_new g lat1 lon1 azi1 in
  _sScale l = _b g /\ _dtau1 l = 0 /\
  _stau1 l = _ssig1 l /\ _ctau1 l = _csig1 l /\
  _sigCoeff l = zeros8 /\
  _dlamScale l = 0 /\ _dlamCoeff l = zeros8 /\ _dchi1 l = 0.
Proof.
  intros Ef Eep. cbv zeta.
  line_unfold;
    cbn [_sScale _dtau1 _stau1 _ctau1 _ssig1 _csig1 _sigCoeff _dlamScale
         _dlamCoeff _dchi1];
    rewrite Ef, Eep, !Rmult_0_r, tauScale_0, tauCoeff_0, sigCoeff_0,
      dlamScale_sphere, dlamCoeff_sphere;
    unfold maxpow_taucoef, maxpow_lamcoef;
    rewrite !SinSeries_zeros8, sin_0, cos_0;
    repeat split; ring.
Qed.

(** X15.  On a sphere (the constructor of Geodesic called with r <= 0) every
    series correction of a line vanishes: the distance scale is the
    radius a, dtau1 and dchi1 are 0, tau1 is sig1, the longitude scale is
    0 and both coefficient arrays hold zeros. *)
Theorem GeodesicLine_new_sphere (a r lat1 lon1 azi1 : R) :
  r <= 0 ->
  let l := GeodesicLine_new (Geodesic_new a r) lat1 lon1 azi1 in
  _sScale l = a /\ _dtau1 l = 0 /\
  _stau1 l = _ssig1 l /\ _ctau1 l = _csig1 l /\
  _sigCoeff l = zeros8 /\
  _dlamScale l = 0 /\ _dlamCoeff l = zeros8 /\ _dchi1 l = 0.
Proof.
  intros Hr. cbv zeta. rewrite (Geodesic_new_round a r Hr).
  pose proof (GeodesicLine_new_round (mkGeodesic a 0 1 0 0 a)
                lat1 lon1 azi1) as H.
  cbv zeta in H. cbn [_f _ep2 _b] in H.
  apply H; reflexivity.
Qed.

Lemma GeodesicLine_new_sphere_witness :
  let l := GeodesicLine_new (Geodesic_new 6371000 0) 30 20 45 in
  _sScale l = 6371000 /\ _dtau1 l = 0 /\
  _stau1 l = _ssig1 l /\ _ctau1 l = _csig1 l /\
  _sigCoeff l = zeros8 /\
  _dlamScale l = 0 /\ _dlamCoeff l = zeros8 /\ _dchi1 l = 0.
Proof. apply (GeodesicLine_new_sphere 6371000 0 30 20 45). lra. Defined.

(** ** The loop on the astroid equation *)

Lemma SinCosNorm_first_quadrant (x y : R) :
  0 <= x -> 0 <= y -> x <> 0 \/ y <> 0 ->
  0 <= fst (SinCosNorm x y) <= 1 /\ 0 <= snd (SinCosNorm x y) <= 1.
Proof.
  intros Hx Hy Hn. unfold SinCosNorm. cbn [fst snd].
  pose proof (hypot_pos x y Hn) as Hh.
  pose proof (hypot_ge_l x y) as Hl. pose proof (hypot_ge_r x y) as Hr.
  rewrite Rabs_right in Hl by lra. rewrite Rabs_right in Hr by lra.
  split; split.
  - apply Rmult_le_pos; [lra | left; apply Rinv_0_lt_compat; lra].
  - apply Rmult_le_reg_r with (hypot x y); [lra |].
    unfold Rdiv. rewrite Rmult_assoc, Rinv_l by lra. lra.
  - apply Rmult_le_pos; [lra | left; apply Rinv_0_lt_compat; lra].
  - apply Rmult_le_reg_r with (hypot x y); [lra |].
    unfold Rdiv. rewrite Rmult_assoc, Rinv_l by lra. lra.
Qed.

Lemma SinCosNorm_unit_pair (x y : R) :
  x <> 0 \/ y <> 0 ->
  sq (fst (SinCosNorm x y)) + sq (snd (SinCosNorm x y)) = 1.
Proof. intros H. unfold SinCosNorm. cbn [fst snd]. apply SinCosNorm_unit_out, H. Qed.

(** X16.  The loop on the astroid equation, where it computes as the doubles do
    (no division by a zero dv, no normalization of the zero pair), never
    leaves the first quadrant: started from a pair with both components
    in [0, 1], as the starting pairs (1, 0) and (0, 1) of the code are, it
    ends with both components in [0, 1]; and started from a unit pair it
    ends with a unit pair. *)
Theorem Inverse_astroid_loop_first_quadrant (fuel : nat)
  (x y salp1 calp1 : R) :
  0 <= salp1 <= 1 -> 0 <= calp1 <= 1 ->
  Inverse_astroid_loop_finite fuel x y salp1 calp1 ->
  let p := Inverse_astroid_loop fuel x y salp1 calp1 in
  0 <= fst p <= 1 /\ 0 <= snd p <= 1 /\
  (sq salp1 + sq calp1 = 1 -> sq (fst p) + sq (snd p) = 1).
Proof.
  revert salp1 calp1.
  induction fuel as [| fuel IH]; intros salp1 calp1 Hs Hc Hfin; cbv zeta.
  - cbn [Inverse_astroid_loop fst snd]. auto.
  - cbn [Inverse_astroid_loop Inverse_astroid_loop_finite] in *.
    cbv zeta in Hfin |- *.
    destruct (_ =? 0).
    + cbn [fst snd]. auto.
    + destruct Hfin as (_ & Hn & Hfin).
      match type of Hn with
      | ?a <> 0 \/ ?b <> 0 =>
          pose proof (SinCosNorm_first_quadrant a b (Rmax_l _ _) (Rmax_l _ _)
                        Hn) as [H1 H2];
          pose proof (SinCosNorm_unit_pair a b Hn) as Hu;
          destruct (SinCosNorm a b) as [s' c']
      end.
      cbn [fst snd] in H1, H2, Hu.
      destruct (_ <? tol1).
      * cbn [fst snd]. auto.
      * destruct (IH s' c' H1 H2 Hfin) as (I1 & I2 & I3).
        split; [exact I1 |]. split; [exact I2 |].
        intros _. exact (I3 Hu).
Qed.

Lemma Inverse_astroid_loop_finite_step (fuel : nat) (x y salp1 calp1 : R) :
  Inverse_astroid_loop_finite (S fuel) x y salp1 calp1 =
  let v := calp1 * (salp1 + x) - y * salp1 in
  let dv := - calp1 * y - salp1 * x + (calp1 - salp1) * (calp1 + salp1) in
  let da := - v / dv in
  if v =? 0 then True
  else
    dv <> 0 /\
    (Rmax 0 (salp1 * cos da + calp1 * sin da) <> 0 \/
     Rmax 0 (calp1 * cos da - salp1 * sin da) <> 0) /\
    let '(salp1, calp1) :=
      SinCosNorm (Rmax 0 (salp1 * cos da + calp1 * sin da))
                 (Rmax 0 (calp1 * cos da - salp1 * sin da)) in
    if Rabs da <? tol1 then True
    else Inverse_astroid_loop_finite fuel x y salp1 calp1.
Proof. reflexivity. Qed.

Lemma tol1_value : tol1 = / 2 ^ 26.
Proof.
  unfold tol1, double_epsilon. apply sqrt_lem_1.
  - left. apply Rinv_0_lt_compat, pow_lt. lra.
  - left. apply Rinv_0_lt_compat, pow_lt. lra.
  - rewrite <- Rinv_mult, <- pow_add. reflexivity.
Qed.

Lemma Inverse_astroid_loop_first_quadrant_witness :
  let p := Inverse_astroid_loop 30 0 (- / 2 ^ 30) 1 0 in
  0 <= fst p <= 1 /\ 0 <= snd p <= 1 /\
  (sq 1 + sq 0 = 1 -> sq (fst p) + sq (snd p) = 1).
Proof.
  apply (Inverse_astroid_loop_first_quadrant 30 0 (- / 2 ^ 30) 1 0);
    [lra | lra |].
  pose proof PI2_1 as HP.
  assert (Hy : 0 < / 2 ^ 30 < / 2 ^ 26).
  { split.
    - apply Rinv_0_lt_compat, pow_lt. lra.
    - apply Rinv_lt_contravar.
      + apply Rmult_lt_0_compat; apply pow_lt; lra.
      + apply Rlt_pow; [lra | lia]. }
  assert (Hs : / 2 ^ 26 < 1).
  { rewrite <- Rinv_1. apply Rinv_lt_contravar.
    - rewrite Rmult_1_l. apply pow_lt. lra.
    - apply Rlt_pow_R1; [lra | lia]. }
  rewrite Inverse_astroid_loop_finite_step. cbv zeta.
  replace (0 * (1 + 0) - - / 2 ^ 30 * 1) with (/ 2 ^ 30) by ring.
  replace (- 0 * - / 2 ^ 30 - 1 * 0 + (0 - 1) * (0 + 1)) with (-1) by ring.
  replace (- / 2 ^ 30 / -1) with (/ 2 ^ 30) by (field; apply pow_nonzero; lra).
  replace (/ 2 ^ 30 =? 0) with false by (symmetry; apply Reqb_false; lra).
  assert (Hc : 0 < cos (/ 2 ^ 30)) by (apply cos_gt_0; lra).
  replace (1 * cos (/ 2 ^ 30) + 0 * sin (/ 2 ^ 30)) with (cos (/ 2 ^ 30))
    by ring.
  rewrite (Rmax_right 0 (cos (/ 2 ^ 30))) by lra.
  split; [lra |]. split; [left; lra |].
  destruct (SinCosNorm _ _) as [s c].
  replace (Rabs (/ 2 ^ 30) <? tol1) with true; [exact I |].
  symmetry. apply Rltb_true. rewrite tol1_value, Rabs_right by lra. lra.
Defined.

(** ** Inverse and the reflection in the equator *)

Lemma atan2_supplement (y x : R) :
  x <> 0 \/ y <> 0 ->
  exists k : Z, atan2 y (- x) = PI - atan2 y x + 2 * PI * IZR k.
Proof.
  intros H.
  assert (H' : x <> 0 \/ - y <> 0) by (destruct H; [left | right]; lra).
  pose proof (atan2_reverse (- y) x H') as HR.
  rewrite Ropp_involutive in HR.
  destruct (atan2_mirror y x) as [E | [E1 E2]].
  - rewrite E in HR. destruct HR as [E' | E']; rewrite E'.
    + exists 0%Z. simpl (IZR 0). ring.
    + exists (-1)%Z. simpl (IZR (-1)). ring.
  - rewrite E1 in HR. rewrite E2. destruct HR as [E' | E']; rewrite E'.
    + exists 1%Z. simpl (IZR 1). ring.
    + exists 0%Z. simpl (IZR 0). ring.
Qed.

Lemma azimuth_of_supplement (y x : R) :
  x <> 0 \/ y <> 0 ->
  supplement_of (azimuth_of y (- x)) (azimuth_of y x).
Proof.
  intros H. pose proof PI_RGT_0 as HPI.
  destruct (atan2_supplement y x H) as [k Hk].
  unfold azimuth_of. rewrite Hk.
  exists (- 1 - k)%Z. rewrite minus_IZR. simpl (IZR (-1)).
  unfold degree. field. lra.
Qed.

Lemma azimuth_of_supplement_or_zero (y x : R) :
  supplement_of (azimuth_of y (- x)) (azimuth_of y x) \/
  (azimuth_of y (- x) = 0 /\ azimuth_of y x = 0).
Proof.
  destruct (Req_dec_T x 0) as [Ex | Nx].
  - destruct (Req_dec_T y 0) as [Ey | Ny].
    + right. subst x y. rewrite Ropp_0.
      assert (E : azimuth_of 0 0 = 0).
      { unfold azimuth_of, atan2. rcmp. unfold Rdiv. ring. }
      split; exact E.
    + left. apply azimuth_of_supplement. right. exact Ny.
  - left. apply azimuth_of_supplement. left. exact Nx.
Qed.

Lemma latsign_mirror (A : R) :
  A <> 0 ->
  (if - A <? 0 then 1%Z else (-1)%Z) =
  Z.opp (if A <? 0 then 1%Z else (-1)%Z).
Proof.
  intros H.
  destruct (Rtotal_order A 0) as [Hlt | [E | Hgt]]; [| contradiction |].
  - replace (- A <? 0) with false by (symmetry; apply Rltb_false; lra).
    replace (A <? 0) with true by (symmetry; apply Rltb_true; lra).
    reflexivity.
  - replace (- A <? 0) with true by (symmetry; apply Rltb_true; lra).
    replace (A <? 0) with false by (symmetry; apply Rltb_false; lra).
    reflexivity.
Qed.

Lemma Inverse_azimuths_supplement (lonsign swapp latsign : Z)
  (s : Solution) :
  let '(azi1, azi2) := Inverse_azimuths lonsign swapp latsign s in
  let '(azi1', azi2') := Inverse_azimuths lonsign swapp (- latsign) s in
  (supplement_of azi1' azi1 \/ (azi1' = 0 /\ azi1 = 0)) /\
  (supplement_of azi2' azi2 \/ (azi2' = 0 /\ azi2 = 0)).
Proof.
  unfold Inverse_azimuths.
  destruct (swapp <? 0)%Z; cbv iota beta;
    split;
    match goal with
    | |- supplement_of (0 - atan2 ?u (IZR ?a * ?v) / degree)
                       (0 - atan2 ?u (IZR ?b * ?v) / degree) \/ _ =>
        replace (IZR a * v) with (- (IZR b * v))
          by (replace a with (- b)%Z by lia; rewrite opp_IZR; ring);
        apply azimuth_of_supplement_or_zero
    end.
Qed.

(** X18.  Reflecting both points in the equator (lat -> -lat), when the two
    latitudes are not both rounded to 0, leaves the distance returned by
    Inverse unchanged and turns each azimuth azi into 180 - azi, modulo
    360 degrees; where the solver's direction pair degenerates to (0, 0)
    the azimuth is 0 before and after. *)
Theorem Inverse_mirror_latitude (g : Geodesic) (lat1 lon1 lat2 lon2 : R) :
  AngRound lat1 <> 0 \/ AngRound lat2 <> 0 ->
  let '(s12, azi1, azi2) := Inverse g lat1 lon1 lat2 lon2 in
  let '(s12', azi1', azi2') := Inverse g (- lat1) lon1 (- lat2) lon2 in
  s12' = s12 /\
  (supplement_of azi1' azi1 \/ (azi1' = 0 /\ azi1 = 0)) /\
  (supplement_of azi2' azi2 \/ (azi2' = 0 /\ azi2 = 0)).
Proof.
  intros Hnz. rewrite !Inverse_eq. cbv zeta.
  set (N := lon12_raw lon1 lon2).
  destruct (Rlt_le_dec (Rabs (AngRound lat1)) (Rabs (AngRound lat2)))
    as [Hlt | Hge].
  - assert (H2 : AngRound lat2 <> 0).
    { intros E. rewrite E, Rabs_R0 in Hlt.
      pose proof (Rabs_pos (AngRound lat1)). lra. }
    rewrite (Inverse_canonical_swap lat1 lon1 lat2 lon2) by exact Hlt.
    rewrite (Inverse_canonical_swap (- lat1) lon1 (- lat2) lon2)
      by (rewrite !AngRound_opp, !Rabs_Ropp; exact Hlt).
    cbn [c_lon12 c_lat1 c_lat2 c_lonsign c_swapp c_latsign].
    fold N. rewrite !AngRound_opp, (latsign_mirror _ H2).
    set (la := if AngRound lat2 <? 0 then 1%Z else (-1)%Z).
    rewrite opp_IZR.
    replace (- AngRound lat2 * - IZR la) with (AngRound lat2 * IZR la)
      by ring.
    replace (- AngRound lat1 * - IZR la) with (AngRound lat1 * IZR la)
      by ring.
    set (s := Inverse_solve g _ _ _).
    pose proof (Inverse_azimuths_supplement
                  (if 0 <=? N then (-1)%Z else 1%Z) (-1) la s) as HM.
    destruct (Inverse_azimuths (if 0 <=? N then (-1)%Z else 1%Z) (-1) la s)
      as [azi1 azi2].
    destruct (Inverse_azimuths (if 0 <=? N then (-1)%Z else 1%Z) (-1)
                (- la) s) as [azi1' azi2'].
    cbn [fst snd]. split; [reflexivity | exact HM].
  - assert (H1 : AngRound lat1 <> 0).
    { intros E. rewrite E, Rabs_R0 in Hge.
      destruct Hnz as [Hnz | Hnz]; [exact (Hnz E) |].
      apply Hnz. pose proof (Rabs_pos (AngRound lat2)).
      destruct (Req_dec_T (AngRound lat2) 0) as [E2 | N2]; [exact E2 |].
      pose proof (Rabs_pos_lt _ N2). lra. }
    rewrite (Inverse_canonical_noswap lat1 lon1 lat2 lon2) by exact Hge.
    rewrite (Inverse_canonical_noswap (- lat1) lon1 (- lat2) lon2)
      by (rewrite !AngRound_opp, !Rabs_Ropp; exact Hge).
    cbn [c_lon12 c_lat1 c_lat2 c_lonsign c_swapp c_latsign].
    fold N. rewrite !AngRound_opp, (latsign_mirror _ H1).
    set (la := if AngRound lat1 <? 0 then 1%Z else (-1)%Z).
    rewrite opp_IZR.
    replace (- AngRound lat2 * - IZR la) with (AngRound lat2 * IZR la)
      by ring.
    replace (- AngRound lat1 * - IZR la) with (AngRound lat1 * IZR la)
      by ring.
    set (s := Inverse_solve g _ _ _).
    pose proof (Inverse_azimuths_supplement
                  (if 0 <=? N then 1%Z else (-1)%Z) 1 la s) as HM.
    destruct (Inverse_azimuths (if 0 <=? N then 1%Z else (-1)%Z) 1 la s)
      as [azi1 azi2].
    destruct (Inverse_azimuths (if 0 <=? N then 1%Z else (-1)%Z) 1
                (- la) s) as [azi1' azi2'].
    cbn [fst snd]. split; [reflexivity | exact HM].
Qed.

Lemma Inverse_mirror_latitude_witness :
  let '(s12, azi1, azi2) := Inverse WGS84 40 10 (-20) 70 in
  let '(s12', azi1', azi2') := Inverse WGS84 (- 40) 10 (- -20) 70 in
  s12' = s12 /\
  (supplement_of azi1' azi1 \/ (azi1' = 0 /\ azi1 = 0)) /\
  (supplement_of azi2' azi2 \/ (azi2' = 0 /\ azi2 = 0)).
Proof.
  apply (Inverse_mirror_latitude WGS84 40 10 (-20) 70).
  left. rewrite AngRound_keeps.
  - lra.
  - abs_numeral. pose proof AngRound_threshold_small. lra.
Defined.

(** ** Direct and the reflection of the azimuth *)

Lemma GeodesicLine_new_lon1 (g : Geodesic) (lat1 lon1 azi1 : R) :
  lat1 <> 90 -> lat1 <> -90 ->
  _lon1 (GeodesicLine_new g lat1 lon1 azi1) = AngNormalize lon1.
Proof.
  intros H1 H2. line_unfold.
  - apply Reqb_true in Heqb. contradiction.
  - apply Reqb_true in Heqb0. contradiction.
  - reflexivity.
Qed.

Lemma GeodesicLine_new_mirror (g : Geodesic) (lat1 lon1 azi1 : R) :
  lat1 <> 90 -> lat1 <> -90 ->
  let l := GeodesicLine_new g lat1 lon1 azi1 in
  let l' := GeodesicLine_new g lat1 lon1 (- azi1) in
  l' = GeodesicLine_flip l \/
  (l' = l /\ _salp0 l = 0 /\ _slam1 l = 0 /\ _dlamScale l = 0).
Proof.
  intros H1 H2. cbv zeta.
  pose proof AngRound_threshold_small as Hthr.
  unfold GeodesicLine_flip, GeodesicLine_new, SinCosNorm.
  replace (lat1 =? 90) with false by (symmetry; apply Reqb_false; lra).
  replace (lat1 =? -90) with false by (symmetry; apply Reqb_false; lra).
  cbv beta iota zeta.
  cbn [_bsign _lat1 _lon1 _azi1 _lf1 _salp0 _calp0 _ssig1 _csig1 _slam1
       _clam1 _sScale _sigCoeff _dtau1 _stau1 _ctau1 _dlamScale _dlamCoeff
       _dchi1].
  destruct (AngNormalize_opp azi1) as [E | [E1 E2]].
  - rewrite E, AngRound_opp.
    set (a := AngRound (AngNormalize azi1)).
    destruct (Rtotal_order a 0) as [Hlt | [E0 | Hgt]].
    + left.
      replace (0 <=? - a) with true by (symmetry; apply Rleb_true; lra).
      replace (0 <=? a) with false by (symmetry; apply Rleb_false; lra).
      replace (- a * 1) with (a * -1) by ring.
      reflexivity.
    + right. rewrite E0, Ropp_0.
      replace (0 <=? 0) with true by (symmetry; apply Rleb_true; lra).
      replace (0 * 1) with 0 by ring.
      replace (0 =? 180) with false by (symmetry; apply Reqb_false; lra).
      rewrite (Rmult_0_l degree), sin_0.
      split; [reflexivity |].
      unfold Rdiv. repeat split; ring.
    + left.
      replace (0 <=? - a) with false by (symmetry; apply Rleb_false; lra).
      replace (0 <=? a) with true by (symmetry; apply Rleb_true; lra).
      replace (- a * -1) with (a * 1) by ring.
      reflexivity.
  - right. rewrite E1, E2.
    rewrite (AngRound_keeps 180) by (abs_numeral; lra).
    replace (0 <=? 180) with true by (symmetry; apply Rleb_true; lra).
    replace (180 * 1) with 180 by ring.
    rewrite (Reqb_refl 180).
    split; [reflexivity |].
    unfold Rdiv. repeat split; ring.
Qed.

Lemma AngNormalize_wrapped (L t : R) :
  exists k : Z,
    AngNormalize (L + (t - 360 * floor (t / 360 + 0.5))) =
    L + t + 360 * IZR k.
Proof.
  destruct (AngNormalize_shift (L + (t - 360 * floor (t / 360 + 0.5))))
    as [k Hk].
  rewrite Hk. unfold floor.
  exists (k - Int_part (t / 360 + 0.5))%Z. rewrite minus_IZR. ring.
Qed.

Lemma Position_flip (l : GeodesicLine) (s12 : R) (out : R * R * R) :
  _sScale l <> 0 ->
  let '(lat2, lon2, azi2) := Position l s12 out in
  let '(lat2', lon2', azi2') := Position (GeodesicLine_flip l) s12 out in
  lat2' = lat2 /\
  (exists k : Z, lon2' + lon2 = 2 * _lon1 l + 360 * IZR k) /\
  negation_of azi2' azi2.
Proof.
  intros Hs. unfold Position, GeodesicLine_flip.
  cbn [_bsign _lat1 _lon1 _azi1 _lf1 _salp0 _calp0 _ssig1 _csig1 _slam1
       _clam1 _sScale _sigCoeff _dtau1 _stau1 _ctau1 _dlamScale _dlamCoeff
       _dchi1].
  replace (_sScale l =? 0) with false by (symmetry; apply Reqb_false; exact Hs).
  cbv zeta.
  split; [reflexivity |]. split.
  - match goal with
    | |- context [AngNormalize (?L + (?t - 360 * floor (?t / 360 + 0.5)))
                  + AngNormalize (?L + (?u - 360 * floor (?u / 360 + 0.5)))] =>
        destruct (AngNormalize_wrapped L t) as [k1 E1];
        destruct (AngNormalize_wrapped L u) as [k2 E2];
        rewrite E1, E2;
        exists (k1 + k2)%Z; rewrite plus_IZR, opp_IZR;
        unfold Rdiv; ring
    end.
  - fold (azimuth_of
            (IZR (- azi2sense * _bsign l) * _salp0 l)).
    match goal with
    | |- negation_of (0 - atan2 (IZR ?a * ?u) ?v / degree)
                     (0 - atan2 (IZR ?b * ?u) ?v / degree) =>
        replace (IZR a * u) with (- (IZR b * u))
          by (replace a with (- b)%Z by lia; rewrite (opp_IZR b); ring);
        apply azimuth_of_mirror
    end.
Qed.

Lemma atan2_0_cases (x : R) : atan2 0 x = 0 \/ atan2 0 x = PI.
Proof.
  destruct (Rtotal_order x 0) as [H | [H | H]].
  - right. apply atan2_0_neg. exact H.
  - left. subst x. unfold atan2. rcmp. reflexivity.
  - left. apply atan2_0_pos. exact H.
Qed.

Lemma Position_meridian (l : GeodesicLine) (s12 : R) (out : R * R * R) :
  _sScale l <> 0 ->
  _salp0 l = 0 -> _slam1 l = 0 -> _dlamScale l = 0 ->
  let '(lat2, lon2, azi2) := Position l s12 out in
  (exists k : Z, lon2 + lon2 = 2 * _lon1 l + 360 * IZR k) /\
  negation_of azi2 azi2.
Proof.
  intros Hs E1 E2 E3. unfold Position.
  replace (_sScale l =? 0) with false by (symmetry; apply Reqb_false; exact Hs).
  cbv zeta. rewrite E1, E2, E3, ?Rmult_0_l, ?Rmult_0_r, ?Rmult_0_l.
  split; [| apply negation_of_zero_sine].
  match goal with
  | |- context [atan2 ?y ?x] =>
      replace y with 0 by ring;
      destruct (atan2_0_cases x) as [Ea | Ea]; rewrite Ea; clear Ea
  end.
  all: match goal with
       | |- context [AngNormalize
                       (?L + (?t - 360 * floor (?t / 360 + 0.5)))] =>
           destruct (AngNormalize_wrapped L t) as [k1 Ek]; rewrite Ek
       end.
  - exists (2 * k1)%Z. rewrite mult_IZR. unfold Rdiv. ring.
  - exists (2 * k1 + _bsign l)%Z. rewrite plus_IZR, mult_IZR.
    pose proof PI_RGT_0. unfold degree. field. lra.
Qed.

(** X19.  Off the poles, on an ellipsoid with b > 0 and 0 <= ep2 <= 1, Direct
    is symmetric in the meridian of the starting point: with the azimuth
    negated, the latitude reached is the same, the longitude reached lies
    as far on the other side of lon1, and the final azimuth is negated,
    the last two modulo 360 degrees. *)
Theorem Direct_mirror_azimuth (g : Geodesic) (lat1 lon1 azi1 s12 : R)
  (out : R * R * R) :
  0 < _b g -> 0 <= _ep2 g <= 1 -> Rabs lat1 < 90 ->
  let '(lat2, lon2, azi2) := Direct g lat1 lon1 azi1 s12 out in
  let '(lat2', lon2', azi2') := Direct g lat1 lon1 (- azi1) s12 out in
  lat2' = lat2 /\
  negation_of (lon2' - lon1) (lon2 - lon1) /\
  negation_of azi2' azi2.
Proof.
  intros Hb Hep Hlat.
  assert (Hn : lat1 <> 90 /\ lat1 <> -90).
  { unfold Rabs in Hlat. destruct (Rcase_abs lat1); split; lra. }
  destruct Hn as [Hn Hs].
  assert (Hle : Rabs lat1 <= 90) by lra.
  pose proof (GeodesicLine_new_initialized g lat1 lon1 azi1 Hb Hep Hle)
    as Hsc.
  pose proof (GeodesicLine_new_lon1 g lat1 lon1 azi1 Hn Hs) as El.
  destruct (AngNormalize_shift lon1) as [k0 Ek0]. rewrite Ek0 in El.
  pose proof (GeodesicLine_new_mirror g lat1 lon1 azi1 Hn Hs) as HM.
  cbv zeta in HM. unfold Direct.
  set (l := GeodesicLine_new g lat1 lon1 azi1) in *.
  assert (Hnz : _sScale l <> 0) by lra.
  destruct HM as [E | (E & E1 & E2 & E3)]; rewrite E.
  - pose proof (Position_flip l s12 out Hnz) as HP.
    destruct (Position l s12 out) as [[lat2 lon2] azi2].
    destruct (Position (GeodesicLine_flip l) s12 out)
      as [[lat2' lon2'] azi2'].
    destruct HP as (HP1 & (k & HP2) & HP3).
    split; [exact HP1 |]. split; [| exact HP3].
    exists (k + 2 * k0)%Z. rewrite plus_IZR, mult_IZR.
    rewrite El in HP2. lra.
  - pose proof (Position_meridian l s12 out Hnz E1 E2 E3) as HP.
    destruct (Position l s12 out) as [[lat2 lon2] azi2].
    destruct HP as ((k & HP2) & HP3).
    split; [reflexivity |]. split; [| exact HP3].
    exists (k + 2 * k0)%Z. rewrite plus_IZR, mult_IZR.
    rewrite El in HP2. lra.
Qed.

Lemma Direct_mirror_azimuth_witness :
  let '(lat2, lon2, azi2) := Direct WGS84 40 10 30 5000000 (0, 0, 0) in
  let '(lat2', lon2', azi2') :=
    Direct WGS84 40 10 (- 30) 5000000 (0, 0, 0) in
  lat2' = lat2 /\
  negation_of (lon2' - 10) (lon2 - 10) /\
  negation_of azi2' azi2.
Proof.
  apply (Direct_mirror_azimuth WGS84 40 10 30 5000000 (0, 0, 0)).
  - destruct WGS84_bounds as (_ & _ & Hb). lra.
  - exact WGS84_ep2_bounds.
  - abs_numeral. lra.
Defined.

(** ** Direct on a sphere *)

Lemma sin_atan2_unit (s c : R) :
  0 <= c -> s * s + c * c = 1 -> sin (atan2 s c) = s.
Proof.
  intros Hc Hu. pose proof PI_RGT_0 as HPI.
  assert (Hs : -1 <= s <= 1) by (split; nra).
  pose proof (asin_bound s) as Hb.
  assert (Ec : cos (asin s) = c).
  { rewrite (cos_asin s Hs). apply sqrt_lem_1.
    - unfold Rsqr. nra.
    - exact Hc.
    - unfold Rsqr. nra. }
  rewrite <- (sin_asin s Hs) at 1. rewrite <- Ec.
  rewrite atan2_sin_cos by lra.
  apply sin_asin. exact Hs.
Qed.

Lemma sphere_sigma (sb cb sa ca : R) :
  sb * sb + cb * cb = 1 -> 0 < cb -> sa * sa + ca * ca = 1 ->
  let cs := if negb (sb =? 0) || negb (ca =? 0) then cb * ca else 1 in
  let c0 := hypot ca (sa * sb) in
  c0 * (sb / hypot sb cs) = sb /\ c0 * (cs / hypot sb cs) = cb * ca.
Proof.
  intros Hb Hcb Ha. cbv zeta.
  destruct (sb =? 0) eqn:E1;
    [apply Reqb_true in E1 | apply Reqb_false in E1];
    (destruct (ca =? 0) eqn:E2;
     [apply Reqb_true in E2 | apply Reqb_false in E2]);
    cbn [negb orb].
  - subst sb ca. rewrite Rmult_0_r, hypot_0_r, Rabs_R0. split; ring.
  - assert (Hn : cb * ca <> 0)
      by (apply Rmult_integral_contrapositive_currified; lra).
    assert (Eh : hypot sb (cb * ca) = hypot ca (sa * sb)).
    { unfold hypot. f_equal. nra. }
    rewrite Eh.
    assert (Hp : 0 < hypot ca (sa * sb)) by (apply hypot_pos; left; exact E2).
    split; field; lra.
  - assert (Eh : hypot sb (cb * ca) = hypot ca (sa * sb)).
    { unfold hypot. f_equal. nra. }
    rewrite Eh.
    assert (Hp : 0 < hypot ca (sa * sb))
      by (rewrite <- Eh; apply hypot_pos; left; exact E1).
    split; field; lra.
  - assert (Eh : hypot sb (cb * ca) = hypot ca (sa * sb)).
    { unfold hypot. f_equal. nra. }
    rewrite Eh.
    assert (Hp : 0 < hypot ca (sa * sb)) by (apply hypot_pos; left; exact E2).
    split; field; lra.
Qed.

Lemma GeodesicLine_new_sphere_sigma (g : Geodesic) (lat1 lon1 azi1 : R) :
  _f1 g = 1 -> Rabs lat1 < 90 ->
  -180 < azi1 <= 180 -> AngRound_threshold <= Rabs azi1 ->
  let l := GeodesicLine_new g lat1 lon1 azi1 in
  _calp0 l * _ssig1 l = sin (lat1 * degree) /\
  _calp0 l * _csig1 l = cos (lat1 * degree) * cos (azi1 * degree).
Proof.
  intros Ef1 Hlat Hazi Hthr. cbv zeta.
  pose proof (cos_degrees_pos lat1 Hlat) as Hcb.
  pose proof (sin2_cos2 (lat1 * degree)) as Hb. unfold Rsqr in Hb.
  unfold GeodesicLine_new, SinCosNorm.
  replace (lat1 =? 90) with false
    by (symmetry; apply Reqb_false; split_abs; lra).
  replace (lat1 =? -90) with false
    by (symmetry; apply Reqb_false; split_abs; lra).
  replace (Rabs lat1 =? 90) with false by (symmetry; apply Reqb_false; lra).
  cbv beta iota zeta. cbn [_calp0 _ssig1 _csig1].
  rewrite Ef1, (AngNormalize_id azi1) by lra.
  rewrite (AngRound_keeps azi1 Hthr).
  rewrite sin_forced, cos_forced.
  assert (Ec : cos (azi1 * IZR (if 0 <=? azi1 then 1%Z else (-1)%Z) * degree)
               = cos (azi1 * degree)).
  { destruct (0 <=? azi1); simpl.
    - f_equal. ring.
    - rewrite <- (cos_neg (azi1 * degree)). f_equal. ring. }
  rewrite Ec.
  pose proof (sin2_cos2 (azi1 * IZR (if 0 <=? azi1 then 1%Z else (-1)%Z)
                         * degree)) as Ha.
  unfold Rsqr in Ha. rewrite Ec in Ha.
  set (sa := sin (azi1 * IZR (if 0 <=? azi1 then 1%Z else (-1)%Z) * degree))
    in *.
  set (ca := cos (azi1 * degree)) in *.
  rewrite (Rmult_1_l (sin (lat1 * degree))).
  rewrite (hypot_unit _ _ Hb).
  replace (sin (lat1 * degree) / 1) with (sin (lat1 * degree)) by field.
  replace (cos (lat1 * degree) / 1) with (cos (lat1 * degree)) by field.
  exact (sphere_sigma (sin (lat1 * degree)) (cos (lat1 * degree)) sa ca
           Hb Hcb Ha).
Qed.

Lemma Position_latitude (l : GeodesicLine) (s12 : R) (out : R * R * R) :
  _sScale l <> 0 -> _lf1 l = 1 ->
  sq (_salp0 l) + sq (_calp0 l) = 1 ->
  sq (_ssig1 l) + sq (_csig1 l) = 1 ->
  let tau12 := s12 / _sScale l in
  let sig12 :=
    tau12 + (_dtau1 l +
             SinSeries (_stau1 l * cos tau12 + _ctau1 l * sin tau12)
                       (_ctau1 l * cos tau12 - _stau1 l * sin tau12)
                       (_sigCoeff l) maxpow_sigcoef) in
  sin (fst (fst (Position l s12 out)) * degree) =
  _calp0 l * (_ssig1 l * cos sig12 + _csig1 l * sin sig12).
Proof.
  intros Hs Hf H0 H1. cbv zeta. unfold Position.
  replace (_sScale l =? 0) with false by (symmetry; apply Reqb_false; exact Hs).
  cbv zeta. cbn [fst]. rewrite Hf.
  pose proof degree_pos as Hdeg.
  match goal with
  | |- sin (atan2 ?y ?x / degree * degree) = _ =>
      replace (atan2 y x / degree * degree) with (atan2 y x) by (field; lra);
      apply sin_atan2_unit
  end.
  - rewrite Rmult_1_l. apply hypot_nonneg.
  - rewrite Rmult_1_l, hypot_sq.
    match goal with
    | |- context [cos ?t] =>
        pose proof (sin2_cos2 t) as Hsc; unfold Rsqr in Hsc;
        set (c := cos t) in *; set (s := sin t) in *
    end.
    unfold sq in *.
    replace (_calp0 l * (_ssig1 l * c + _csig1 l * s) *
             (_calp0 l * (_ssig1 l * c + _csig1 l * s)) +
             (_salp0 l * _salp0 l +
              _calp0 l * (_csig1 l * c - _ssig1 l * s) *
              (_calp0 l * (_csig1 l * c - _ssig1 l * s))))
      with (_salp0 l * _salp0 l +
            _calp0 l * _calp0 l *
            ((_ssig1 l * _ssig1 l + _csig1 l * _csig1 l) * (s * s + c * c)))
      by ring.
    rewrite H1, Hsc. lra.
Qed.

(** X20.  On a sphere of radius a, off the poles and for an azimuth in
    (-180, 180] that is not rounded away, the latitude that Direct returns
    obeys the formula of spherical trigonometry
    sin lat2 = sin lat1 cos(s12/a) + cos lat1 cos azi1 sin(s12/a). *)
Theorem Direct_sphere_latitude (a r lat1 lon1 azi1 s12 : R)
  (out : R * R * R) :
  0 < a -> r <= 0 -> Rabs lat1 < 90 ->
  -180 < azi1 <= 180 -> AngRound_threshold <= Rabs azi1 ->
  let '(lat2, lon2, azi2) :=
    Direct (Geodesic_new a r) lat1 lon1 azi1 s12 out in
  sin (lat2 * degree) =
  sin (lat1 * degree) * cos (s12 / a) +
  cos (lat1 * degree) * cos (azi1 * degree) * sin (s12 / a).
Proof.
  intros Ha Hr Hlat Hazi Hthr.
  rewrite (Geodesic_new_round a r Hr).
  set (g := mkGeodesic a 0 1 0 0 a).
  assert (Hle : Rabs lat1 <= 90) by lra.
  destruct (GeodesicLine_new_pairs g lat1 lon1 azi1 Hle)
    as (_ & _ & H0 & H1 & _).
  destruct (GeodesicLine_new_sScale g lat1 lon1 azi1) as [_ Ef].
  pose proof (GeodesicLine_new_round g lat1 lon1 azi1 eq_refl eq_refl) as HR.
  cbv zeta in HR.
  destruct HR as (Es & Ed & Est & Ect & Esc & _).
  destruct (GeodesicLine_new_sphere_sigma g lat1 lon1 azi1 eq_refl
              Hlat Hazi Hthr) as [P1 P2].
  unfold Direct.
  set (l := GeodesicLine_new g lat1 lon1 azi1) in *.
  cbn [_b _f1 g] in Es, Ef.
  assert (Hnz : _sScale l <> 0) by lra.
  pose proof (Position_latitude l s12 out Hnz Ef H0 H1) as HP.
  cbv zeta in HP.
  destruct (Position l s12 out) as [[lat2 lon2] azi2].
  cbn [fst] in HP. rewrite HP, Es, Ed, Esc.
  unfold maxpow_sigcoef. rewrite SinSeries_zeros8.
  replace (s12 / a + (0 + 0)) with (s12 / a) by ring.
  rewrite Rmult_plus_distr_l, <- !Rmult_assoc, P1, P2. reflexivity.
Qed.

Lemma Direct_sphere_latitude_witness :
  let '(lat2, lon2, azi2) :=
    Direct (Geodesic_new 6371000 0) 30 20 45 1000000 (0, 0, 0) in
  sin (lat2 * degree) =
  sin (30 * degree) * cos (1000000 / 6371000) +
  cos (30 * degree) * cos (45 * degree) * sin (1000000 / 6371000).
Proof.
  apply (Direct_sphere_latitude 6371000 0 30 20 45 1000000 (0, 0, 0));
    try lra.
  - abs_numeral. lra.
  - abs_numeral. pose proof AngRound_threshold_small. lra.
Defined.

(** ** Inverse along a meridian of a sphere *)

Lemma Inverse_solve_sphere_meridian (a p1 p2 : R) :
  -90 < p1 -> p1 <= p2 -> p2 <= - p1 ->
  s_s12 (Inverse_solve (mkGeodesic a 0 1 0 0 a) p1 p2 0) =
  a * ((p2 - p1) * degree).
Proof.
  intros H1 H2 H3. pose proof PI_RGT_0 as HPI. pose proof degree_pos as Hd.
  rewrite Inverse_solve_meridional
    by (apply Inverse_case_meridional; [lra | left; reflexivity]).
  unfold Inverse_meridional, Inverse_reduced, SinCosNorm.
  replace (p1 =? -90) with false by (symmetry; apply Reqb_false; lra).
  replace (Rabs p2 =? 90) with false
    by (symmetry; apply Reqb_false; split_abs; lra).
  cbv beta iota zeta.
  cbn [d_sbet1 d_cbet1 d_sbet2 d_cbet2 d_cchi12 d_schi12 s_s12 _f1 _b _ep2].
  rewrite tauScale_0, tauCoeff_0. unfold maxpow_taucoef.
  rewrite !SinSeries_zeros8.
  rewrite (Rmult_0_l degree), cos_0, !Rmult_1_l.
  pose proof (sin2_cos2 (p1 * degree)) as U1. unfold Rsqr in U1.
  pose proof (sin2_cos2 (p2 * degree)) as U2. unfold Rsqr in U2.
  assert (E1 : forall x : R, x / 1 = x) by (intros x; field).
  rewrite (hypot_unit _ _ U1), (hypot_unit _ _ U2), !E1.
  rewrite (hypot_unit _ _ U1), (hypot_unit _ _ U2), !E1.
  replace (cos (p1 * degree) * sin (p2 * degree) -
           sin (p1 * degree) * cos (p2 * degree))
    with (sin ((p2 - p1) * degree))
    by (rewrite Rmult_minus_distr_r, sin_minus; ring).
  replace (cos (p1 * degree) * cos (p2 * degree) +
           sin (p1 * degree) * sin (p2 * degree))
    with (cos ((p2 - p1) * degree))
    by (rewrite Rmult_minus_distr_r, cos_minus; ring).
  assert (Ht : 0 <= (p2 - p1) * degree < PI).
  { unfold degree in *. split; [nra |].
    replace PI with (180 * (PI / 180)) at 2 by field.
    apply Rmult_lt_compat_r; lra. }
  rewrite Rmax_left by (apply sin_ge_0; lra).
  rewrite atan2_sin_cos by lra.
  ring.
Qed.

(** X21.  On a sphere of radius a, between two points of one meridian, off the
    poles and with latitudes that are not rounded, Inverse returns the
    length of the meridian arc: a times the difference of the latitudes
    in radians. *)
Theorem Inverse_sphere_meridian (a r lat1 lat2 lon : R) :
  r <= 0 -> Rabs lat1 < 90 -> Rabs lat2 < 90 ->
  AngRound lat1 = lat1 -> AngRound lat2 = lat2 ->
  let '(s12, azi1, azi2) := Inverse (Geodesic_new a r) lat1 lon lat2 lon in
  s12 = a * (Rabs (lat2 - lat1) * degree).
Proof.
  intros Hr Hl1 Hl2 R1 R2.
  rewrite (Geodesic_new_round a r Hr), Inverse_eq. cbv zeta.
  destruct (Rlt_le_dec (Rabs (AngRound lat1)) (Rabs (AngRound lat2)))
    as [Hlt | Hge].
  - rewrite (Inverse_canonical_swap lat1 lon lat2 lon) by exact Hlt.
    cbn [c_lon12 c_lat1 c_lat2].
    rewrite lon12_raw_same, Rabs_R0, R1, R2. rewrite R1, R2 in Hlt.
    destruct (lat2 <? 0) eqn:E;
      [apply Rltb_true in E | apply Rltb_false in E];
      simpl (IZR _).
    + rewrite !Rmult_1_r.
      rewrite Inverse_solve_sphere_meridian by (split_abs; lra).
      f_equal. f_equal. split_abs; lra.
    + replace (lat2 * -1) with (- lat2) by ring.
      replace (lat1 * -1) with (- lat1) by ring.
      rewrite Inverse_solve_sphere_meridian by (split_abs; lra).
      f_equal. f_equal. split_abs; lra.
  - rewrite (Inverse_canonical_noswap lat1 lon lat2 lon) by exact Hge.
    cbn [c_lon12 c_lat1 c_lat2].
    rewrite lon12_raw_same, Rabs_R0, R1, R2. rewrite R1, R2 in Hge.
    destruct (lat1 <? 0) eqn:E;
      [apply Rltb_true in E | apply Rltb_false in E];
      simpl (IZR _).
    + rewrite !Rmult_1_r.
      rewrite Inverse_solve_sphere_meridian by (split_abs; lra).
      f_equal. f_equal. split_abs; lra.
    + replace (lat2 * -1) with (- lat2) by ring.
      replace (lat1 * -1) with (- lat1) by ring.
      rewrite Inverse_solve_sphere_meridian by (split_abs; lra).
      f_equal. f_equal. split_abs; lra.
Qed.

Lemma Inverse_sphere_meridian_witness :
  let '(s12, azi1, azi2) :=
    Inverse (Geodesic_new 6371000 0) 10 25 (-60) 25 in
  s12 = 6371000 * (Rabs (-60 - 10) * degree).
Proof.
  pose proof AngRound_threshold_small as Hthr.
  apply (Inverse_sphere_meridian 6371000 0 10 (-60) 25).
  - lra.
  - abs_numeral. lra.
  - abs_numeral. lra.
  - apply AngRound_keeps. abs_numeral. lra.
  - apply AngRound_keeps. abs_numeral. lra.
Defined.

(** ** The Newton loop as a sequence of passes (claims C5 and C2) *)

Lemma Newton_update_unit (salp1 calp1 v dv : R) :
  Newton_update_finite salp1 calp1 v dv ->
  let p := Newton_update salp1 calp1 v dv in
  sq (fst p) + sq (snd p) = 1 /\ 0 <= fst p.
Proof.
  intros [_ Hn]. cbv zeta. rewrite Newton_update_eq.
  split; [apply SinCosNorm_unit_pair, Hn |].
  unfold SinCosNorm. cbn [fst].
  apply Rmult_le_pos; [apply Rmax_l |].
  left. apply Rinv_0_lt_compat, hypot_pos, Hn.
Qed.

Section NewtonPasses.

Variable g : Geodesic.
Variables sbet1 cbet1 sbet2 cbet2 chi12 : R.

Let chi12_at (salp1 calp1 : R) (diffp : bool) : Chi12_result :=
  Chi12 g sbet1 cbet1 sbet2 cbet2 salp1 calp1 diffp.

Let residual (salp1 calp1 : R) (trip : nat) : R :=
  r_chi12 (chi12_at salp1 calp1 (trip <? 1)%nat) - chi12.

Let run : nat -> nat -> R -> R -> nat -> Newton_result :=
  Newton_loop g sbet1 cbet1 sbet2 cbet2 chi12.

Let pass : R * R * nat -> option (R * R * nat) :=
  Newton_pass g sbet1 cbet1 sbet2 cbet2 chi12.

Let iter : nat -> R * R * nat -> option (R * R * nat) :=
  Newton_iter g sbet1 cbet1 sbet2 cbet2 chi12.

Lemma Newton_pass_break (s c : R) (t : nat) :
  pass (s, c, t) = None <-> Rabs (residual s c t) <= eps2 \/ (1 <= t)%nat.
Proof.
  unfold pass, Newton_pass, residual, chi12_at.
  destruct (Rabs _ <=? eps2) eqn:E1;
    [apply Rleb_true in E1 | apply Rleb_false in E1].
  - cbn [orb]. split; [left; exact E1 | reflexivity].
  - destruct (t <? 1)%nat eqn:E2; cbn [negb orb].
    + apply Nat.ltb_lt in E2.
      destruct t as [| t]; [| lia].
      destruct (Chi12_dchi12_diffp g sbet1 cbet1 sbet2 cbet2 s c) as [dv Hdv].
      cbn [Nat.ltb Nat.leb] in *. rewrite Hdv.
      destruct (Newton_update _ _ _ _).
      split; [discriminate | intros [H | H]; [lra | lia]].
    + apply Nat.ltb_ge in E2. split; [right; exact E2 | reflexivity].
Qed.

Lemma Newton_pass_next (s c : R) (t : nat) (st' : R * R * nat) :
  pass (s, c, t) = Some st' ->
  t = 0%nat /\ eps2 < Rabs (residual s c t) /\
  exists dv : R,
    r_dchi12 (chi12_at s c true) = Some dv /\
    st' = (fst (Newton_update s c (residual s c t) dv),
           snd (Newton_update s c (residual s c t) dv),
           if Rabs (residual s c t) <? tol then 1%nat else 0%nat).
Proof.
  intros H.
  assert (Hb : ~ (Rabs (residual s c t) <= eps2 \/ (1 <= t)%nat)).
  { intros Hb. apply Newton_pass_break in Hb. congruence. }
  assert (Ht : t = 0%nat) by lia. subst t.
  split; [reflexivity |]. split; [lra |].
  unfold pass, Newton_pass in H. fold (chi12_at s c (0 <? 1)%nat) in H.
  fold (residual s c 0) in H.
  replace (Rabs (residual s c 0) <=? eps2) with false in H
    by (symmetry; apply Rleb_false; lra).
  cbn [Nat.ltb Nat.leb negb orb] in H.
  change (chi12_at s c (0 <? 1)%nat) with (chi12_at s c true) in *.
  destruct (r_dchi12 (chi12_at s c true)) as [dv |]; [| discriminate].
  exists dv. split; [reflexivity |].
  change (residual s c 0) with (r_chi12 (chi12_at s c true) - chi12) in *.
  destruct (Newton_update s c _ dv) as [s' c'].
  injection H as <-. reflexivity.
Qed.

Lemma Newton_loop_pass (m i : nat) (s c : R) (t : nat) :
  run m i s c t =
  match pass (s, c, t) with
  | None => mkNewton s c (chi12_at s c (t <? 1)%nat) (S i)
  | Some (s', c', t') =>
      match m with
      | O => mkNewton s' c' (chi12_at s c (t <? 1)%nat) (S i)
      | S m' => run m' (S i) s' c' t'
      end
  end.
Proof.
  unfold run. rewrite Newton_loop_eq. cbv zeta.
  unfold pass, Newton_pass, chi12_at.
  destruct (_ || _); [reflexivity |].
  destruct (r_dchi12 _); [| reflexivity].
  destruct (Newton_update _ _ _ _). reflexivity.
Qed.

Lemma Newton_iter_trip (k : nat) :
  forall (st st' : R * R * nat),
    (snd st <= 1)%nat -> iter k st = Some st' -> (snd st' <= 1)%nat.
Proof.
  induction k as [| k IH]; intros [[s c] t] st' Ht H.
  - injection H as <-. exact Ht.
  - unfold iter in H. cbn [Newton_iter] in H.
    fold pass in H. fold iter in H.
    destruct (pass (s, c, t)) as [st1 |] eqn:E; [| discriminate].
    apply (IH st1 st'); [| exact H].
    destruct (Newton_pass_next s c t st1 E) as (_ & _ & dv & _ & ->).
    cbn [snd]. destruct (_ <? tol); lia.
Qed.

Lemma Newton_loop_break (k : nat) :
  forall (m i : nat) (s0 c0 : R) (t0 : nat) (s c : R) (t : nat),
    (k <= m)%nat ->
    iter k (s0, c0, t0) = Some (s, c, t) ->
    pass (s, c, t) = None ->
    run m i s0 c0 t0 =
    mkNewton s c (chi12_at s c (t <? 1)%nat) (S (i + k)).
Proof.
  induction k as [| k IH]; intros m i s0 c0 t0 s c t Hk Hi Hp.
  - injection Hi as -> -> ->.
    rewrite Newton_loop_pass, Hp, Nat.add_0_r. reflexivity.
  - unfold iter in Hi. cbn [Newton_iter] in Hi.
    fold pass in Hi. fold iter in Hi.
    destruct (pass (s0, c0, t0)) as [[[s1 c1] t1] |] eqn:E; [| discriminate].
    destruct m as [| m]; [lia |].
    rewrite Newton_loop_pass, E.
    rewrite (IH m (S i) s1 c1 t1 s c t) by (lia || assumption).
    f_equal. lia.
Qed.

Lemma Newton_loop_bound (m : nat) :
  forall (i : nat) (s0 c0 : R) (t0 : nat) (s c : R) (t : nat)
         (s' c' : R) (t' : nat),
    iter m (s0, c0, t0) = Some (s, c, t) ->
    pass (s, c, t) = Some (s', c', t') ->
    run m i s0 c0 t0 =
    mkNewton s' c' (chi12_at s c (t <? 1)%nat) (S (i + m)).
Proof.
  induction m as [| m IH]; intros i s0 c0 t0 s c t s' c' t' Hi Hp.
  - injection Hi as -> -> ->.
    rewrite Newton_loop_pass, Hp, Nat.add_0_r. reflexivity.
  - unfold iter in Hi. cbn [Newton_iter] in Hi.
    fold pass in Hi. fold iter in Hi.
    destruct (pass (s0, c0, t0)) as [[[s1 c1] t1] |] eqn:E; [| discriminate].
    rewrite Newton_loop_pass, E.
    rewrite (IH (S i) s1 c1 t1 s c t s' c' t' Hi Hp).
    f_equal. lia.
Qed.

End NewtonPasses.

(** C5, as the code has it.  From a state (salp1, calp1) with trip = 0
    the loop body runs at most 50 times.  A pass leaves the loop exactly
    when |Psi| <= eps2 or trip was raised by the pass before; otherwise
    it rotates (salp1, calp1) by -Psi/dPsi with the addition formulas,
    clamps the sine (and only the sine) at 0, renormalizes, and raises
    trip when |Psi| < tol, so that the loop stops at the pass that follows
    the first pass with |Psi| < tol, whatever |Psi| is then.  The loop
    returns the pair and the outputs of Chi12 of the pass that broke, or,
    after 50 passes without a break, the pair as updated by the 50th pass
    with the outputs of Chi12 of that pass.  Where the update computes as
    the doubles do, the new pair is a unit pair with a sine that is not
    negative. *)
Theorem Newton_loop_behaviour (g : Geodesic)
  (sbet1 cbet1 sbet2 cbet2 chi12 salp1 calp1 : R) :
  let pass := Newton_pass g sbet1 cbet1 sbet2 cbet2 chi12 in
  let iter := Newton_iter g sbet1 cbet1 sbet2 cbet2 chi12 in
  let call (s c : R) (t : nat) :=
    Chi12 g sbet1 cbet1 sbet2 cbet2 s c (t <? 1)%nat in
  let Psi (s c : R) (t : nat) := r_chi12 (call s c t) - chi12 in
  let loop := Newton_loop g sbet1 cbet1 sbet2 cbet2 chi12 49 0
                          salp1 calp1 0 in
  (1 <= n_iterations loop <= 50)%nat /\
  (forall (k : nat) (s c : R) (t : nat),
     iter k (salp1, calp1, 0%nat) = Some (s, c, t) ->
     (t <= 1)%nat /\
     (pass (s, c, t) = None <-> Rabs (Psi s c t) <= eps2 \/ t = 1%nat) /\
     (forall st' : R * R * nat,
        pass (s, c, t) = Some st' ->
        exists dv : R,
          r_dchi12 (call s c t) = Some dv /\
          st' = (fst (Newton_update s c (Psi s c t) dv),
                 snd (Newton_update s c (Psi s c t) dv),
                 if Rabs (Psi s c t) <? tol then 1%nat else 0%nat)) /\
     ((k < 50)%nat -> pass (s, c, t) = None ->
      loop = mkNewton s c (call s c t) (S k)) /\
     (k = 49%nat ->
      forall (s' c' : R) (t' : nat),
        pass (s, c, t) = Some (s', c', t') ->
        loop = mkNewton s' c' (call s c t) 50)) /\
  (forall s c v dv : R,
     Newton_update s c v dv =
     SinCosNorm (Rmax 0 (s * cos (- v / dv) + c * sin (- v / dv)))
                (c * cos (- v / dv) - s * sin (- v / dv))) /\
  (forall s c v dv : R,
     Newton_update_finite s c v dv ->
     let p := Newton_update s c v dv in
     sq (fst p) + sq (snd p) = 1 /\ 0 <= fst p).
Proof.
  intros pass iter call Psi loop.
  split; [| split; [| split]].
  - pose proof (Newton_loop_iterations g sbet1 cbet1 sbet2 cbet2 chi12
                  49 0 salp1 calp1 0) as H.
    fold loop in H. lia.
  - intros k s c t Hi.
    pose proof (Newton_iter_trip g sbet1 cbet1 sbet2 cbet2 chi12 k
                  (salp1, calp1, 0%nat) (s, c, t) (Nat.le_0_l 1) Hi) as Ht.
    cbn [snd] in Ht.
    split; [exact Ht |]. split; [| split; [| split]].
    + unfold pass. rewrite Newton_pass_break. fold (call s c t) (Psi s c t).
      split; (intros [H | H]; [left; exact H | right; lia]).
    + intros st' Hp.
      destruct (Newton_pass_next g sbet1 cbet1 sbet2 cbet2 chi12 s c t st' Hp)
        as (-> & _ & dv & Hdv & ->).
      exists dv. split; [exact Hdv | reflexivity].
    + intros Hk Hp. unfold loop.
      rewrite (Newton_loop_break g sbet1 cbet1 sbet2 cbet2 chi12 k 49 0
                 salp1 calp1 0 s c t) by (lia || assumption).
      reflexivity.
    + intros -> s' c' t' Hp. unfold loop.
      rewrite (Newton_loop_bound g sbet1 cbet1 sbet2 cbet2 chi12 49 0
                 salp1 calp1 0 s c t s' c' t' Hi Hp).
      reflexivity.
  - intros s c v dv. apply Newton_update_eq.
  - intros s c v dv. apply Newton_update_unit.
Qed.

(** ** Inverse has no failure mode (claim C2) *)

Lemma Inverse_meridional_zero_arc (g : Geodesic) (d : Reduced) :
  d_sbet2 d = d_sbet1 d -> d_cbet2 d = d_cbet1 d -> d_cchi12 d = 1 ->
  d_cbet1 d <> 0 ->
  s_s12 (Inverse_meridional g d) = 0.
Proof.
  intros Es Ec E1 Hn.
  unfold Inverse_meridional. rewrite Es, Ec, E1, !Rmult_1_l.
  pose proof (SinCosNorm_unit_pair (d_sbet1 d) (d_cbet1 d)
                (or_intror Hn)) as Hu.
  destruct (SinCosNorm (d_sbet1 d) (d_cbet1 d)) as [s c].
  cbn [fst snd] in Hu. unfold sq in Hu. cbn [s_s12].
  replace (c * s - s * c) with 0 by ring.
  rewrite Rmax_left by lra.
  rewrite atan2_0_pos by lra.
  ring.
Qed.

Lemma cos_degrees_beyond_90 (B : R) :
  -180 < B < -90 -> cos (B * degree) < 0.
Proof.
  intros H. pose proof PI_RGT_0 as HPI.
  rewrite <- cos_neg. apply cos_lt_0; unfold degree; nra.
Qed.

(** A latitude beyond 90 degrees is not rejected: the computation runs
    as for any other, and on WGS84 from such a point to itself it finds
    the distance 0 and two equal azimuths. *)
Lemma Inverse_coincident_beyond_90 (lat lon : R) :
  90 < Rabs lat < 180 ->
  let '(s12, azi1, azi2) := Inverse WGS84 lat lon lat lon in
  s12 = 0 /\ azi1 = azi2.
Proof.
  intros Hlat. pose proof AngRound_threshold_small as Hthr.
  rewrite Inverse_eq. cbv zeta.
  rewrite (Inverse_canonical_noswap lat lon lat lon) by lra.
  cbn [c_lon12 c_lat1 c_lat2 c_lonsign c_swapp c_latsign].
  rewrite lon12_raw_same, Rabs_R0.
  rewrite (AngRound_keeps lat) by lra.
  set (latsign := if lat <? 0 then 1%Z else (-1)%Z).
  set (B := lat * IZR latsign).
  assert (HB : -180 < B < -90).
  { unfold B, latsign. destruct (lat <? 0) eqn:E;
      [apply Rltb_true in E | apply Rltb_false in E]; simpl (IZR _);
      split_abs; lra. }
  rewrite Inverse_azimuths_noswap. cbn [fst snd].
  rewrite Inverse_solve_meridional
    by (apply Inverse_case_meridional; [lra | auto]).
  destruct (Inverse_meridional_directions WGS84
              (Inverse_reduced WGS84 B B 0))
    as (E1 & E2 & E3 & E4).
  rewrite E1, E2, E3, E4, d_schi12_eq, d_cchi12_eq.
  rewrite Rmult_0_l, sin_0, cos_0.
  split; [| reflexivity].
  destruct (Inverse_reduced_same_latitude WGS84 B 0) as (Es & Ec & Eb);
    [lra | split_abs; lra |].
  apply Inverse_meridional_zero_arc; try assumption.
  - rewrite d_cchi12_eq, Rmult_0_l. apply cos_0.
  - rewrite Eb.
    pose proof (cos_degrees_beyond_90 B HB) as Hc.
    assert (Hh : 0 < hypot (_f1 WGS84 * sin (B * degree)) (cos (B * degree)))
      by (apply hypot_pos; right; lra).
    intros E0.
    apply (Rmult_eq_compat_r (hypot (_f1 WGS84 * sin (B * degree))
                                    (cos (B * degree)))) in E0.
    unfold Rdiv in E0.
    rewrite Rmult_assoc, Rinv_l, Rmult_1_r, Rmult_0_l in E0 by lra.
    lra.
Qed.

(** The claim would have DomainError at latitude 91; the code returns
    the distance 0 and two equal azimuths for the point taken twice. *)
Lemma Inverse_latitude_91_returns :
  let '(s12, azi1, azi2) := Inverse WGS84 91 0 91 0 in
  s12 = 0 /\ azi1 = azi2.
Proof. apply (Inverse_coincident_beyond_90 91 0). abs_numeral. lra. Qed.

(** C2, as the code has it.  Inverse has no failure mode: it is declared
    throw(), holds no throw and tests neither the latitudes nor the
    finiteness of its arguments, so it signals neither DomainError nor
    ConvergenceError.  In the general case the results come from the
    state the Newton loop is left in.  When a pass breaks, s12 and both
    azimuths come from the pair and the outputs of Chi12 of that pass.
    When 50 passes have run without a break, which is where the claim has
    ConvergenceError, s12 and azi2 come from the outputs of the 50th call
    of Chi12 and azi1 from the pair as updated after that call.  A
    latitude beyond 90 degrees goes through the same computation: on
    WGS84, from such a point to itself the distance 0 and two equal
    azimuths are returned. *)
Theorem Inverse_always_returns (g : Geodesic) (lat1 lon1 lat2 lon2 : R) :
  let k := Inverse_canonical lat1 lon1 lat2 lon2 in
  let d := Inverse_reduced g (c_lat1 k) (c_lat2 k) (c_lon12 k) in
  let start :=
    Inverse_start g (d_sbet1 d) (d_cbet1 d) (d_sbet2 d) (d_cbet2 d) (d_n1 d)
                  (d_sbet12 d) (d_sbet12a d) (d_chi12 d) (d_cchi12 d)
                  (d_schi12 d) in
  let pass := Newton_pass g (d_sbet1 d) (d_cbet1 d) (d_sbet2 d) (d_cbet2 d)
                          (d_chi12 d) in
  let iter := Newton_iter g (d_sbet1 d) (d_cbet1 d) (d_sbet2 d) (d_cbet2 d)
                          (d_chi12 d) in
  let call (s c : R) (t : nat) :=
    Chi12 g (d_sbet1 d) (d_cbet1 d) (d_sbet2 d) (d_cbet2 d) s c
          (t <? 1)%nat in
  let sol (s c : R) (r : Chi12_result) :=
    mkSolution
      (_b g * tauScale (r_u2 r) *
       (r_sig12 r +
        (SinSeries (r_ssig2 r) (r_csig2 r) (tauCoeff (r_u2 r))
                   maxpow_taucoef -
         SinSeries (r_ssig1 r) (r_csig1 r) (tauCoeff (r_u2 r))
                   maxpow_taucoef)))
      s c (r_salp2 r) (r_calp2 r) in
  let result (s c : R) (r : Chi12_result) :=
    (s_s12 (sol s c r),
     fst (Inverse_azimuths (c_lonsign k) (c_swapp k) (c_latsign k)
                           (sol s c r)),
     snd (Inverse_azimuths (c_lonsign k) (c_swapp k) (c_latsign k)
                           (sol s c r))) in
  (Inverse_case g (c_lat1 k) (c_lat2 k) (c_lon12 k) = General ->
   forall (j : nat) (s c : R) (t : nat),
     iter j (fst start, snd start, 0%nat) = Some (s, c, t) ->
     ((j < 50)%nat -> pass (s, c, t) = None ->
      Inverse g lat1 lon1 lat2 lon2 = result s c (call s c t)) /\
     (j = 49%nat ->
      forall (s' c' : R) (t' : nat),
        pass (s, c, t) = Some (s', c', t') ->
        Inverse g lat1 lon1 lat2 lon2 = result s' c' (call s c t))) /\
  (forall lat lon : R,
     90 < Rabs lat < 180 ->
     let '(s12, azi1, azi2) := Inverse WGS84 lat lon lat lon in
     s12 = 0 /\ azi1 = azi2).
Proof.
  intros k d start pass iter call sol result.
  split; [| intros lat lon; apply Inverse_coincident_beyond_90].
  intros Hcase j s c t Hi.
  assert (E : forall n : Newton_result,
             Newton_loop g (d_sbet1 d) (d_cbet1 d) (d_sbet2 d) (d_cbet2 d)
                         (d_chi12 d) 49 0 (fst start) (snd start) 0 = n ->
             Inverse g lat1 lon1 lat2 lon2 =
             result (n_salp1 n) (n_calp1 n) (n_last n)).
  { intros n En. rewrite Inverse_eq. cbv zeta. fold k.
    rewrite (Inverse_solve_general _ _ _ _ Hcase). fold d.
    pose proof (Inverse_general_eq g d) as Eg. cbv zeta in Eg.
    fold start in Eg. rewrite En in Eg. rewrite Eg. reflexivity. }
  split.
  - intros Hj Hp. apply (E (mkNewton s c (call s c t) (S j))).
    rewrite (Newton_loop_break g (d_sbet1 d) (d_cbet1 d) (d_sbet2 d)
               (d_cbet2 d) (d_chi12 d) j 49 0 (fst start) (snd start) 0
               s c t) by (lia || assumption).
    reflexivity.
  - intros -> s' c' t' Hp. apply (E (mkNewton s' c' (call s c t) 50)).
    rewrite (Newton_loop_bound g (d_sbet1 d) (d_cbet1 d) (d_sbet2 d)
               (d_cbet2 d) (d_chi12 d) 49 0 (fst start) (snd start) 0
               s c t s' c' t' Hi Hp).
    reflexivity.
Qed.

(** ** Exchanging the two points (claim C8) *)












Lemma Inverse_solve_at_180 (g : Geodesic) (lat1 lat2 : R) :
  let s := Inverse_solve g lat1 lat2 180 in
  s_salp1 s = 0 /\ s_calp1 s = -1 /\ s_salp2 s = 0 /\ s_calp2 s = 1.
Proof.
  cbv zeta.
  rewrite Inverse_solve_meridional
    by (apply Inverse_case_meridional; [lra | auto]).
  destruct (Inverse_meridional_directions g (Inverse_reduced g lat1 lat2 180))
    as (E1 & E2 & E3 & E4).
  rewrite E1, E2, E3, E4, d_schi12_eq, d_cchi12_eq, cos_180_degree.
  repeat split.
  apply sin_degrees_zero; [lra | auto].
Qed.



(** *** Equal absolute latitudes in the general case *)








Lemma Inverse_canonical_antipodal :
  Inverse_canonical 30 0 (-30) 180 = mkCanonical 180 (-30) 30 1 1 (-1).
Proof.
  unfold Inverse_canonical.
  norm_angles.
  rcmp. abs_numeral. rcmp. cbn [Z.ltb Z.compare]. cbv iota beta.
  rcmp. f_equal; simpl; lra.
Qed.

Lemma Inverse_canonical_antipodal_exchanged :
  Inverse_canonical (-30) 180 30 0 = mkCanonical 180 (-30) 30 1 1 1.
Proof.
  unfold Inverse_canonical.
  rewrite (AngNormalize_id 180), (AngNormalize_id 0) by lra.
  rewrite (AngNormalize_unique (0 - 180) 1) by (simpl; lra).
  replace (0 - 180 + 360 * IZR 1) with 180 by (simpl; lra).
  norm_angles.
  rcmp. abs_numeral. rcmp. cbn [Z.ltb Z.compare]. cbv iota beta.
  rcmp. f_equal; simpl; lra.
Qed.

(** X23.  Two antipodal points: each run leaves over the pole nearest to its
    first point, so the second run does not retrace the first and its
    azimuth at the start is not the reversed azimuth at the end of the
    first (both are 180 degrees, up to the sign). *)
Lemma Inverse_exchange_antipodal :
  let '(s12, azi1, azi2) := Inverse WGS84 30 0 (-30) 180 in
  let '(s12', azi1', azi2') := Inverse WGS84 (-30) 180 30 0 in
  ~ reverse_of azi1' azi2 /\ ~ reverse_of azi2' azi1.
Proof.
  rewrite !Inverse_eq. cbv zeta.
  rewrite Inverse_canonical_antipodal, Inverse_canonical_antipodal_exchanged.
  cbn [c_lat1 c_lat2 c_lon12 c_lonsign c_swapp c_latsign].
  rewrite !Inverse_azimuths_noswap. cbn [fst snd].
  destruct (Inverse_solve_at_180 WGS84 (-30) 30) as (Es1 & Ec1 & Es2 & Ec2).
  rewrite Es1, Ec1, Es2, Ec2.
  simpl (IZR (- (1))). simpl (IZR 1). simpl (IZR (-1)).
  rewrite !Rmult_0_r.
  replace (-1 * -1) with 1 by ring.
  replace (-1 * 1) with (-1) by ring.
  replace (1 * -1) with (-1) by ring.
  replace (1 * 1) with 1 by ring.
  rewrite (atan2_0_pos 1) by lra.
  rewrite (atan2_0_neg (-1)) by lra.
  assert (HP : PI / degree = 180).
  { unfold degree. pose proof PI_RGT_0. field. lra. }
  rewrite HP.
  split; intros [k Hk].
  - assert (E : IZR (2 * k + 1) = 0)
      by (rewrite plus_IZR, mult_IZR; simpl; unfold Rdiv in Hk; lra).
    apply eq_IZR in E. lia.
  - assert (E : IZR (2 * k + 1) = 0)
      by (rewrite plus_IZR, mult_IZR; simpl; unfold Rdiv in Hk; lra).
    apply eq_IZR in E. lia.
Qed.
